(** * tcpsockets.py: a thread-per-connection TCP echo server

    A shallow embedding of [src/tcpsockets.py] and the properties of its
    specification.  The Python functions become functions of an error and
    state monad over an explicit [world]: the sockets, the process's
    standard output and the characters its encoding has, the module's
    global names, the local names of the running call of [start_server],
    and the threads it has started.

    The environment is part of the world.  Each socket carries a script of
    what the operating system and the peer will do: the data, shutdown or
    failure that each [recv] finds, the fate of each [sendall], the
    connections or failures that each [accept] finds.  A call that waits
    for an event the script does not contain never returns, which is the
    result [Block].  A function of the source is then a total function of
    the world, and a statement about every run of the program is a
    statement about every world.

    Layout: the UTF-8 codec behind [bytes.decode] and [str.encode]; the
    world and its monad; the socket calls; the three functions of the
    module and its top-level code; the threads and their schedules; the
    notions the theorems are stated with; then the lemmas, some examples,
    the ten claims of the specification in order, and further properties
    of the code. *)

From stdpp Require Import gmap strings list pretty.
From Stdlib Require Import Strings.Byte NArith Lia.
From Equations Require Import Equations.
From Equations.Prop Require Import Logic.

Local Open Scope N_scope.

(* ===================================================================== *)
(** * Python text and bytes *)
(* ===================================================================== *)

(** A Python [bytes] object is a list of bytes, a Python [str] a list of
  code points. *)
Abbreviation bytes := (list byte).
Abbreviation str := (list N).

(** A set of characters, as a list of ranges of code points, both ends
    included. *)
Abbreviation charset := (list (N * N)).

(** A [str] literal of the source whose characters are all ASCII. *)
Definition lit (s : string) : str :=
map (λ b, Byte.to_N b) (String.list_byte_of_string s).

Arguments lit : simpl never.

(** A [bytes] literal, [b"..."]. *)
Definition blit (s : string) : bytes := String.list_byte_of_string s.
Arguments blit : simpl never.

Module Utf8.

(** The byte with numeric value [n] ([n < 256]). *)
Definition byte_of_N (n : N) : byte := default x00 (Byte.of_N n).

Definition between (lo hi n : N) : bool := (lo <=? n) && (n <=? hi).

(** Continuation bytes are 10xxxxxx. *)
Definition is_cont (n : N) : bool := between 0x80 0xBF n.

(** Range of the second byte after a three-byte lead: E0 excludes the
    overlong forms, ED excludes the surrogates D800..DFFF. *)
Definition second3 (lead n : N) : bool :=
  if lead =? 0xE0 then between 0xA0 0xBF n
  else if lead =? 0xED then between 0x80 0x9F n
  else is_cont n.

(** Range of the second byte after a four-byte lead: F0 excludes the
    overlong forms, F4 excludes everything above U+10FFFF. *)
Definition second4 (lead n : N) : bool :=
  if lead =? 0xF0 then between 0x90 0xBF n
  else if lead =? 0xF4 then between 0x80 0x8F n
  else is_cont n.

(** [bytes.decode('utf-8')] with the default strict error handler:
    [None] stands for UnicodeDecodeError. *)
Fixpoint decode (bs : bytes) : option str :=
  match bs with
  | [] => Some []
  | b0 :: r0 =>
    let n0 := Byte.to_N b0 in
    if n0 <? 0x80 then cons n0 <$> decode r0
    else if n0 <? 0xC2 then None
    else if n0 <? 0xE0 then
      match r0 with
      | b1 :: r1 =>
        let n1 := Byte.to_N b1 in
        if is_cont n1
        then cons ((n0 - 0xC0) * 64 + (n1 - 0x80)) <$> decode r1
        else None
      | _ => None
      end
    else if n0 <? 0xF0 then
      match r0 with
      | b1 :: b2 :: r2 =>
        let n1 := Byte.to_N b1 in
        let n2 := Byte.to_N b2 in
        if second3 n0 n1 && is_cont n2
        then cons ((n0 - 0xE0) * 4096 + (n1 - 0x80) * 64 + (n2 - 0x80))
               <$> decode r2
        else None
      | _ => None
      end
    else if n0 <? 0xF5 then
      match r0 with
      | b1 :: b2 :: b3 :: r3 =>
        let n1 := Byte.to_N b1 in
        let n2 := Byte.to_N b2 in
        let n3 := Byte.to_N b3 in
        if second4 n0 n1 && is_cont n2 && is_cont n3
        then cons ((n0 - 0xF0) * 262144 + (n1 - 0x80) * 4096
                   + (n2 - 0x80) * 64 + (n3 - 0x80))
               <$> decode r3
        else None
      | _ => None
      end
    else None
  end.

(** The UTF-8 form of one code point; [None] for a surrogate, which
    [str.encode] refuses with UnicodeEncodeError, and for a number that is
    no code point at all. *)
Definition encode_cp (c : N) : option bytes :=
  if c <? 0x80 then Some [byte_of_N c]
  else if c <? 0x800 then
    Some [byte_of_N (0xC0 + c / 64); byte_of_N (0x80 + c mod 64)]
  else if c <? 0x10000 then
    if between 0xD800 0xDFFF c then None
    else Some [byte_of_N (0xE0 + c / 4096);
               byte_of_N (0x80 + (c / 64) mod 64);
               byte_of_N (0x80 + c mod 64)]
  else if c <? 0x110000 then
    Some [byte_of_N (0xF0 + c / 262144);
          byte_of_N (0x80 + (c / 4096) mod 64);
          byte_of_N (0x80 + (c / 64) mod 64);
          byte_of_N (0x80 + c mod 64)]
  else None.

(** [str.encode('utf-8')]. *)
Fixpoint encode (s : str) : option bytes :=
  match s with
  | [] => Some []
  | c :: s' =>
    match encode_cp c, encode s' with
    | Some b, Some bs => Some (b ++ bs)
    | _, _ => None
    end
  end.

End Utf8.

(* ===================================================================== *)
(** * The world *)
(* ===================================================================== *)

(** The exceptions that can occur.  The source catches all of them alike,
    with bare [except:] clauses. *)
Inductive exn :=
| OSError
| ConnectionResetError
| BrokenPipeError
| TimeoutError
| UnicodeDecodeError
| UnicodeEncodeError
| RuntimeError
| NameError
| TypeError
| AttributeError
| OverflowError.

(** How a call ends: it returns a value, raises, or never returns because it
    waits for an event that does not come. *)
Inductive result (A : Type) :=
| Ok (a : A)
| Raise (e : exn)
| Block.
Arguments Ok {A} a.
Arguments Raise {A} e.
Arguments Block {A}.

(** A socket is named by its descriptor. *)
Abbreviation fd := nat.

(** The address [accept] returns for an AF_INET peer: a dotted quad and a
    port. *)
Record addr := Addr {
  ip : N * N * N * N;
  peer_port : N }.

(** What the next [recv] on a socket finds: bytes that have arrived, the
    peer's orderly shutdown, or a failure of the connection. *)
Inductive rx_event :=
| RxData (bs : bytes)
| RxEof
| RxErr (e : exn).

(** How the next [sendall] on a socket fares: everything is transmitted, or
    the first [k] bytes are and the call raises. *)
Inductive tx_event :=
| TxOk
| TxErr (k : nat) (e : exn).

(** What the next [accept] on a listening socket finds: a connection, with
    the descriptor of its socket and the peer's address, or a failure. *)
Inductive accept_event :=
| Accepted (c : fd) (peer : addr)
| AcceptErr (e : exn).

(** A socket.  The first group of fields is the environment's script, how
    the operating system and the peer will answer the calls made on the
    socket; the second group records what the program did with it. *)
Record sock := Sock {
  bind_err : option exn;
  listen_err : option exn;
  connect_err : option exn;
  close_err : option exn;
  backlog : list accept_event;
  rx : list rx_event;
  tx : list tx_event;
  listening : bool;
  sent : list bytes;
  closed : bool }.

(** Python values, as far as the names of the module hold them.  A
    [PThread] is the [threading.Thread] object made for a connection: its
    [args] hold the connection's socket. *)
Inductive pyval :=
| PNone
| PStr (s : str)
| PInt (z : Z)
| PSocket (c : fd)
| PAddr (a : addr)
| PThread (c : fd)
| PModule (name : string)
| PFunction (name : string).

(** A thread started by [start_server] is running, has returned, or has died
    with an exception. *)
Inductive tstatus :=
| TRunning
| TFinished
| TCrashed (e : exn).

(** The world: every socket by descriptor, the descriptors that
    [socket.socket()] hands out next, the lines printed so far, the
    characters beyond ASCII that the encoding of standard output has, the
    module's global names, the local names of the call of [start_server]
    that is running, the handler threads in the order they were started,
    each with the socket it was given, and the number of threads the
    operating system still allows. *)
Record world := World {
  socks : gmap fd sock;
  fresh_fds : list fd;
  stdout : list str;
  stdout_chars : charset;
  globals : gmap string pyval;
  locals : gmap string pyval;
  threads : list (fd * tstatus);
  thread_budget : nat }.

Definition set_rx (v : list rx_event) (s : sock) : sock :=
  Sock (bind_err s) (listen_err s) (connect_err s) (close_err s) (backlog s)
       v (tx s) (listening s) (sent s) (closed s).

Definition set_tx_sent (t : list tx_event) (v : list bytes) (s : sock) : sock :=
  Sock (bind_err s) (listen_err s) (connect_err s) (close_err s) (backlog s)
       (rx s) t (listening s) v (closed s).

Definition set_backlog (v : list accept_event) (s : sock) : sock :=
  Sock (bind_err s) (listen_err s) (connect_err s) (close_err s) v
       (rx s) (tx s) (listening s) (sent s) (closed s).

Definition set_listening (v : bool) (s : sock) : sock :=
  Sock (bind_err s) (listen_err s) (connect_err s) (close_err s) (backlog s)
       (rx s) (tx s) v (sent s) (closed s).

Definition set_closed (v : bool) (s : sock) : sock :=
  Sock (bind_err s) (listen_err s) (connect_err s) (close_err s) (backlog s)
       (rx s) (tx s) (listening s) (sent s) v.

Definition set_sock (c : fd) (s : sock) (w : world) : world :=
  World (<[c := s]> (socks w)) (fresh_fds w) (stdout w) (stdout_chars w)
        (globals w) (locals w) (threads w) (thread_budget w).

Definition set_fresh_fds (v : list fd) (w : world) : world :=
  World (socks w) v (stdout w) (stdout_chars w) (globals w) (locals w)
        (threads w) (thread_budget w).

Definition set_stdout (v : list str) (w : world) : world :=
  World (socks w) (fresh_fds w) v (stdout_chars w) (globals w) (locals w)
        (threads w) (thread_budget w).

Definition set_globals (v : gmap string pyval) (w : world) : world :=
  World (socks w) (fresh_fds w) (stdout w) (stdout_chars w) v (locals w)
        (threads w) (thread_budget w).

Definition set_locals (v : gmap string pyval) (w : world) : world :=
  World (socks w) (fresh_fds w) (stdout w) (stdout_chars w) (globals w) v
        (threads w) (thread_budget w).

Definition set_threads (v : list (fd * tstatus)) (n : nat) (w : world) : world :=
  World (socks w) (fresh_fds w) (stdout w) (stdout_chars w) (globals w)
        (locals w) v n.

(* ===================================================================== *)
(** * The monad of Python statements *)
(* ===================================================================== *)

Definition M (A : Type) : Type := world → result A * world.

Definition ret {A} (a : A) : M A := λ w, (Ok a, w).

Definition raise {A} (e : exn) : M A := λ w, (Raise e, w).

Definition bind {A B} (m : M A) (k : A → M B) : M B := λ w,
  match m w with
  | (Ok a, w') => k a w'
  | (Raise e, w') => (Raise e, w')
  | (Block, w') => (Block, w')
  end.

(** [try: body except: handler].  The bare [except:] catches every
    exception; a call that never returns is not an exception. *)
Definition try_except {A} (body : M A) (handler : exn → M A) : M A := λ w,
  match body w with
  | (Raise e, w') => handler e w'
  | r => r
  end.

Declare Scope py_scope.
Delimit Scope py_scope with py.
Notation "x <- m ;; k" := (bind m (λ x, k))
  (at level 100, m at next level, right associativity) : py_scope.
Notation "m ;; k" := (bind m (λ _, k))
  (at level 100, right associativity) : py_scope.
Local Open Scope py_scope.

(* ===================================================================== *)
(** * Built-ins and socket calls *)
(* ===================================================================== *)

(** Whether a text stream can write a text: its encoding has every ASCII
    character, and of the others those in [chars]. *)
Definition has (chars : charset) (ch : N) : bool :=
  existsb (λ r, (r.1 <=? ch) && (ch <=? r.2)) chars.

Definition shows (chars : charset) (text : str) : bool :=
  forallb (λ ch, (ch <? 128) || has chars ch) text.

(** [print(line)].  Standard output is a text stream with the strict error
    handler: a line with a character that its encoding does not have
    raises UnicodeEncodeError, and nothing of the line is written.  The
    stream itself is taken to be open and to accept what is written to
    it. *)
Definition print (line : str) : M unit := λ w,
  if shows (stdout_chars w) line
  then (Ok tt, set_stdout (stdout w ++ [line]) w)
  else (Raise UnicodeEncodeError, w).

(** [b.decode('utf-8')]. *)
Definition bytes_decode (b : bytes) : M str := λ w,
  match Utf8.decode b with
  | Some s => (Ok s, w)
  | None => (Raise UnicodeDecodeError, w)
  end.

(** [s.encode('utf-8')]. *)
Definition str_encode (s : str) : M bytes := λ w,
  match Utf8.encode s with
  | Some b => (Ok b, w)
  | None => (Raise UnicodeEncodeError, w)
  end.

(** The socket behind a descriptor, if the descriptor is open. *)
Definition open_sock (c : fd) (w : world) : option sock :=
  match socks w !! c with
  | Some s => if closed s then None else Some s
  | None => None
  end.

(** [socket.socket(socket.AF_INET, socket.SOCK_STREAM)]: the next free
    descriptor, or OSError when there is none. *)
Definition socket_socket : M fd := λ w,
  match fresh_fds w with
  | c :: rest => (Ok c, set_fresh_fds rest w)
  | [] => (Raise OSError, w)
  end.

(** [s.bind((host, port))]. *)
Definition sock_bind (c : fd) (host : str) (port : N) : M unit := λ w,
  if 65535 <? port then (Raise OverflowError, w) else
  match open_sock c w with
  | None => (Raise OSError, w)
  | Some s =>
    match bind_err s with
    | Some e => (Raise e, w)
    | None => (Ok tt, w)
    end
  end.

(** [s.listen()]. *)
Definition sock_listen (c : fd) : M unit := λ w,
  match open_sock c w with
  | None => (Raise OSError, w)
  | Some s =>
    match listen_err s with
    | Some e => (Raise e, w)
    | None => (Ok tt, set_sock c (set_listening true s) w)
    end
  end.

(** [s.accept()]: blocks until a connection arrives. *)
Definition sock_accept (c : fd) : M (fd * addr) := λ w,
  match open_sock c w with
  | None => (Raise OSError, w)
  | Some s =>
    if listening s then
      match backlog s with
      | [] => (Block, w)
      | Accepted c' peer :: rest =>
        (Ok (c', peer), set_sock c (set_backlog rest s) w)
      | AcceptErr e :: rest => (Raise e, set_sock c (set_backlog rest s) w)
      end
    else (Raise OSError, w)
  end.

(** [s.connect((host, port))]. *)
Definition sock_connect (c : fd) (host : str) (port : N) : M unit := λ w,
  if 65535 <? port then (Raise OverflowError, w) else
  match open_sock c w with
  | None => (Raise OSError, w)
  | Some s =>
    match connect_err s with
    | Some e => (Raise e, w)
    | None => (Ok tt, w)
    end
  end.

(** [s.recv(n)]: blocks until something arrives, then returns at most [n]
    bytes of it and leaves the rest for the next call; returns [b''] once
    the peer has shut down. *)
Definition recv (c : fd) (n : nat) : M bytes := λ w,
  match open_sock c w with
  | None => (Raise OSError, w)
  | Some s =>
    match rx s with
    | [] => (Block, w)
    | RxData bs :: rest =>
      if decide (length bs ≤ n)%nat
      then (Ok bs, set_sock c (set_rx rest s) w)
      else (Ok (take n bs), set_sock c (set_rx (RxData (drop n bs) :: rest) s) w)
    | RxEof :: _ => (Ok [], w)
    | RxErr e :: rest => (Raise e, set_sock c (set_rx rest s) w)
    end
  end.

(** [s.sendall(data)]: one entry of [sent] per call, with the bytes that
    went out. *)
Definition sendall (c : fd) (data : bytes) : M unit := λ w,
  match open_sock c w with
  | None => (Raise OSError, w)
  | Some s =>
    match tx s with
    | [] => (Ok tt, set_sock c (set_tx_sent [] (sent s ++ [data]) s) w)
    | TxOk :: rest =>
      (Ok tt, set_sock c (set_tx_sent rest (sent s ++ [data]) s) w)
    | TxErr k e :: rest =>
      (Raise e, set_sock c (set_tx_sent rest (sent s ++ [take k data]) s) w)
    end
  end.

(** [s.close()]: releases the descriptor; closing again does nothing.  The
    descriptor is released even when the operating system reports an error,
    which is then raised. *)
Definition close (c : fd) : M unit := λ w,
  match open_sock c w with
  | None => (Ok tt, w)
  | Some s =>
    let w' := set_sock c (set_closed true s) w in
    match close_err s with
    | Some e => (Raise e, w')
    | None => (Ok tt, w')
    end
  end.

(** [threading.Thread(target=handle_clientconnection, args=(c,)).start()]:
    RuntimeError when the operating system allows no further thread. *)
Definition thread_start (c : fd) : M unit := λ w,
  match thread_budget w with
  | O => (Raise RuntimeError, w)
  | S n => (Ok tt, set_threads (threads w ++ [(c, TRunning)]) n w)
  end.

(** Reading and binding a global name of the module. *)
Definition load_global (name : string) : M pyval := λ w,
  match globals w !! name with
  | Some v => (Ok v, w)
  | None => (Raise NameError, w)
  end.

Definition store_global (name : string) (v : pyval) : M unit := λ w,
  (Ok tt, set_globals (<[name := v]> (globals w)) w).

(** Binding a local name of [start_server]. *)
Definition store_local (name : string) (v : pyval) : M unit := λ w,
  (Ok tt, set_locals (<[name := v]> (locals w)) w).

(** The socket an object refers to: a socket object itself, and a thread
    object through its [args]. *)
Definition held (v : pyval) : option fd :=
  match v with
  | PSocket c => Some c
  | PThread c => Some c
  | _ => None
  end.

(** A socket object that nothing refers to any more is closed by the
    interpreter, silently.  A socket that was handed to a thread that
    started is left to the thread: while the handler runs, the thread
    refers to it, and before the handler ends it has closed it. *)
Definition finalize (c : fd) (w : world) : world :=
  if bool_decide (c ∈ (threads w).*1) then w
  else
    match socks w !! c with
    | Some s => set_sock c (set_closed true s) w
    | None => w
    end.

Definition drop_local (name : string) (w : world) : world :=
  match locals w !! name ≫= held with
  | Some c => finalize c w
  | None => w
  end.

(** A call of [start_server] begins with its parameters as its only local
    names, and when it ends its local names go away: the sockets that only
    they refer to are closed. *)
Definition frame_of (host : str) (port : N) : gmap string pyval :=
  {[ "host" := PStr host; "port" := PInt (Z.of_N port) ]}.

Definition enter_frame (host : str) (port : N) : M unit := λ w,
  (Ok tt, set_locals (frame_of host port) w).

Definition leave_frame (w : world) : world :=
  set_locals ∅
    (drop_local "client_handler"
       (drop_local "client_socket" (drop_local "server_socket" w))).

(** Whether the interpreter closes socket [c] when the local name [name]
    goes away, and whether it does when the call ends: the facts about
    [leave_frame] are stated with these. *)
Definition closes (w : world) (name : string) (c : fd) : bool :=
  bool_decide (locals w !! name ≫= held = Some c)
  && bool_decide (c ∉ (threads w).*1).

Definition close_if (b : bool) (s : sock) : sock :=
  if b then set_closed true s else s.

(** Whether socket [c] is closed when the call ends. *)
Definition released (w : world) (c : fd) : bool :=
  closes w "server_socket" c || closes w "client_socket" c
  || closes w "client_handler" c.

Definition returning {A} (body : M A) : M A := λ w,
  match body w with
  | (Block, w') => (Block, w')
  | (r, w') => (r, leave_frame w')
  end.

(** [format(port)] for an integer and [format(client_address)] for the pair
    that [accept] returns, as the f-strings of the source render them. *)
Definition format_N (n : N) : str := lit (pretty n).

Definition format_addr (a : addr) : str :=
  let '(a1, a2, a3, a4) := ip a in
  lit "('" ++ format_N a1 ++ lit "." ++ format_N a2 ++ lit "."
           ++ format_N a3 ++ lit "." ++ format_N a4
           ++ lit "', " ++ format_N (peer_port a) ++ lit ")".

(* ===================================================================== *)
(** * handle_clientconnection *)
(* ===================================================================== *)

(** How one turn of a [while True] loop ends. *)
Inductive ctl :=
| Continue
| Break.

(** The statements inside the [try:] of the loop. *)
Definition session_try (client_socket : fd) : M ctl :=
  raw <- recv client_socket 1024 ;;
  data <- bytes_decode raw ;;
  if bool_decide (data = []) then ret Break
  else
    print (lit "Received from client: " ++ data) ;;
    reply <- str_encode (lit "Server received: " ++ data) ;;
    sendall client_socket reply ;;
    ret Continue.

(** One turn of the loop: [try: ... except: break]. *)
Definition session_iter (client_socket : fd) : M ctl :=
  try_except (session_try client_socket) (λ _, ret Break).

(** The loop ends because every turn that continues has consumed input:
    this is the amount of input still to come on a socket. *)
Definition rx_weight (ev : rx_event) : nat :=
  match ev with
  | RxData bs => S (length bs)
  | RxEof => 1
  | RxErr _ => 1
  end.

Definition pending (c : fd) (w : world) : nat :=
  match socks w !! c with
  | Some s => sum_list (rx_weight <$> rx s)
  | None => 0
  end.

(** [while True: try: ... except: break]. *)
Equations? session_loop (client_socket : fd) (w : world) : result unit * world
  by wf (pending client_socket w) lt :=
session_loop c w with inspect (session_iter c w) => {
  | exist _ (Ok Continue, w') _ => session_loop c w'
  | exist _ (Ok Break, w') _ => (Ok tt, w')
  | exist _ (Raise e, w') _ => (Raise e, w')
  | exist _ (Block, w') _ => (Block, w') }.
Proof.
  revert e. unfold session_iter, try_except, session_try, bind, recv,
    bytes_decode, print, str_encode, sendall, ret, open_sock, pending.
  destruct (socks w !! c) as [s|]; [|done].
  destruct (closed s) eqn:Hcl; [done|].
  destruct (rx s) as [|[bs| |err] rest]; [done| |done|done].
  assert (bs = [] ∨ bs ≠ []) as [->|Hbs] by (destruct bs; auto); [done|].
  assert (take 1024 bs ≠ []) by (destruct bs; [done|discriminate]).
  pose proof (length_drop bs 1024).
  case_decide; (destruct (Utf8.decode _) as [data|]; [|done]);
    (case_bool_decide; [done|]);
    cbn [stdout_chars set_sock]; (destruct (shows _ _); [|done]);
    (destruct (Utf8.encode _); [|done]); cbn;
    rewrite lookup_insert_eq; cbn; rewrite Hcl;
    cbn; destruct (tx s) as [|[|] ?]; cbn; try done; intros [= <-]; cbn;
    rewrite lookup_insert_eq; cbn; lia.
Qed.

(** [def handle_clientconnection(client_socket)]: the loop, then
    [client_socket.close()]; the function returns None. *)
Definition handle_clientconnection (client_socket : fd) : M pyval :=
  session_loop client_socket ;;
  close client_socket ;;
  ret PNone.

(* ===================================================================== *)
(** * start_server *)
(* ===================================================================== *)

(** The body of the accept loop. *)
Definition accept_iter (server_socket : fd) : M unit :=
  conn <- sock_accept server_socket ;;
  store_local "client_socket" (PSocket conn.1) ;;
  store_local "client_address" (PAddr conn.2) ;;
  print (lit "Connection was accepted from " ++ format_addr conn.2) ;;
  store_local "client_handler" (PThread conn.1) ;;
  thread_start conn.1.

(** The connections still queued on a listening socket. *)
Definition queued (c : fd) (w : world) : nat :=
  match socks w !! c with
  | Some s => length (backlog s)
  | None => 0
  end.

(** [while True:] around the accept: only an exception leaves it. *)
Equations? accept_loop (server_socket : fd) (w : world) : result unit * world
  by wf (queued server_socket w) lt :=
accept_loop ls w with inspect (accept_iter ls w) => {
  | exist _ (Ok _, w') _ => accept_loop ls w'
  | exist _ (Raise e, w') _ => (Raise e, w')
  | exist _ (Block, w') _ => (Block, w') }.
Proof.
  revert e. unfold accept_iter, bind, sock_accept, print, thread_start,
    open_sock, queued.
  destruct (socks w !! ls) as [s|]; [|done].
  destruct (closed s); [done|].
  destruct (listening s); [|done].
  destruct (backlog s) as [|[c' peer|err] rest]; [done| |done].
  unfold store_local. cbn. destruct (shows _ _); [|done].
  cbn. destruct (thread_budget w); [done|].
  intros [= ?]; subst w'. cbn. rewrite lookup_insert_eq. cbn. lia.
Qed.

(** The statements inside the [try:] of [start_server]. *)
Definition start_server_try (host : str) (port : N) : M unit :=
  server_socket <- socket_socket ;;
  store_local "server_socket" (PSocket server_socket) ;;
  sock_bind server_socket host port ;;
  sock_listen server_socket ;;
  print (lit "Server listening on " ++ host ++ lit ":" ++ format_N port) ;;
  accept_loop server_socket.

(** The [except:] clause of [start_server]. *)
Definition start_server_except : M unit :=
  print (lit "Error encountered in start_server").

(** [def start_server(host, port)]: the function returns None. *)
Definition start_server (host : str) (port : N) : M pyval :=
  enter_frame host port ;;
  returning
    (try_except (start_server_try host port) (λ _, start_server_except) ;;
     ret PNone).

(* ===================================================================== *)
(** * start_client and the top level of the module *)
(* ===================================================================== *)

(** [def start_client(host, port, message)]: the body is the docstring
    alone. *)
Definition start_client (host port message : pyval) : M pyval :=
  ret PNone.

(** [client_socket.connect((host, port))] on the values the names hold. *)
Definition connect_value (c : fd) (host port : pyval) : M unit :=
  match host, port with
  | PStr h, PInt p =>
    if (p <? 0)%Z then raise OverflowError else sock_connect c h (Z.to_N p)
  | _, _ => raise TypeError
  end.

(** [message.encode('utf-8')] on the value the name holds: only a [str] has
    the method. *)
Definition encode_value (message : pyval) : M bytes :=
  match message with
  | PStr s => str_encode s
  | _ => raise AttributeError
  end.

(** The [try:] block that follows [start_client] at column 0.  It reads the
    names [host], [port] and [message] from the module's globals. *)
Definition client_try : M unit :=
  client_socket <- socket_socket ;;
  store_global "client_socket" (PSocket client_socket) ;;
  host <- load_global "host" ;;
  port <- load_global "port" ;;
  connect_value client_socket host port ;;
  message <- load_global "message" ;;
  payload <- encode_value message ;;
  sendall client_socket payload ;;
  raw <- recv client_socket 1024 ;;
  data <- bytes_decode raw ;;
  store_global "data" (PStr data) ;;
  print (lit "Received from server: " ++ data) ;;
  close client_socket.

(** What importing or running the module executes: the two imports, the
    module's string, the three [def]s, and the client block. *)
Definition module_toplevel : M unit :=
  store_global "socket" (PModule "socket") ;;
  store_global "threading" (PModule "threading") ;;
  store_global "handle_clientconnection" (PFunction "handle_clientconnection") ;;
  store_global "start_server" (PFunction "start_server") ;;
  store_global "start_client" (PFunction "start_client") ;;
  try_except client_try (λ _, print (lit "Error encountered in start_client")).

(* ===================================================================== *)
(** * Threads *)
(* ===================================================================== *)

(** The handler threads run concurrently with each other and with the
    accept loop.  One step of a thread is one turn of its loop; a schedule
    lists which thread moves next. *)
Inductive task :=
| Listener
| Handler (i : nat).

(** The process while [start_server] runs: the world, and the listening
    socket as long as the main thread is inside the accept loop. *)
Record system := System {
  sys_world : world;
  sys_listener : option fd }.

Definition set_status (i : nat) (st : tstatus) (w : world) : world :=
  set_threads (alter (λ p, (p.1, st)) i (threads w)) (thread_budget w) w.

(** Thread [i] runs one turn of [handle_clientconnection]'s loop and, when
    the loop is left, the close that follows it. *)
Definition handler_step (i : nat) (w : world) : world :=
  match threads w !! i with
  | Some (c, TRunning) =>
    match session_iter c w with
    | (Ok Continue, w') => w'
    | (Ok Break, w') =>
      match close c w' with
      | (Ok _, w'') => set_status i TFinished w''
      | (Raise e, w'') => set_status i (TCrashed e) w''
      | (Block, w'') => w''
      end
    | (Raise e, w') => set_status i (TCrashed e) w'
    | (Block, w') => w'
    end
  | _ => w
  end.

(** The main thread runs one turn of the accept loop; an exception takes it
    to the [except:] clause of [start_server] and out of the function. *)
Definition listener_step (s : system) : system :=
  match sys_listener s with
  | Some ls =>
    match accept_iter ls (sys_world s) with
    | (Ok _, w') => System w' (Some ls)
    | (Raise e, w') =>
      System (returning (start_server_except ;; ret PNone) w').2 None
    | (Block, w') => System w' (Some ls)
    end
  | None => s
  end.

Definition step (s : system) (t : task) : system :=
  match t with
  | Listener => listener_step s
  | Handler i => System (handler_step i (sys_world s)) (sys_listener s)
  end.

Definition run (sched : list task) (s : system) : system :=
  foldl step s sched.

(* ===================================================================== *)
(** * Observations *)
(* ===================================================================== *)

(** Equality of exceptions, thread states and tasks is decidable. *)
Global Instance exn_eq_dec : EqDecision exn.
Proof. solve_decision. Defined.

Global Instance tstatus_eq_dec : EqDecision tstatus.
Proof. solve_decision. Defined.

Global Instance task_eq_dec : EqDecision task.
Proof. solve_decision. Defined.

(** The writes made so far on a socket, one entry per [sendall]. *)
Definition sent_on (c : fd) (w : world) : list bytes :=
  match socks w !! c with
  | Some s => sent s
  | None => []
  end.

(** The bytes of the literal that begins every reply. *)
Definition echo_prefix : bytes := blit "Server received: ".
Arguments echo_prefix : simpl never.

(** The sessions that are live: the handler threads still running. *)
Definition live_sessions (w : world) : nat :=
  length (filter (λ p, p.2 = TRunning) (threads w)).

(** Everything in the world except socket [c] and the lines printed. *)
Definition same_elsewhere (c : fd) (w w' : world) : Prop :=
  (∀ c', c' ≠ c → socks w' !! c' = socks w !! c')
  ∧ fresh_fds w' = fresh_fds w
  ∧ stdout_chars w' = stdout_chars w
  ∧ globals w' = globals w
  ∧ locals w' = locals w
  ∧ threads w' = threads w
  ∧ thread_budget w' = thread_budget w.

(** A write made by the session loop: the reply to one chunk, or the part of
    it that went out before the send failed. *)
Definition echo_write (m : bytes) : Prop :=
  ∃ (chunk : bytes) (k : nat),
    m = take k (echo_prefix ++ chunk)
    ∧ chunk ≠ [] ∧ (length chunk ≤ 1024)%nat ∧ is_Some (Utf8.decode chunk).

(** A chunk that is a text, and one that standard output can show. *)
Definition shown (chars : charset) (chunk : bytes) : Prop :=
  ∃ data : str, Utf8.decode chunk = Some data ∧ shows chars data = true.

(** A line printed by the session loop. *)
Definition received_line (l : str) : Prop :=
  ∃ data : str, l = lit "Received from client: " ++ data.

(** A peer that only ever sends data: it neither shuts down nor fails. *)
Definition only_data (evs : list rx_event) : Prop :=
  Forall (λ ev, ∃ bs, ev = RxData bs) evs.

(** A message cut into the pieces that successive [recv(1024)] calls return
    when it has arrived whole. *)
Equations? chunks (bs : bytes) : list bytes by wf (length bs) lt :=
chunks [] := [];
chunks (b :: bs) := take 1024 (b :: bs) :: chunks (drop 1024 (b :: bs)).
Proof. rewrite length_drop. simpl. lia. Qed.

(** The line printed for an accepted connection, and the thread started for
    it. *)
Definition accepted_line (p : fd * addr) : str :=
  lit "Connection was accepted from " ++ format_addr p.2.

Definition new_thread (p : fd * addr) : fd * tstatus := (p.1, TRunning).

Definition accepted_event (p : fd * addr) : accept_event := Accepted p.1 p.2.

(** The local names one turn of the accept loop binds for a connection. *)
Definition accepted_locals (p : fd * addr) (l : gmap string pyval)
  : gmap string pyval :=
  <["client_handler" := PThread p.1]>
    (<["client_address" := PAddr p.2]>
       (<["client_socket" := PSocket p.1]> l)).

(** The world after a connection has been taken from the queue, announced
    and bound to the local names. *)
Definition taken (ls : fd) (s : sock) (p : fd * addr)
    (rest : list accept_event) (w : world) : world :=
  set_locals (accepted_locals p (locals w))
    (set_stdout (stdout w ++ [accepted_line p])
       (set_sock ls (set_backlog rest s) w)).

(** A computation that creates no socket. *)
Definition keeps_fds {A} (m : M A) : Prop :=
  ∀ w, fresh_fds (m w).2 = fresh_fds w.

(* ===================================================================== *)
(** * The session, seen from its socket *)
(* ===================================================================== *)

(** The fields of a socket that no call of the session loop changes. *)
Definition same_script (s s' : sock) : Prop :=
  bind_err s' = bind_err s ∧ listen_err s' = listen_err s
  ∧ connect_err s' = connect_err s ∧ close_err s' = close_err s
  ∧ backlog s' = backlog s ∧ listening s' = listening s
  ∧ closed s' = closed s.

(** One turn of the session loop as a function of the socket and of the
    characters standard output has: how the turn ends, the socket after
    it, and the lines it prints.  Lemma [session_iter_turn] proves that
    [session_iter] does exactly this to its socket and touches nothing
    else but standard output. *)
Definition sock_turn (chars : charset) (s : sock)
  : result ctl * sock * list str :=
  match rx s with
  | [] => (Block, s, [])
  | RxEof :: _ => (Ok Break, s, [])
  | RxErr _ :: rest => (Ok Break, set_rx rest s, [])
  | RxData bs :: rest =>
    let chunk := take 1024 bs in
    let s1 :=
      set_rx (if decide (length bs ≤ 1024)%nat then rest
              else RxData (drop 1024 bs) :: rest) s in
    match Utf8.decode chunk with
    | None => (Ok Break, s1, [])
    | Some data =>
      if bool_decide (data = []) then (Ok Break, s1, [])
      else
        let line := lit "Received from client: " ++ data in
        let reply := echo_prefix ++ chunk in
        if shows chars line then
          match tx s with
          | [] => (Ok Continue, set_tx_sent [] (sent s ++ [reply]) s1, [line])
          | TxOk :: t =>
            (Ok Continue, set_tx_sent t (sent s ++ [reply]) s1, [line])
          | TxErr k _ :: t =>
            (Ok Break, set_tx_sent t (sent s ++ [take k reply]) s1, [line])
          end
        else (Ok Break, s1, [])
    end
  end.

(** The whole loop as a relation on the socket alone: [sock_run chars s r
    s' out] when the turns from [s] end the loop with [r], leave the socket
    as [s'] and print [out].  Lemma [session_loop_run] ties it to
    [session_loop]. *)
Inductive sock_run (chars : charset)
  : sock → result unit → sock → list str → Prop :=
| run_break s s' out :
    sock_turn chars s = (Ok Break, s', out) → sock_run chars s (Ok tt) s' out
| run_block s s' out :
    sock_turn chars s = (Block, s', out) → sock_run chars s Block s' out
| run_continue s s1 out1 r s2 out2 :
    sock_turn chars s = (Ok Continue, s1, out1) →
    sock_run chars s1 r s2 out2 →
    sock_run chars s r s2 (out1 ++ out2).

(* ===================================================================== *)
(** * Threads, seen one at a time *)
(* ===================================================================== *)

(** What one step of a handler thread does, as a function of what the
    thread sees: its socket, if that is open, and its own status.  The
    result is the new socket, if it changes, the new status and the lines
    printed.  Lemma [handler_step_touch] proves that [handler_step] does
    exactly this. *)
Definition thread_turn (chars : charset) (o : option sock) (st : tstatus)
  : option sock * tstatus * list str :=
  match st with
  | TRunning =>
    match o with
    | None => (None, TFinished, [])
    | Some s =>
      match sock_turn chars s with
      | (Ok Continue, s', out) => (Some s', TRunning, out)
      | (Ok Break, s', out) =>
        (Some (set_closed true s'),
         match close_err s' with Some e => TCrashed e | None => TFinished end,
         out)
      | (Raise e, s', out) => (Some s', TCrashed e, out)
      | (Block, s', out) => (Some s', TRunning, out)
      end
    end
  | _ => (None, st, [])
  end.

(** Applying such an update for thread [i] on socket [c]. *)
Definition touch (i : nat) (c : fd) (u : option sock * tstatus * list str)
    (w : world) : world :=
  set_status i u.1.2
    (set_stdout (stdout w ++ u.2)
       (match u.1.1 with Some s' => set_sock c s' w | None => w end)).

(** The status in which a thread is left by the way its handler ended. *)
Definition status_of (r : result pyval) : tstatus :=
  match r with
  | Ok _ => TFinished
  | Raise e => TCrashed e
  | Block => TRunning
  end.

(** Two worlds that differ at most in socket [c], in the status of the
    threads that serve socket [c], and in what has been printed. *)
Definition agree (c : fd) (w1 w2 : world) : Prop :=
  (∀ c', c' ≠ c → socks w1 !! c' = socks w2 !! c')
  ∧ Forall2 (λ p1 p2 : fd * tstatus, p1.1 = p2.1 ∧ (p1.1 ≠ c → p1.2 = p2.2))
      (threads w1) (threads w2)
  ∧ thread_budget w1 = thread_budget w2
  ∧ fresh_fds w1 = fresh_fds w2
  ∧ stdout_chars w1 = stdout_chars w2
  ∧ globals w1 = globals w2
  ∧ locals w1 = locals w2.

(** The same for the process: the main thread is at the same point. *)
Definition unaffected (c : fd) (s1 s2 : system) : Prop :=
  sys_listener s1 = sys_listener s2 ∧ agree c (sys_world s1) (sys_world s2).

(* ===================================================================== *)
(** * The vocabulary of the specification *)
(* ===================================================================== *)

(** The frame of section 6 of the specification, in its words: a four-byte
    big-endian unsigned length, then that many payload bytes.  The source
    has no function for it; the theorems use these definitions to say what
    the bytes on the wire are and are not. *)
Definition be32 (n : N) : bytes :=
  [Utf8.byte_of_N (n / 16777216 mod 256);
   Utf8.byte_of_N (n / 65536 mod 256);
   Utf8.byte_of_N (n / 256 mod 256);
   Utf8.byte_of_N (n mod 256)].

Definition spec_frame (payload : bytes) : bytes :=
  be32 (N.of_nat (length payload)) ++ payload.

(** Whether a byte string is a frame: its first four bytes, read as a
    big-endian number, count the bytes that follow. *)
Definition framed (m : bytes) : bool :=
  match m with
  | b0 :: b1 :: b2 :: b3 :: payload =>
    ((Byte.to_N b0 * 256 + Byte.to_N b1) * 256 + Byte.to_N b2) * 256
      + Byte.to_N b3 =? N.of_nat (length payload)
  | _ => false
  end.

(** The maximum frame size the specification recommends, 1 MiB.  The source
    configures none. *)
Definition spec_max_frame_size : N := 1048576.

(* ===================================================================== *)
(** * Sample worlds *)
(* ===================================================================== *)

(** A socket with an empty script, and one over which a peer sends the given
    events. *)
Definition blank_sock : sock :=
  Sock None None None None [] [] [] false [] false.

Definition peer_sends (evs : list rx_event) : sock := set_rx evs blank_sock.

(** A listening socket to be, with the given connections queued. *)
Definition queue_of (evs : list accept_event) : sock :=
  set_backlog evs blank_sock.

(** Encodings of standard output: UTF-8 has every character that a text
    decoded from UTF-8 can hold; Latin-1 has the first 256; ASCII has no
    character beyond its own. *)
Definition utf8_chars : charset := [(0x80, 0xD7FF); (0xE000, 0x10FFFF)].

Definition latin1_chars : charset := [(0x80, 0xFF)].

Definition ascii_chars : charset := [].

(** A world with the given sockets, of which [free] are still to be handed
    out by [socket.socket()], and room for [n] threads; standard output is
    in UTF-8. *)
Definition world_of (m : gmap fd sock) (free : list fd) (n : nat) : world :=
  World m free [] utf8_chars ∅ ∅ [] n.

(* ===================================================================== *)
(** * Further notions *)
(* ===================================================================== *)

(** The bytes a peer sends before it shuts down or fails: the data of the
    leading data events of a script, in order. *)
Fixpoint data_stream (evs : list rx_event) : bytes :=
  match evs with
  | RxData bs :: rest => bs ++ data_stream rest
  | _ => []
  end.

(** What successive calls of [recv(1024)] return while data arrives: each
    piece of data, in pieces of at most 1024 bytes. *)
Fixpoint reads_of (evs : list rx_event) : list bytes :=
  match evs with
  | RxData bs :: rest => chunks bs ++ reads_of rest
  | _ => []
  end.

(** The line the session loop prints for a decoded chunk. *)
Definition log_line (text : str) : str := lit "Received from client: " ++ text.

(** The writes that answer a list of chunks: a complete reply to each, or
    complete replies to all but the last and the beginning of the reply to
    the last, when its send failed. *)
Definition replies_to (chunks : list bytes) (news : list bytes) : Prop :=
  news = (λ ch, echo_prefix ++ ch) <$> chunks
  ∨ ∃ chs ch k,
      chunks = chs ++ [ch]
      ∧ news = ((λ ch, echo_prefix ++ ch) <$> chs) ++ [take k (echo_prefix ++ ch)].

(** The same, on a socket whose sends fare as the script [t] says: the one
    reply that is cut short is the one whose send failed, and it is cut
    where the send failed. *)
Definition raw_replies (t : list tx_event) (reads news : list bytes) : Prop :=
  news = (λ ch, echo_prefix ++ ch) <$> reads
  ∨ ∃ chs ch k e,
      reads = chs ++ [ch]
      ∧ t !! length chs = Some (TxErr k e)
      ∧ news = ((λ ch, echo_prefix ++ ch) <$> chs)
               ++ [take k (echo_prefix ++ ch)].

(** The traffic of a socket: what is still to come, what has been sent, and
    whether it is closed. *)
Definition same_traffic (s s' : sock) : Prop :=
  rx s' = rx s ∧ tx s' = tx s ∧ sent s' = sent s ∧ closed s' = closed s
  ∧ close_err s' = close_err s ∧ connect_err s' = connect_err s.

(** Every socket of [w] is still there in [w'], with the same traffic. *)
Definition traffic_untouched (w w' : world) : Prop :=
  ∀ c s, socks w !! c = Some s →
         ∃ s', socks w' !! c = Some s' ∧ same_traffic s s'.

(** A step that prints nothing and leaves socket [c] open, however it
    ends. *)
Definition quiet (c : fd) {A} (m : M A) : Prop :=
  ∀ w s r w', open_sock c w = Some s → m w = (r, w') →
    stdout w' = stdout w
    ∧ ∃ s', open_sock c w' = Some s' ∧ close_err s' = close_err s.

(** The line the client block prints for the answer. *)
Definition answer_line (data : str) : str :=
  lit "Received from server: " ++ data.

(** The ways the statements in the [try:] of the client block can end,
    where [out] is what had been printed before: with the answer printed
    and the socket closed, whether the close raised or not; or, when an
    earlier statement raised or the block waits, with nothing printed and
    the socket open. *)
Definition client_outcome (c : fd) (out : list str) (r : result unit)
    (w' : world) : Prop :=
  let answered :=
    (∃ s', socks w' !! c = Some s' ∧ closed s' = true)
    ∧ ∃ data, stdout w' = out ++ [answer_line data] in
  let untouched := stdout w' = out ∧ is_Some (open_sock c w') in
  match r with
  | Ok _ => answered
  | Raise _ => answered ∨ untouched
  | Block => untouched
  end.

(** A computation that ends in one of these ways. *)
Definition ends_as_client (c : fd) (out : list str) (m : M unit) : Prop :=
  ∀ w s r w', open_sock c w = Some s → stdout w = out →
              m w = (r, w') → client_outcome c out r w'.

(** The steps of thread [i] in a schedule. *)
Definition steps_of (i : nat) (sched : list task) : list task :=
  filter (λ t, t = Handler i) sched.

(** Socket [c] belongs to thread [i] alone: no other thread serves it, it is
    not the listening socket, and no connection still queued on the
    listening socket will be handed out under its descriptor. *)
Definition owns (i : nat) (c : fd) (s : system) : Prop :=
  (∀ j c' st, threads (sys_world s) !! j = Some (c', st) → j ≠ i → c' ≠ c)
  ∧ (∀ ls, sys_listener s = Some ls →
       ls ≠ c
       ∧ ∀ sl peer, socks (sys_world s) !! ls = Some sl →
                    Accepted c peer ∉ backlog sl).

(** The set-up of [start_server] succeeds: [socket.socket()] hands out [ls],
    whose socket [s] is open, the port is in range, neither the bind nor
    the listen fails, and standard output can show the host in the line
    that announces the server. *)
Definition setup_ok (host : str) (port : N) (w : world) (ls : fd) (s : sock)
  : Prop :=
  head (fresh_fds w) = Some ls
  ∧ open_sock ls w = Some s
  ∧ port <= 65535
  ∧ bind_err s = None
  ∧ listen_err s = None
  ∧ shows (stdout_chars w) host = true.

(** A computation that neither reads from nor writes to a socket, and
    closes none. *)
Definition keeps_traffic {A} (m : M A) : Prop :=
  ∀ w, traffic_untouched w (m w).2.

(** The world in which [start_server] enters its accept loop. *)
Definition listening_world (host : str) (port : N) (ls : fd) (s : sock)
    (w : world) : world :=
  set_stdout
    (stdout w ++ [lit "Server listening on " ++ host ++ lit ":"
                  ++ format_N port])
    (set_sock ls (set_listening true s)
       (set_locals (<["server_socket" := PSocket ls]> (frame_of host port))
          (set_fresh_fds (tail (fresh_fds w)) w))).
(* ===================================================================== *)
(** * Facts about the codec *)
(* ===================================================================== *)

Module Utf8Facts.
Import Utf8.

Ltac arith := zify; Z.to_euclidean_division_equations; lia.

Lemma to_N_lt (b : byte) : Byte.to_N b < 256.
Proof. pose proof (Byte.to_N_bounded b). lia. Qed.

Lemma byte_of_to_N (b : byte) : byte_of_N (Byte.to_N b) = b.
Proof. unfold byte_of_N. by rewrite Byte.of_to_N. Qed.

Lemma to_of_byte (n : N) : n < 256 → Byte.to_N (byte_of_N n) = n.
Proof.
  intros Hn. unfold byte_of_N.
  destruct (Byte.of_N n) as [b|] eqn:E; simpl.
  - by apply Byte.to_of_N.
  - apply Byte.of_N_None_iff in E. lia.
Qed.

Lemma between_spec lo hi n : between lo hi n = true ↔ lo <= n ∧ n <= hi.
Proof. unfold between. rewrite andb_true_iff, !N.leb_le. done. Qed.

Lemma between_false lo hi n : between lo hi n = false ↔ n < lo ∨ hi < n.
Proof.
  unfold between. rewrite andb_false_iff, !N.leb_gt. done.
Qed.


Lemma ltb_t a b : a < b → (a <? b) = true.
Proof. apply N.ltb_lt. Qed.
Lemma ltb_f a b : b <= a → (a <? b) = false.
Proof. apply N.ltb_ge. Qed.

Lemma encode_cp_1 (b0 : byte) :
  Byte.to_N b0 < 0x80 → encode_cp (Byte.to_N b0) = Some [b0].
Proof.
  intros H. unfold encode_cp. rewrite ltb_t by done. by rewrite byte_of_to_N.
Qed.

Lemma encode_cp_2 (b0 b1 : byte) :
  0xC2 <= Byte.to_N b0 → Byte.to_N b0 < 0xE0 → is_cont (Byte.to_N b1) = true →
  encode_cp ((Byte.to_N b0 - 0xC0) * 64 + (Byte.to_N b1 - 0x80)) = Some [b0; b1].
Proof.
  intros H0 H0' H1%between_spec. unfold encode_cp.
  set (n0 := Byte.to_N b0) in *. set (n1 := Byte.to_N b1) in *.
  rewrite ltb_f, ltb_t by arith.
  replace (0xC0 + _ / 64) with n0 by arith.
  replace (0x80 + _ mod 64) with n1 by arith.
  unfold n0, n1. by rewrite !byte_of_to_N.
Qed.

Lemma encode_cp_3 (b0 b1 b2 : byte) :
  0xE0 <= Byte.to_N b0 → Byte.to_N b0 < 0xF0 →
  second3 (Byte.to_N b0) (Byte.to_N b1) = true →
  is_cont (Byte.to_N b2) = true →
  encode_cp ((Byte.to_N b0 - 0xE0) * 4096 + (Byte.to_N b1 - 0x80) * 64
             + (Byte.to_N b2 - 0x80)) = Some [b0; b1; b2].
Proof.
  intros H0 H0' H1 H2%between_spec. unfold encode_cp.
  set (n0 := Byte.to_N b0) in *. set (n1 := Byte.to_N b1) in *.
  set (n2 := Byte.to_N b2) in *.
  assert (0x80 <= n1 ∧ n1 <= 0xBF ∧ (n0 = 0xE0 → 0xA0 <= n1)
          ∧ (n0 = 0xED → n1 <= 0x9F)) as (?&?&?&?).
  { unfold second3 in H1.
    destruct (N.eqb_spec n0 0xE0); [apply between_spec in H1; lia|].
    destruct (N.eqb_spec n0 0xED); apply between_spec in H1; lia. }
  rewrite !ltb_f, ltb_t by arith.
  rewrite (proj2 (between_false _ _ _)) by arith.
  replace (0xE0 + _ / 4096) with n0 by arith.
  replace (0x80 + (_ / 64) mod 64) with n1 by arith.
  replace (0x80 + _ mod 64) with n2 by arith.
  unfold n0, n1, n2. by rewrite !byte_of_to_N.
Qed.

Lemma encode_cp_4 (b0 b1 b2 b3 : byte) :
  0xF0 <= Byte.to_N b0 → Byte.to_N b0 < 0xF5 →
  second4 (Byte.to_N b0) (Byte.to_N b1) = true →
  is_cont (Byte.to_N b2) = true → is_cont (Byte.to_N b3) = true →
  encode_cp ((Byte.to_N b0 - 0xF0) * 262144 + (Byte.to_N b1 - 0x80) * 4096
             + (Byte.to_N b2 - 0x80) * 64 + (Byte.to_N b3 - 0x80))
  = Some [b0; b1; b2; b3].
Proof.
  intros H0 H0' H1 H2%between_spec H3%between_spec. unfold encode_cp.
  set (n0 := Byte.to_N b0) in *. set (n1 := Byte.to_N b1) in *.
  set (n2 := Byte.to_N b2) in *. set (n3 := Byte.to_N b3) in *.
  assert (0x80 <= n1 ∧ n1 <= 0xBF ∧ (n0 = 0xF0 → 0x90 <= n1)
          ∧ (n0 = 0xF4 → n1 <= 0x8F)) as (?&?&?&?).
  { unfold second4 in H1.
    destruct (N.eqb_spec n0 0xF0); [apply between_spec in H1; lia|].
    destruct (N.eqb_spec n0 0xF4); apply between_spec in H1; lia. }
  rewrite !ltb_f, ltb_t by arith.
  replace (0xF0 + _ / 262144) with n0 by arith.
  replace (0x80 + (_ / 4096) mod 64) with n1 by arith.
  replace (0x80 + (_ / 64) mod 64) with n2 by arith.
  replace (0x80 + _ mod 64) with n3 by arith.
  unfold n0, n1, n2, n3. by rewrite !byte_of_to_N.
Qed.

Lemma decode_cons (b0 : byte) (r0 : bytes) :
  decode (b0 :: r0) =
    let n0 := Byte.to_N b0 in
    if n0 <? 0x80 then cons n0 <$> decode r0
    else if n0 <? 0xC2 then None
    else if n0 <? 0xE0 then
      match r0 with
      | b1 :: r1 =>
        let n1 := Byte.to_N b1 in
        if is_cont n1
        then cons ((n0 - 0xC0) * 64 + (n1 - 0x80)) <$> decode r1
        else None
      | _ => None
      end
    else if n0 <? 0xF0 then
      match r0 with
      | b1 :: b2 :: r2 =>
        let n1 := Byte.to_N b1 in
        let n2 := Byte.to_N b2 in
        if second3 n0 n1 && is_cont n2
        then cons ((n0 - 0xE0) * 4096 + (n1 - 0x80) * 64 + (n2 - 0x80))
               <$> decode r2
        else None
      | _ => None
      end
    else if n0 <? 0xF5 then
      match r0 with
      | b1 :: b2 :: b3 :: r3 =>
        let n1 := Byte.to_N b1 in
        let n2 := Byte.to_N b2 in
        let n3 := Byte.to_N b3 in
        if second4 n0 n1 && is_cont n2 && is_cont n3
        then cons ((n0 - 0xF0) * 262144 + (n1 - 0x80) * 4096
                   + (n2 - 0x80) * 64 + (n3 - 0x80))
               <$> decode r3
        else None
      | _ => None
      end
    else None.
Proof. reflexivity. Qed.

Lemma encode_cons (c : N) (s : str) :
  encode (c :: s) =
    match encode_cp c, encode s with
    | Some b, Some bs => Some (b ++ bs)
    | _, _ => None
    end.
Proof. reflexivity. Qed.

Lemma encode_cons_Some c s b bs :
  encode_cp c = Some b → encode s = Some bs → encode (c :: s) = Some (b ++ bs).
Proof. intros H1 H2. by rewrite encode_cons, H1, H2. Qed.

(** Re-encoding decoded text gives back the bytes it was decoded from. *)
Lemma encode_decode_bounded (n : nat) (bs : bytes) (s : str) :
  (length bs ≤ n)%nat → decode bs = Some s → encode s = Some bs.
Proof.
  revert bs s. induction n as [|n IH]; intros bs s Hlen Hdec.
  { destruct bs; [|simpl in Hlen; lia]. by injection Hdec as <-. }
  destruct bs as [|b0 r0]; [by injection Hdec as <-|].
  rewrite decode_cons in Hdec. cbv zeta in Hdec.
  destruct (N.ltb_spec (Byte.to_N b0) 0x80).
  { apply fmap_Some in Hdec as (s' & Hs' & ->).
    apply (encode_cons_Some _ _ [b0]); [by apply encode_cp_1|].
    apply IH; [simpl in Hlen; lia|done]. }
  destruct (N.ltb_spec (Byte.to_N b0) 0xC2); [done|].
  destruct (N.ltb_spec (Byte.to_N b0) 0xE0).
  { destruct r0 as [|b1 r1]; [done|].
    destruct (is_cont (Byte.to_N b1)) eqn:Hb1; [|done].
    apply fmap_Some in Hdec as (s' & Hs' & ->).
    apply (encode_cons_Some _ _ [b0; b1]); [by apply encode_cp_2|].
    apply IH; [simpl in Hlen; lia|done]. }
  destruct (N.ltb_spec (Byte.to_N b0) 0xF0).
  { destruct r0 as [|b1 [|b2 r2]]; [done..|].
    destruct (second3 _ _) eqn:Hb1; [|done].
    destruct (is_cont (Byte.to_N b2)) eqn:Hb2; [|done].
    apply fmap_Some in Hdec as (s' & Hs' & ->).
    apply (encode_cons_Some _ _ [b0; b1; b2]); [by apply encode_cp_3|].
    apply IH; [simpl in Hlen; lia|done]. }
  destruct (N.ltb_spec (Byte.to_N b0) 0xF5); [|done].
  destruct r0 as [|b1 [|b2 [|b3 r3]]]; [done..|].
  destruct (second4 _ _) eqn:Hb1; [|done].
  destruct (is_cont (Byte.to_N b2)) eqn:Hb2; [|done].
  destruct (is_cont (Byte.to_N b3)) eqn:Hb3; [|done].
  apply fmap_Some in Hdec as (s' & Hs' & ->).
  apply (encode_cons_Some _ _ [b0; b1; b2; b3]); [by apply encode_cp_4|].
  apply IH; [simpl in Hlen; lia|done].
Qed.

Lemma encode_decode (bs : bytes) (s : str) :
  decode bs = Some s → encode s = Some bs.
Proof. by apply (encode_decode_bounded (length bs)). Qed.

(** Decoding the UTF-8 form of a code point gives the code point back. *)
Lemma decode_encode_cp (c : N) (b rest : bytes) :
  encode_cp c = Some b → decode (b ++ rest) = cons c <$> decode rest.
Proof.
  unfold encode_cp.
  destruct (N.ltb_spec c 0x80).
  { intros [= <-]. simpl app. rewrite decode_cons. cbv zeta.
    rewrite !to_of_byte by arith. by rewrite ltb_t by arith. }
  destruct (N.ltb_spec c 0x800).
  { intros [= <-]. simpl app. rewrite decode_cons. cbv zeta.
    rewrite !to_of_byte by arith.
    rewrite !ltb_f, ltb_t by arith.
    unfold is_cont. rewrite (proj2 (between_spec _ _ _)) by arith.
    do 2 f_equal. arith. }
  destruct (N.ltb_spec c 0x10000).
  { destruct (between 0xD800 0xDFFF c) eqn:Hsur; [done|].
    apply between_false in Hsur.
    intros [= <-]. simpl app. rewrite decode_cons. cbv zeta.
    rewrite !to_of_byte by arith.
    rewrite !ltb_f, ltb_t by arith.
    assert (second3 (0xE0 + c / 4096) (0x80 + (c / 64) mod 64) = true) as ->.
    { unfold second3.
      destruct (N.eqb_spec (0xE0 + c / 4096) 0xE0);
        [apply between_spec; arith|].
      destruct (N.eqb_spec (0xE0 + c / 4096) 0xED); apply between_spec; arith. }
    unfold is_cont. rewrite (proj2 (between_spec _ _ _)) by arith.
    simpl andb. cbv iota. do 2 f_equal. arith. }
  destruct (N.ltb_spec c 0x110000); [|done].
  intros [= <-]. simpl app. rewrite decode_cons. cbv zeta.
  rewrite !to_of_byte by arith.
  rewrite !ltb_f, ltb_t by arith.
  assert (second4 (0xF0 + c / 262144) (0x80 + (c / 4096) mod 64) = true) as ->.
  { unfold second4.
    destruct (N.eqb_spec (0xF0 + c / 262144) 0xF0);
      [apply between_spec; arith|].
    destruct (N.eqb_spec (0xF0 + c / 262144) 0xF4); apply between_spec; arith. }
  unfold is_cont. rewrite !(proj2 (between_spec _ _ _)) by arith.
  simpl andb. cbv iota. do 2 f_equal. arith.
Qed.

(** Decoding encoded text gives the text back. *)
Lemma decode_encode (s : str) (bs : bytes) :
  encode s = Some bs → decode bs = Some s.
Proof.
  revert bs. induction s as [|c s IH]; intros bs.
  { by intros [= <-]. }
  rewrite encode_cons.
  destruct (encode_cp c) as [b|] eqn:Hc; [|done].
  destruct (encode s) as [bs'|]; [|done].
  intros [= <-]. rewrite (decode_encode_cp c) by done.
  by rewrite (IH bs').
Qed.

Lemma encode_app (s1 s2 : str) (b1 b2 : bytes) :
  encode s1 = Some b1 → encode s2 = Some b2 →
  encode (s1 ++ s2) = Some (b1 ++ b2).
Proof.
  revert b1. induction s1 as [|c s1 IH]; intros b1.
  { by intros [= <-]. }
  rewrite <-app_comm_cons, !encode_cons.
  destruct (encode_cp c) as [b|]; [|done].
  destruct (encode s1) as [bs'|]; [|done].
  intros [= <-] H2. rewrite (IH bs') by done. by rewrite app_assoc.
Qed.
End Utf8Facts.

(* ===================================================================== *)
(** * Facts about the world and the socket calls *)
(* ===================================================================== *)

Opaque lit blit echo_prefix.

Lemma world_eq (w w' : world) :
  socks w = socks w' → fresh_fds w = fresh_fds w' → stdout w = stdout w' →
  stdout_chars w = stdout_chars w' →
  globals w = globals w' → locals w = locals w' → threads w = threads w' →
  thread_budget w = thread_budget w' → w = w'.
Proof. destruct w, w'; simpl; intros; by subst. Qed.

(** ** What standard output can show *)

Lemma shows_app chars (a b : str) :
  shows chars (a ++ b) = shows chars a && shows chars b.
Proof. apply forallb_app. Qed.

Lemma shows_ascii chars (text : str) :
  Forall (λ ch, ch < 128) text → shows chars text = true.
Proof.
  intros H. apply forallb_forall. intros ch Hin.
  rewrite Forall_forall in H. apply list_elem_of_In in Hin.
  by rewrite (proj2 (N.ltb_lt ch 128)) by by apply H.
Qed.

(** A text that UTF-8 standard output cannot show has a surrogate or a
    number that is no code point; a decoded text has neither. *)
Lemma shows_utf8_decoded (bs : bytes) (text : str) :
  Utf8.encode text = Some bs → shows utf8_chars text = true.
Proof.
  revert bs. induction text as [|ch text IH]; intros bs; [done|].
  cbn [Utf8.encode shows forallb].
  destruct (Utf8.encode_cp ch) as [b|] eqn:Hcp; [|done].
  destruct (Utf8.encode text) as [bs'|]; [|done]. intros _.
  apply andb_true_iff. split; [|by eapply IH].
  unfold Utf8.encode_cp, Utf8.between in Hcp.
  unfold utf8_chars, has. cbn [existsb fst snd].
  destruct (N.ltb_spec ch 128) as [H1|H1]; [done|]. cbn [orb].
  destruct (N.ltb_spec ch 2048) as [H2|H2].
  { rewrite (proj2 (N.leb_le 128 ch)), (proj2 (N.leb_le ch 55295)) by lia.
    done. }
  destruct (N.ltb_spec ch 65536) as [H3|H3].
  { destruct (N.leb_spec 55296 ch) as [H5|H5];
      destruct (N.leb_spec ch 57343) as [H6|H6]; try done.
    - rewrite (proj2 (N.leb_le 57344 ch)), (proj2 (N.leb_le ch 1114111))
        by lia. by rewrite orb_true_r.
    - rewrite (proj2 (N.leb_le 128 ch)), (proj2 (N.leb_le ch 55295)) by lia.
      done.
    - lia. }
  destruct (N.ltb_spec ch 1114112) as [H4|H4]; [|done].
  rewrite (proj2 (N.leb_le 57344 ch)), (proj2 (N.leb_le ch 1114111)) by lia.
  by rewrite orb_true_r.
Qed.

(** A number is written with digits. *)
Lemma pretty_N_char_ascii (d : N) :
  Byte.to_N (Ascii.byte_of_ascii (pretty_N_char d)) < 128.
Proof. unfold pretty_N_char. repeat case_match; by vm_compute. Qed.

Lemma lit_String a (t : string) :
  lit (String a t) = Byte.to_N (Ascii.byte_of_ascii a) :: lit t.
Proof. Transparent lit. reflexivity. Opaque lit. Qed.

Lemma pretty_N_go_ascii (x : N) : ∀ t,
  Forall (λ ch, ch < 128) (lit t) →
  Forall (λ ch, ch < 128) (lit (pretty_N_go x t)).
Proof.
  induction (N.lt_wf_0 x) as [x _ IH]. intros t Ht.
  destruct (decide (0 < x)) as [Hx|Hx].
  - rewrite pretty_N_go_step by done. apply IH.
    + by apply N.div_lt.
    + rewrite lit_String. constructor; [apply pretty_N_char_ascii|done].
  - assert (x = 0) as -> by lia. by rewrite pretty_N_go_0.
Qed.

Lemma format_N_ascii (n : N) : Forall (λ ch, ch < 128) (format_N n).
Proof.
  unfold format_N, pretty, pretty_N. case_decide.
  - apply Forall_forall. intros ch Hin. vm_compute in Hin.
    apply list_elem_of_singleton in Hin. by subst.
  - apply pretty_N_go_ascii. by vm_compute.
Qed.

Lemma shows_format_N chars n : shows chars (format_N n) = true.
Proof. apply shows_ascii, format_N_ascii. Qed.

Lemma shows_format_addr chars a : shows chars (format_addr a) = true.
Proof.
  unfold format_addr. destruct (ip a) as [[[a1 a2] a3] a4].
  rewrite !shows_app, !shows_format_N. by vm_compute.
Qed.

Lemma print_shown line w :
  shows (stdout_chars w) line = true →
  print line w = (Ok tt, set_stdout (stdout w ++ [line]) w).
Proof. intros H. unfold print. by rewrite H. Qed.

Lemma print_error_line w :
  print (lit "Error encountered in start_server") w
  = (Ok tt,
     set_stdout (stdout w ++ [lit "Error encountered in start_server"]) w).
Proof. apply print_shown. by vm_compute. Qed.

(** ** Sockets *)

Lemma open_sock_Some c w s :
  open_sock c w = Some s ↔ socks w !! c = Some s ∧ closed s = false.
Proof.
  unfold open_sock. destruct (socks w !! c) as [s'|]; [|by split; [|intros []]].
  destruct (closed s') eqn:E; split; try done.
  - by intros [[= ->] ?]; congruence.
  - by intros [= ->].
  - by intros [[= ->] _].
Qed.

Lemma open_sock_set_sock c s w :
  closed s = false → open_sock c (set_sock c s w) = Some s.
Proof. intros H. unfold open_sock; simpl. by rewrite lookup_insert_eq, H. Qed.

Lemma set_sock_set_sock c s1 s2 w :
  set_sock c s2 (set_sock c s1 w) = set_sock c s2 w.
Proof. apply world_eq; simpl; try done. apply insert_insert_eq. Qed.

Lemma set_sock_id c s w : socks w !! c = Some s → set_sock c s w = w.
Proof. intros H. apply world_eq; simpl; try done. by apply insert_id. Qed.

Lemma same_elsewhere_refl c w : same_elsewhere c w w.
Proof. by repeat split. Qed.

Lemma same_elsewhere_trans c w1 w2 w3 :
  same_elsewhere c w1 w2 → same_elsewhere c w2 w3 → same_elsewhere c w1 w3.
Proof.
  intros (A1&A2&A3&A4&A5&A6&A7) (B1&B2&B3&B4&B5&B6&B7).
  repeat split; try congruence. intros c' Hc. by rewrite B1, A1.
Qed.

Lemma same_elsewhere_set c s out w :
  same_elsewhere c w (set_stdout out (set_sock c s w)).
Proof.
  repeat split; simpl. intros c' Hc. by rewrite lookup_insert_ne.
Qed.

Lemma encode_reply (chunk : bytes) (data : str) :
  Utf8.decode chunk = Some data →
  Utf8.encode (lit "Server received: " ++ data) = Some (echo_prefix ++ chunk).
Proof.
  intros H. apply Utf8Facts.encode_app; [by vm_compute|].
  by apply Utf8Facts.encode_decode.
Qed.

(** [session_iter] acts on its socket as [sock_turn] says, appends the
    lines of the turn to standard output, and changes nothing else. *)
Lemma session_iter_turn c w s :
  open_sock c w = Some s →
  session_iter c w =
    (let '(r, s', out) := sock_turn (stdout_chars w) s in
     (r, set_stdout (stdout w ++ out) (set_sock c s' w))).
Proof.
  intros Hopen. pose proof Hopen as [Hs Hcl]%open_sock_Some.
  assert (Hid : ∀ r : result ctl,
    (r, w) = (r, set_stdout (stdout w ++ []) (set_sock c s w))).
  { intros r. f_equal. rewrite set_sock_id by done.
    apply world_eq; simpl; by rewrite ?app_nil_r. }
  assert (Hnil : ∀ (r : result ctl) s',
    (r, set_sock c s' w) = (r, set_stdout (stdout w ++ []) (set_sock c s' w))).
  { intros r s'. f_equal. apply world_eq; simpl; by rewrite ?app_nil_r. }
  unfold session_iter, try_except, session_try, bind, recv, sock_turn.
  rewrite Hopen.
  destruct (rx s) as [|[bs| |err] rest] eqn:Hrx;
    [apply Hid|idtac|apply Hid|apply Hnil].
  cbv zeta.
  set (rest' := if decide (length bs ≤ 1024)%nat then rest
                else RxData (drop 1024 bs) :: rest).
  assert (Hrecv :
    (if decide (length bs ≤ 1024)%nat
     then (Ok bs, set_sock c (set_rx rest s) w)
     else (Ok (take 1024 bs),
           set_sock c (set_rx (RxData (drop 1024 bs) :: rest) s) w))
    = (Ok (take 1024 bs), set_sock c (set_rx rest' s) w)).
  { unfold rest'. case_decide; [|done]. by rewrite take_ge. }
  rewrite Hrecv. clear Hrecv.
  unfold bytes_decode.
  destruct (Utf8.decode (take 1024 bs)) as [data|] eqn:Hdec; [|apply Hnil].
  case_bool_decide; [apply Hnil|].
  unfold print. cbn [stdout_chars set_sock].
  destruct (shows (stdout_chars w) _); [|apply Hnil].
  unfold str_encode. rewrite (encode_reply _ _ Hdec).
  unfold sendall, open_sock. simpl.
  rewrite lookup_insert_eq. simpl. rewrite Hcl. simpl.
  destruct (tx s) as [|[|k e] t]; simpl; f_equal;
    apply world_eq; simpl; try done; apply insert_insert_eq.
Qed.

Lemma session_iter_not_open c w :
  open_sock c w = None → session_iter c w = (Ok Break, w).
Proof.
  intros H. unfold session_iter, try_except, session_try, bind, recv.
  by rewrite H.
Qed.

(* ===================================================================== *)
(** * Facts about the session loop *)
(* ===================================================================== *)

Lemma sock_turn_spec chars s r s' out :
  sock_turn chars s = (r, s', out) →
  same_script s s'
  ∧ (∀ e, r ≠ Raise e)
  ∧ (∃ news, sent s' = sent s ++ news ∧ Forall echo_write news
             ∧ (length news ≤ 1)%nat)
  ∧ Forall received_line out
  ∧ (r = Block → rx s = [] ∧ s' = s)
  ∧ (r = Ok Continue → ∃ bs rest, rx s = RxData bs :: rest
       ∧ (sum_list (rx_weight <$> rx s') < sum_list (rx_weight <$> rx s))%nat
       ∧ (only_data (rx s') → only_data (rx s))).
Proof.
  assert (Hsame : ∀ v, same_script s (set_rx v s)) by (by repeat split).
  assert (Hsame' : ∀ v t u, same_script s (set_tx_sent t u (set_rx v s)))
    by (by repeat split).
  assert (Hno : ∃ news : list bytes, sent s = sent s ++ news
            ∧ Forall echo_write news ∧ (length news ≤ 1)%nat).
  { exists []. rewrite app_nil_r. repeat split; [constructor|simpl; lia]. }
  unfold sock_turn.
  destruct (rx s) as [|[bs| |err] rest] eqn:Hrx.
  - intros [= <- <- <-]. repeat split; try done.
  - cbv zeta.
    set (rest' := if decide (length bs ≤ 1024)%nat then rest
                  else RxData (drop 1024 bs) :: rest).
    destruct (Utf8.decode (take 1024 bs)) as [data|] eqn:Hdec.
    2:{ intros [= <- <- <-]. repeat split; try done. }
    case_bool_decide as Hdata.
    { intros [= <- <- <-]. repeat split; try done. }
    assert (Hchunk : take 1024 bs ≠ []).
    { intros Hnil. rewrite Hnil in Hdec. by injection Hdec as <-. }
    assert (Hw : ∀ k, echo_write (take k (echo_prefix ++ take 1024 bs))).
    { intros k. exists (take 1024 bs), k. repeat split; try done.
      rewrite length_take. apply Nat.le_min_l. }
    assert (Hw' : echo_write (echo_prefix ++ take 1024 bs)).
    { rewrite <-(take_ge (echo_prefix ++ take 1024 bs)
                  (length (echo_prefix ++ take 1024 bs))) by done.
      apply Hw. }
    assert (Hline : Forall received_line [lit "Received from client: " ++ data]).
    { repeat constructor. by exists data. }
    assert (Hdecr : (sum_list (rx_weight <$> rest')
                     < sum_list (rx_weight <$> RxData bs :: rest))%nat).
    { unfold rest'. case_decide; csimpl; [lia|]. rewrite length_drop. lia. }
    assert (Hdata' : only_data rest' → only_data (RxData bs :: rest)).
    { unfold rest'. case_decide.
      - intros Hr. constructor; [by eexists|done].
      - intros Hr. inversion Hr; subst. constructor; [by eexists|done]. }
    destruct (shows chars _).
    2:{ intros [= <- <- <-]. repeat split; try done. }
    destruct (tx s) as [|[|k e] t]; intros [= <- <- <-];
      (split; [apply Hsame'|]); (split; [done|]);
      (split; [eexists [_]; simpl; split; [done|];
               split; [by repeat constructor|lia]|]);
      (split; [done|]); (split; [done|]); try done;
      intros _; exists bs, rest; simpl; rewrite ?Hrx; done.
  - intros [= <- <- <-]. repeat split; try done.
  - intros [= <- <- <-]. repeat split; try done.
Qed.

Lemma session_loop_eq c w :
  session_loop c w =
    match session_iter c w with
    | (Ok Continue, w') => session_loop c w'
    | (Ok Break, w') => (Ok tt, w')
    | (Raise e, w') => (Raise e, w')
    | (Block, w') => (Block, w')
    end.
Proof.
  funelim (session_loop c w);
    by match goal with H : session_iter _ _ = _ |- _ => rewrite H end.
Qed.

Lemma session_loop_not_open c w :
  open_sock c w = None → session_loop c w = (Ok tt, w).
Proof.
  intros H. by rewrite session_loop_eq, session_iter_not_open.
Qed.

Lemma set_stdout_set_sock_again c s1 s2 out1 out2 w :
  set_stdout (stdout (set_stdout (stdout w ++ out1) (set_sock c s1 w)) ++ out2)
    (set_sock c s2 (set_stdout (stdout w ++ out1) (set_sock c s1 w)))
  = set_stdout (stdout w ++ (out1 ++ out2)) (set_sock c s2 w).
Proof.
  apply world_eq; simpl; try done; [apply insert_insert_eq|by rewrite app_assoc].
Qed.

(** The loop does to its socket what [sock_run] says, appends its lines to
    standard output, and changes nothing else. *)
Lemma session_loop_run c w s :
  open_sock c w = Some s →
  ∃ s' out,
    sock_run (stdout_chars w) s (session_loop c w).1 s' out
    ∧ (session_loop c w).2 = set_stdout (stdout w ++ out) (set_sock c s' w).
Proof.
  remember (pending c w) as n eqn:Hn. revert w s Hn.
  induction (lt_wf n) as [n _ IH]. intros w s -> Hopen.
  rewrite session_loop_eq, (session_iter_turn _ _ _ Hopen).
  destruct (sock_turn (stdout_chars w) s) as [[r s1] out1] eqn:Hturn.
  pose proof (sock_turn_spec _ _ _ _ _ Hturn)
    as (Hsame & Hraise & _ & _ & _ & Hcont).
  destruct r as [[|]|e|].
  - destruct (Hcont eq_refl) as (bs & rest & Hrx & Hlt & _).
    pose proof Hopen as [Hs Hcl]%open_sock_Some.
    set (w1 := set_stdout (stdout w ++ out1) (set_sock c s1 w)).
    assert (Hopen1 : open_sock c w1 = Some s1).
    { apply open_sock_Some. split; [apply lookup_insert_eq|].
      destruct Hsame as (_&_&_&_&_&_&->). done. }
    destruct (IH (pending c w1)) with (w := w1) (s := s1) as (s2 & out2 & Hrun & Hw);
      [|done|done|].
    { unfold pending. simpl. rewrite lookup_insert_eq, Hs. done. }
    exists s2, (out1 ++ out2). split.
    + by eapply run_continue.
    + rewrite Hw. apply set_stdout_set_sock_again.
  - exists s1, out1. split; [by apply run_break|done].
  - by destruct (Hraise e).
  - exists s1, out1. split; [by apply run_block|done].
Qed.

Lemma sock_run_spec chars s r s' out :
  sock_run chars s r s' out →
  same_script s s'
  ∧ (∀ e, r ≠ Raise e)
  ∧ (∃ news, sent s' = sent s ++ news ∧ Forall echo_write news)
  ∧ Forall received_line out
  ∧ (r = Block → only_data (rx s)).
Proof.
  induction 1 as [s s' out Hturn|s s' out Hturn
                 |s s1 out1 r s2 out2 Hturn Hrun IH].
  - apply sock_turn_spec in Hturn as (?&?&(news&?&?&?)&?&?&?).
    split_and!; try done. by exists news.
  - apply sock_turn_spec in Hturn as (?&?&(news&?&?&?)&?&Hb&?).
    split_and!; try done; [by exists news|].
    intros _. destruct (Hb eq_refl) as [-> _]. constructor.
  - apply sock_turn_spec in Hturn as (Hs1&?&(news&Hn1&?&?)&?&?&Hc).
    destruct IH as (Hs2&?&(news2&Hn2&?)&?&Hb).
    destruct (Hc eq_refl) as (bs&rest&Hrx&_&Hdata).
    split_and!; try done.
    + destruct Hs1 as (?&?&?&?&?&?&?), Hs2 as (?&?&?&?&?&?&?).
      unfold same_script. split_and!; congruence.
    + exists (news ++ news2). rewrite Hn2, Hn1, app_assoc. split; [done|].
      by apply Forall_app.
    + by apply Forall_app.
    + intros Hr. apply Hdata, Hb, Hr.
Qed.

(* ===================================================================== *)
(** * Facts about handle_clientconnection *)
(* ===================================================================== *)

Lemma handle_clientconnection_not_open c w :
  open_sock c w = None → handle_clientconnection c w = (Ok PNone, w).
Proof.
  intros H. unfold handle_clientconnection, bind.
  rewrite session_loop_not_open by done. unfold close. by rewrite H.
Qed.

(** The handler: the run of the loop on the socket, then the close. *)
Lemma handle_clientconnection_run c w s :
  open_sock c w = Some s →
  ∃ r s' out,
    sock_run (stdout_chars w) s r s' out
    ∧ handle_clientconnection c w =
        match r with
        | Ok _ =>
          (match close_err s with Some e => Raise e | None => Ok PNone end,
           set_stdout (stdout w ++ out) (set_sock c (set_closed true s') w))
        | Raise e => (Raise e, set_stdout (stdout w ++ out) (set_sock c s' w))
        | Block => (Block, set_stdout (stdout w ++ out) (set_sock c s' w))
        end.
Proof.
  intros Hopen.
  destruct (session_loop_run c w s Hopen) as (s' & out & Hrun & Hw).
  exists (session_loop c w).1, s', out. split; [done|].
  pose proof (sock_run_spec _ _ _ _ _ Hrun) as (Hsame & _).
  unfold handle_clientconnection, bind.
  destruct (session_loop c w) as [r w1]. simpl in *. subst w1.
  destruct r as [[]|e|]; [|done..].
  apply open_sock_Some in Hopen as [Hs Hcl].
  destruct Hsame as (_&_&_&Hce&_&_&Hclosed).
  unfold close, open_sock. simpl.
  rewrite lookup_insert_eq, Hclosed, Hcl, Hce.
  assert (set_sock c (set_closed true s')
            (set_stdout (stdout w ++ out) (set_sock c s' w))
          = set_stdout (stdout w ++ out) (set_sock c (set_closed true s') w))
    as ->.
  { apply world_eq; simpl; try done. apply insert_insert_eq. }
  by destruct (close_err s).
Qed.

Lemma sock_run_det chars s r1 s1 out1 r2 s2 out2 :
  sock_run chars s r1 s1 out1 → sock_run chars s r2 s2 out2 →
  r1 = r2 ∧ s1 = s2 ∧ out1 = out2.
Proof.
  intros H1. revert r2 s2 out2.
  induction H1 as [s s' out Hturn|s s' out Hturn
                  |s sa outa r sb outb Hturn Hrun IH];
    intros r2 s2 out2 H2;
    inversion H2 as [? ? ? Ht|? ? ? Ht|? ? ? ? ? ? Ht Hr]; subst;
    rewrite Hturn in Ht; try discriminate.
  - by injection Ht as -> ->.
  - by injection Ht as -> ->.
  - injection Ht as <- <-.
    by apply IH in Hr as (-> & -> & ->).
Qed.

(** What the handler does, given the run of the loop on its socket. *)
Lemma handle_clientconnection_of_run c w s r s' out :
  open_sock c w = Some s → sock_run (stdout_chars w) s r s' out →
  handle_clientconnection c w =
    match r with
    | Ok _ =>
      (match close_err s with Some e => Raise e | None => Ok PNone end,
       set_stdout (stdout w ++ out) (set_sock c (set_closed true s') w))
    | Raise e => (Raise e, set_stdout (stdout w ++ out) (set_sock c s' w))
    | Block => (Block, set_stdout (stdout w ++ out) (set_sock c s' w))
    end.
Proof.
  intros Hopen Hrun.
  destruct (handle_clientconnection_run c w s Hopen) as (r0 & s0 & out0 & Hrun0 & ->).
  by destruct (sock_run_det _ _ _ _ _ _ _ _ Hrun0 Hrun) as (-> & -> & ->).
Qed.

Lemma handle_clientconnection_elsewhere c w :
  same_elsewhere c w (handle_clientconnection c w).2.
Proof.
  destruct (open_sock c w) as [s|] eqn:Hopen.
  - destruct (handle_clientconnection_run c w s Hopen) as (r & s' & out & _ & ->).
    destruct r as [[]|e|]; apply same_elsewhere_set.
  - rewrite handle_clientconnection_not_open by done. apply same_elsewhere_refl.
Qed.

Lemma sent_on_set c s out w : sent_on c (set_stdout out (set_sock c s w)) = sent s.
Proof. unfold sent_on. simpl. by rewrite lookup_insert_eq. Qed.

Lemma sent_on_elsewhere c c' w w' :
  same_elsewhere c w w' → c' ≠ c → sent_on c' w' = sent_on c' w.
Proof. intros (H & _) Hc. unfold sent_on. by rewrite H. Qed.

Lemma sent_on_open c w s : open_sock c w = Some s → sent_on c w = sent s.
Proof. intros [H _]%open_sock_Some. unfold sent_on. by rewrite H. Qed.

Lemma shows_log_line chars data :
  shows chars (lit "Received from client: " ++ data) = shows chars data.
Proof. rewrite shows_app. by vm_compute (shows chars (lit _)). Qed.

(** A turn that reads a well-formed chunk, prints its text and sends the
    reply. *)
Lemma sock_turn_chunk chars s bs rest data :
  rx s = RxData bs :: rest →
  Utf8.decode (take 1024 bs) = Some data → take 1024 bs ≠ [] →
  shows chars data = true →
  (∀ k e, head (tx s) ≠ Some (TxErr k e)) →
  sock_turn chars s =
    (Ok Continue,
     set_tx_sent (tail (tx s)) (sent s ++ [echo_prefix ++ take 1024 bs])
       (set_rx (if decide (length bs ≤ 1024)%nat then rest
                else RxData (drop 1024 bs) :: rest) s),
     [lit "Received from client: " ++ data]).
Proof.
  intros Hrx Hdec HP Hshow Htx. unfold sock_turn. rewrite Hrx. cbv zeta.
  rewrite Hdec.
  case_bool_decide as Hd; [subst data|].
  { apply Utf8Facts.encode_decode in Hdec. simpl in Hdec.
    injection Hdec as Hnil. by destruct HP. }
  rewrite shows_log_line, Hshow.
  destruct (tx s) as [|[|k e] t]; simpl; try done.
  by destruct (Htx k e).
Qed.

Lemma sock_turn_echo chars s P rest data :
  rx s = RxData P :: rest → (length P ≤ 1024)%nat →
  Utf8.decode P = Some data → P ≠ [] →
  shows chars data = true →
  (∀ k e, head (tx s) ≠ Some (TxErr k e)) →
  sock_turn chars s =
    (Ok Continue,
     set_tx_sent (tail (tx s)) (sent s ++ [echo_prefix ++ P]) (set_rx rest s),
     [lit "Received from client: " ++ data]).
Proof.
  intros Hrx Hlen Hdec HP Hshow Htx.
  rewrite (sock_turn_chunk chars s P rest data);
    rewrite ?take_ge by done; try done.
  by rewrite decide_True by done.
Qed.

Lemma sock_turn_eof chars s rest :
  rx s = RxEof :: rest → sock_turn chars s = (Ok Break, s, []).
Proof. intros H. unfold sock_turn. by rewrite H. Qed.

(** What the handler writes and prints, for any world. *)
Lemma handle_clientconnection_output c w :
  ∃ news lines,
    sent_on c (handle_clientconnection c w).2 = sent_on c w ++ news
    ∧ Forall echo_write news
    ∧ stdout (handle_clientconnection c w).2 = stdout w ++ lines
    ∧ Forall received_line lines.
Proof.
  destruct (open_sock c w) as [s|] eqn:Hopen.
  - destruct (handle_clientconnection_run c w s Hopen)
      as (r & s' & out & Hrun & ->).
    apply sock_run_spec in Hrun as (_ & _ & (news & Hsent & Hnews) & Hout & _).
    exists news, out. rewrite (sent_on_open c w s) by done.
    destruct r as [[]|e|]; cbn [snd]; rewrite sent_on_set; simpl; done.
  - rewrite handle_clientconnection_not_open by done.
    exists [], []. by rewrite !app_nil_r.
Qed.

Lemma echo_prefix_eq :
  echo_prefix = ["S"; "e"; "r"; "v"]%byte ++ blit "er received: ".
Proof. by vm_compute. Qed.

Lemma echo_write_length m : echo_write m → (length m ≤ 17 + 1024)%nat.
Proof.
  intros (chunk & k & -> & _ & Hlen & _).
  rewrite length_take, length_app.
  assert (length echo_prefix = 17%nat) as -> by (by vm_compute). lia.
Qed.

(** No write of the session loop is a frame: where there are four bytes to
    read as a length, they are the letters "Serv". *)
Lemma echo_write_not_framed m : echo_write m → framed m = false.
Proof.
  intros (chunk & k & -> & _ & Hlen & _). rewrite echo_prefix_eq.
  destruct k as [|[|[|[|k]]]]; try done.
  cbn [app take framed].
  apply N.eqb_neq. intros Heq.
  assert (Hl : (length (take k (blit "er received: " ++ chunk)) ≤ 13 + 1024)%nat).
  { rewrite length_take, length_app.
    assert (length (blit "er received: ") = 13%nat) as -> by (by vm_compute).
    lia. }
  revert Heq Hl. generalize (length (take k (blit "er received: " ++ chunk))).
  intros n. vm_compute (Byte.to_N _). lia.
Qed.

(* ===================================================================== *)
(** * Facts about long messages *)
(* ===================================================================== *)

Lemma chunks_cons b bs :
  chunks (b :: bs) = take 1024 (b :: bs) :: chunks (drop 1024 (b :: bs)).
Proof. by simp chunks. Qed.

Lemma chunks_bounded (n : nat) (M : bytes) :
  (length M ≤ n)%nat →
  concat (chunks M) = M
  ∧ Forall (λ ch, (length ch ≤ 1024)%nat ∧ ch ≠ []) (chunks M).
Proof.
  revert M. induction n as [|n IH]; intros M Hn.
  { destruct M; [by simp chunks|simpl in Hn; lia]. }
  destruct M as [|b M]; [by simp chunks|].
  rewrite chunks_cons.
  destruct (IH (drop 1024 (b :: M))) as [Hc Hf].
  { rewrite length_drop. cbn [length] in *. lia. }
  split.
  - cbn [concat]. rewrite Hc. apply take_drop.
  - constructor; [|done]. split; [|done].
    rewrite length_take. apply Nat.le_min_l.
Qed.

Lemma chunks_long (M : bytes) :
  (1024 < length M)%nat → (2 ≤ length (chunks M))%nat.
Proof.
  intros Hlen. destruct M as [|b M]; [simpl in Hlen; lia|].
  rewrite chunks_cons.
  destruct (drop 1024 (b :: M)) as [|b' M'] eqn:Hd.
  - apply (f_equal length) in Hd. rewrite length_drop in Hd.
    cbn [length] in *. lia.
  - rewrite chunks_cons. simpl. lia.
Qed.

(** A message that has arrived whole is answered chunk by chunk, as long as
    every chunk is well-formed by itself and the sends succeed. *)
Lemma sock_run_chunks chars (n : nat) : ∀ (M : bytes) (s : sock) rest,
  (length M ≤ n)%nat →
  rx s = RxData M :: RxEof :: rest → tx s = [] →
  Forall (shown chars) (chunks M) →
  ∃ s' out,
    sock_run chars s (Ok tt) s' out
    ∧ sent s' = sent s ++ ((λ ch, echo_prefix ++ ch) <$> chunks M).
Proof.
  induction n as [|n IH]; intros M s rest Hn Hrx Htx Hdec.
  { destruct M; [|simpl in Hn; lia].
    eexists _, _. split.
    - apply run_break. unfold sock_turn. rewrite Hrx. reflexivity.
    - simp chunks. simpl. by rewrite app_nil_r. }
  destruct M as [|b M].
  { eexists _, _. split.
    - apply run_break. unfold sock_turn. rewrite Hrx. reflexivity.
    - simp chunks. simpl. by rewrite app_nil_r. }
  rewrite chunks_cons in Hdec |- *.
  apply Forall_cons in Hdec as [(data & Hdata & Hshow) Hdec].
  assert (Htake : take 1024 (b :: M) ≠ []) by done.
  assert (Hok : ∀ k e, head (tx s) ≠ Some (TxErr k e)) by (by rewrite Htx).
  pose proof (sock_turn_chunk chars s (b :: M) (RxEof :: rest) data Hrx Hdata
                Htake Hshow Hok) as Hturn.
  rewrite Htx in Hturn. cbn [tail] in Hturn.
  destruct (decide (length (b :: M) ≤ 1024)%nat) as [Hle|Hgt].
  - rewrite drop_ge by done. simp chunks.
    eexists _, ([lit "Received from client: " ++ data] ++ []). split.
    + eapply run_continue; [exact Hturn|].
      apply run_break. by eapply sock_turn_eof.
    + done.
  - set (s1 := set_tx_sent [] (sent s ++ [echo_prefix ++ take 1024 (b :: M)])
                 (set_rx (RxData (drop 1024 (b :: M)) :: RxEof :: rest) s))
      in *.
    destruct (IH (drop 1024 (b :: M)) s1 rest) as (s2 & out2 & Hrun & Hsent);
      [rewrite length_drop; cbn [length] in *; lia|done|done|done|].
    exists s2, ([lit "Received from client: " ++ data] ++ out2). split.
    + eapply run_continue; [exact Hturn|exact Hrun].
    + rewrite Hsent. subst s1. cbn [sent set_tx_sent set_rx fmap list_fmap].
      by rewrite <-app_assoc.
Qed.

(** Checking by computation that every piece of a list is a text that
    standard output can show. *)
Lemma all_shown_check chars (l : list bytes) :
  forallb (λ ch, if Utf8.decode ch is Some data then shows chars data
                 else false) l = true →
  Forall (shown chars) l.
Proof.
  induction l as [|ch l IH]; [constructor|].
  cbn [forallb]. intros [Hch Hl]%andb_true_iff. constructor; [|by apply IH].
  unfold shown. destruct (Utf8.decode ch) as [data|]; [by exists data|done].
Qed.

(* ===================================================================== *)
(** * Facts about start_server *)
(* ===================================================================== *)

Lemma accept_loop_eq ls w :
  accept_loop ls w =
    match accept_iter ls w with
    | (Ok _, w') => accept_loop ls w'
    | (Raise e, w') => (Raise e, w')
    | (Block, w') => (Block, w')
    end.
Proof.
  funelim (accept_loop ls w);
    by match goal with H : accept_iter _ _ = _ |- _ => rewrite H end.
Qed.

Lemma shows_accepted_line chars p : shows chars (accepted_line p) = true.
Proof.
  unfold accepted_line. rewrite shows_app, shows_format_addr.
  by vm_compute (shows chars (lit _)).
Qed.

Lemma accept_iter_closed ls w :
  open_sock ls w = None → accept_iter ls w = (Raise OSError, w).
Proof. intros Ho. unfold accept_iter, bind, sock_accept. by rewrite Ho. Qed.

Lemma accept_iter_deaf ls w s :
  open_sock ls w = Some s → listening s = false →
  accept_iter ls w = (Raise OSError, w).
Proof.
  intros Ho Hl. unfold accept_iter, bind, sock_accept. by rewrite Ho, Hl.
Qed.

Lemma accept_iter_empty ls w s :
  open_sock ls w = Some s → listening s = true → backlog s = [] →
  accept_iter ls w = (Block, w).
Proof.
  intros Ho Hl Hb. unfold accept_iter, bind, sock_accept.
  by rewrite Ho, Hl, Hb.
Qed.

Lemma accept_iter_err ls w s e rest :
  open_sock ls w = Some s → listening s = true →
  backlog s = AcceptErr e :: rest →
  accept_iter ls w = (Raise e, set_sock ls (set_backlog rest s) w).
Proof.
  intros Ho Hl Hb. unfold accept_iter, bind, sock_accept.
  by rewrite Ho, Hl, Hb.
Qed.

Lemma accept_iter_accepted ls w s p rest n :
  open_sock ls w = Some s → listening s = true →
  backlog s = accepted_event p :: rest → thread_budget w = S n →
  accept_iter ls w =
    (Ok tt,
     set_threads (threads w ++ [new_thread p]) n (taken ls s p rest w)).
Proof.
  intros Ho Hl Hb Hn. unfold accept_iter, bind, sock_accept.
  rewrite Ho, Hl, Hb. unfold accepted_event, store_local, print.
  cbn [fst snd stdout_chars set_sock set_locals].
  fold (accepted_line p). rewrite shows_accepted_line.
  unfold thread_start. cbn [thread_budget set_sock set_locals set_stdout].
  by rewrite Hn.
Qed.

Lemma accept_iter_no_thread ls w s p rest :
  open_sock ls w = Some s → listening s = true →
  backlog s = accepted_event p :: rest → thread_budget w = 0%nat →
  accept_iter ls w = (Raise RuntimeError, taken ls s p rest w).
Proof.
  intros Ho Hl Hb Hn. unfold accept_iter, bind, sock_accept.
  rewrite Ho, Hl, Hb. unfold accepted_event, store_local, print.
  cbn [fst snd stdout_chars set_sock set_locals].
  fold (accepted_line p). rewrite shows_accepted_line.
  unfold thread_start. cbn [thread_budget set_sock set_locals set_stdout].
  by rewrite Hn.
Qed.

(** The accept loop takes every queued connection in turn: it prints a line
    and starts a thread for each, as long as threads can be started. *)
Lemma accept_loop_accepts ls conns : ∀ w s tl,
  open_sock ls w = Some s → listening s = true →
  backlog s = (accepted_event <$> conns) ++ tl →
  (length conns ≤ thread_budget w)%nat →
  accept_loop ls w =
    accept_loop ls
      (set_threads (threads w ++ (new_thread <$> conns))
         (thread_budget w - length conns)
         (set_locals (foldl (λ l p, accepted_locals p l) (locals w) conns)
            (set_stdout (stdout w ++ (accepted_line <$> conns))
               (set_sock ls (set_backlog tl s) w)))).
Proof.
  induction conns as [|p conns IH]; intros w s tl Ho Hl Hb Hn.
  - f_equal. symmetry. apply world_eq; simpl; rewrite ?app_nil_r; try done.
    + apply open_sock_Some in Ho as [Hs _]. simpl in Hb. subst tl.
      apply insert_id. rewrite Hs. by destruct s.
    + lia.
  - simpl in Hn. destruct (thread_budget w) as [|n] eqn:Hbud; [lia|].
    rewrite accept_loop_eq.
    rewrite (accept_iter_accepted ls w s p (( accepted_event <$> conns) ++ tl) n)
      by done.
    apply open_sock_Some in Ho as [Hs Hcl].
    erewrite IH; [|apply open_sock_set_sock; done|done|simpl; done|simpl; lia].
    f_equal. apply world_eq; simpl; try done.
    + apply insert_insert_eq.
    + by rewrite <-app_assoc.
    + by rewrite <-app_assoc.
Qed.

(** ** The frame of the call *)

Lemma start_server_eq host port w :
  start_server host port w
  = returning
      (try_except (start_server_try host port) (λ _, start_server_except) ;;
       ret PNone)
      (set_locals (frame_of host port) w).
Proof. reflexivity. Qed.

Lemma finalize_rest c w :
  fresh_fds (finalize c w) = fresh_fds w
  ∧ stdout (finalize c w) = stdout w
  ∧ stdout_chars (finalize c w) = stdout_chars w
  ∧ globals (finalize c w) = globals w
  ∧ locals (finalize c w) = locals w
  ∧ threads (finalize c w) = threads w
  ∧ thread_budget (finalize c w) = thread_budget w.
Proof.
  unfold finalize. case_bool_decide; [done|].
  by destruct (socks w !! c).
Qed.

Lemma finalize_socks c w x :
  socks (finalize c w) !! x
  = close_if (bool_decide (x = c) && bool_decide (c ∉ (threads w).*1))
      <$> socks w !! x.
Proof.
  unfold finalize. case_bool_decide as Hth.
  - rewrite (bool_decide_eq_false_2 (c ∉ _)) by (by intros ?).
    rewrite andb_false_r. by destruct (socks w !! x).
  - rewrite (bool_decide_eq_true_2 (c ∉ _)) by done. rewrite andb_true_r.
    destruct (decide (x = c)) as [->|Hne].
    + rewrite bool_decide_eq_true_2 by done.
      destruct (socks w !! c) as [s|] eqn:Hs; [|by rewrite Hs].
      cbn [socks set_sock]. by rewrite lookup_insert_eq.
    + rewrite bool_decide_eq_false_2 by done.
      destruct (socks w !! c) as [s|] eqn:Hs;
        [|by destruct (socks w !! x)].
      cbn [socks set_sock]. rewrite lookup_insert_ne by done.
      by destruct (socks w !! x).
Qed.

Lemma drop_local_rest name w :
  fresh_fds (drop_local name w) = fresh_fds w
  ∧ stdout (drop_local name w) = stdout w
  ∧ stdout_chars (drop_local name w) = stdout_chars w
  ∧ globals (drop_local name w) = globals w
  ∧ locals (drop_local name w) = locals w
  ∧ threads (drop_local name w) = threads w
  ∧ thread_budget (drop_local name w) = thread_budget w.
Proof.
  unfold drop_local. destruct (locals w !! name ≫= held); [|done].
  apply finalize_rest.
Qed.

Lemma drop_local_socks name w x :
  socks (drop_local name w) !! x = close_if (closes w name x) <$> socks w !! x.
Proof.
  unfold drop_local, closes.
  destruct (locals w !! name ≫= held) as [c|] eqn:Hh.
  - rewrite finalize_socks. destruct (decide (x = c)) as [->|Hne].
    + by rewrite (bool_decide_eq_true_2 (c = c)),
        (bool_decide_eq_true_2 (Some c = Some c)) by done.
    + rewrite !(bool_decide_eq_false_2 (x = c)) by done.
      by rewrite (bool_decide_eq_false_2 (Some c = Some x)) by congruence.
  - rewrite bool_decide_eq_false_2 by done. by destruct (socks w !! x).
Qed.

Lemma close_if_close_if a b s :
  close_if a (close_if b s) = close_if (b || a) s.
Proof. by destruct a, b, s. Qed.

Lemma leave_frame_rest w :
  fresh_fds (leave_frame w) = fresh_fds w
  ∧ stdout (leave_frame w) = stdout w
  ∧ stdout_chars (leave_frame w) = stdout_chars w
  ∧ globals (leave_frame w) = globals w
  ∧ locals (leave_frame w) = ∅
  ∧ threads (leave_frame w) = threads w
  ∧ thread_budget (leave_frame w) = thread_budget w.
Proof.
  unfold leave_frame. cbn [fresh_fds stdout stdout_chars globals locals
                          threads thread_budget set_locals].
  destruct (drop_local_rest "server_socket" w) as (A1&A2&A3&A4&A5&A6&A7).
  destruct (drop_local_rest "client_socket" (drop_local "server_socket" w))
    as (B1&B2&B3&B4&B5&B6&B7).
  destruct (drop_local_rest "client_handler"
              (drop_local "client_socket" (drop_local "server_socket" w)))
    as (C1&C2&C3&C4&C5&C6&C7).
  split_and!; congruence.
Qed.

Lemma leave_frame_socks w x :
  socks (leave_frame w) !! x = close_if (released w x) <$> socks w !! x.
Proof.
  unfold leave_frame, released. cbn [socks set_locals].
  destruct (drop_local_rest "server_socket" w) as (_&_&_&_&A5&A6&_).
  destruct (drop_local_rest "client_socket" (drop_local "server_socket" w))
    as (_&_&_&_&B5&B6&_).
  rewrite !drop_local_socks. unfold closes at 1 2.
  rewrite B5, B6, A5, A6. fold (closes w "client_handler" x).
  fold (closes w "client_socket" x).
  destruct (socks w !! x) as [s|]; [|done]. cbn [fmap option_fmap option_map].
  by rewrite !close_if_close_if, orb_assoc.
Qed.

(** Nothing is released that a thread serves, and nothing that no local
    name holds. *)
Lemma released_thread w c : c ∈ (threads w).*1 → released w c = false.
Proof.
  intros H. unfold released, closes.
  rewrite (bool_decide_eq_false_2 (c ∉ _)) by (by intros ?).
  by rewrite !andb_false_r.
Qed.

Lemma released_held w c :
  released w c = true →
  (c ∉ (threads w).*1)
  ∧ ∃ name, name ∈ ["server_socket"; "client_socket"; "client_handler"]
            ∧ locals w !! name ≫= held = Some c.
Proof.
  unfold released, closes. intros H.
  apply orb_true_iff in H as [H|H]; [apply orb_true_iff in H as [H|H]|];
    apply andb_true_iff in H as [H1 H2];
    apply bool_decide_eq_true in H1, H2; (split; [done|]).
  - exists "server_socket". split; [set_solver|done].
  - exists "client_socket". split; [set_solver|done].
  - exists "client_handler". split; [set_solver|done].
Qed.

(** How [start_server] ends, by how its [try:] ends. *)
Lemma start_server_caught host port w e w1 :
  start_server_try host port (set_locals (frame_of host port) w)
  = (Raise e, w1) →
  start_server host port w =
    (Ok PNone,
     leave_frame
       (set_stdout (stdout w1 ++ [lit "Error encountered in start_server"])
          w1)).
Proof.
  intros H. rewrite start_server_eq.
  unfold returning, bind, try_except, start_server_except. rewrite H.
  by rewrite print_error_line.
Qed.

Lemma start_server_waits host port w w1 :
  start_server_try host port (set_locals (frame_of host port) w)
  = (Block, w1) →
  start_server host port w = (Block, w1).
Proof.
  intros H. rewrite start_server_eq.
  unfold returning, bind, try_except. by rewrite H.
Qed.

(** The world in which [start_server] enters its accept loop. *)
Lemma start_server_try_listening host port w ls fds s :
  fresh_fds w = ls :: fds → open_sock ls w = Some s → port <= 65535 →
  bind_err s = None → listen_err s = None →
  shows (stdout_chars w) host = true →
  start_server_try host port (set_locals (frame_of host port) w) =
    accept_loop ls (listening_world host port ls s w).
Proof.
  intros Hf Ho Hp Hb Hl Hshow.
  unfold start_server_try, bind, socket_socket, store_local, sock_bind,
    sock_listen.
  cbn [fresh_fds set_locals]. rewrite Hf.
  rewrite (proj2 (N.ltb_ge _ _)) by done.
  match goal with |- context [open_sock ls ?w1] =>
    change (open_sock ls w1) with (open_sock ls w) end.
  rewrite Ho, Hb.
  match goal with |- context [open_sock ls ?w1] =>
    change (open_sock ls w1) with (open_sock ls w) end.
  rewrite Ho, Hl. rewrite print_shown.
  - f_equal. unfold listening_world. rewrite Hf.
    by apply world_eq.
  - cbn [stdout_chars set_sock set_locals set_fresh_fds].
    by rewrite !shows_app, Hshow, shows_format_N.
Qed.


(* ===================================================================== *)
(** * Facts about the top level of the module *)
(* ===================================================================== *)

Lemma keeps_fds_ret {A} (a : A) : keeps_fds (ret a).
Proof. done. Qed.

Lemma keeps_fds_raise {A} (e : exn) : keeps_fds (@raise A e).
Proof. done. Qed.

Lemma keeps_fds_bind {A B} (m : M A) (k : A → M B) :
  keeps_fds m → (∀ a, keeps_fds (k a)) → keeps_fds (bind m k).
Proof.
  intros Hm Hk w. unfold bind. specialize (Hm w).
  destruct (m w) as [[a|e|] w1]; simpl in *; [|done..].
  by rewrite Hk.
Qed.

Lemma keeps_fds_try {A} (m : M A) (h : exn → M A) :
  keeps_fds m → (∀ e, keeps_fds (h e)) → keeps_fds (try_except m h).
Proof.
  intros Hm Hh w. unfold try_except. specialize (Hm w).
  destruct (m w) as [[a|e|] w1]; simpl in *; [done| |done].
  by rewrite Hh.
Qed.

Lemma keeps_fds_print line : keeps_fds (print line).
Proof. intros w. unfold print. by destruct (shows _ _). Qed.

Lemma keeps_fds_store name v : keeps_fds (store_global name v).
Proof. done. Qed.

Lemma keeps_fds_load name : keeps_fds (load_global name).
Proof. intros w. unfold load_global. by destruct (globals w !! name). Qed.

Lemma keeps_fds_decode b : keeps_fds (bytes_decode b).
Proof. intros w. unfold bytes_decode. by destruct (Utf8.decode b). Qed.

Lemma keeps_fds_encode s : keeps_fds (str_encode s).
Proof. intros w. unfold str_encode. by destruct (Utf8.encode s). Qed.

Lemma keeps_fds_recv c n : keeps_fds (recv c n).
Proof.
  intros w. unfold recv. destruct (open_sock c w) as [s|]; [|done].
  destruct (rx s) as [|[bs| |e] rest]; try done. by case_decide.
Qed.

Lemma keeps_fds_sendall c data : keeps_fds (sendall c data).
Proof.
  intros w. unfold sendall. destruct (open_sock c w) as [s|]; [|done].
  by destruct (tx s) as [|[|k e] t].
Qed.

Lemma keeps_fds_close c : keeps_fds (close c).
Proof.
  intros w. unfold close. destruct (open_sock c w) as [s|]; [|done].
  by destruct (close_err s).
Qed.

Lemma keeps_fds_connect c host port : keeps_fds (connect_value c host port).
Proof.
  intros w. unfold connect_value.
  destruct host as [|h|z|c0|a0|t0|name|name],
    port as [|h'|p|c1|a1|t1|n1|n1]; try done.
  destruct (p <? 0)%Z; [done|]. unfold sock_connect.
  destruct (65535 <? Z.to_N p); [done|].
  destruct (open_sock c w) as [sk|]; [|done]. by destruct (connect_err sk).
Qed.

Lemma keeps_fds_encode_value v : keeps_fds (encode_value v).
Proof. destruct v; try done. apply keeps_fds_encode. Qed.

Ltac keeps_fds :=
  repeat first
    [ apply keeps_fds_bind; [|intros ?]
    | apply keeps_fds_ret | apply keeps_fds_raise | apply keeps_fds_print
    | apply keeps_fds_store | apply keeps_fds_load | apply keeps_fds_decode
    | apply keeps_fds_encode | apply keeps_fds_recv | apply keeps_fds_sendall
    | apply keeps_fds_close | apply keeps_fds_connect
    | apply keeps_fds_encode_value ].

(** Importing the module creates the client socket. *)
Lemma module_toplevel_creates_socket w c fds :
  fresh_fds w = c :: fds → fresh_fds (module_toplevel w).2 = fds.
Proof.
  intros Hf. unfold module_toplevel.
  repeat (unfold bind at 1; unfold store_global at 1; cbn [fst snd]).
  unfold try_except, client_try. unfold bind at 1, socket_socket at 1.
  cbn [fresh_fds set_globals]. rewrite Hf.
  match goal with
  | |- context [bind ?m ?k ?w1] =>
    assert (Hk : keeps_fds (bind m k)) by keeps_fds;
    specialize (Hk w1); destruct (bind m k w1) as [[a|e|] w2]
  end; cbn [fst snd] in *; rewrite ?keeps_fds_print; by rewrite Hk.
Qed.

(** With [host] unbound, as it is in a fresh module, the client block stops
    at the name and the [except:] prints its line. *)
Lemma module_toplevel_unbound w c fds :
  fresh_fds w = c :: fds → globals w !! "host" = None →
  (module_toplevel w).1 = Ok tt
  ∧ stdout (module_toplevel w).2
    = stdout w ++ [lit "Error encountered in start_client"]
  ∧ socks (module_toplevel w).2 = socks w.
Proof.
  intros Hf Hh.
  destruct (module_toplevel w) as [r w'] eqn:Hres. revert Hres.
  unfold module_toplevel.
  repeat (unfold bind at 1; unfold store_global at 1; cbn [fst snd]).
  unfold try_except, client_try. unfold bind at 1, socket_socket at 1.
  cbn [fresh_fds set_globals]. rewrite Hf.
  unfold bind at 1, store_global at 1.
  unfold bind at 1, load_global at 1.
  cbn [globals set_globals set_fresh_fds].
  rewrite !lookup_insert_ne by (intros ?; discriminate).
  rewrite Hh. rewrite print_shown by (by vm_compute). by intros [= <- <-].
Qed.

(* ===================================================================== *)
(** * Facts about the threads *)
(* ===================================================================== *)

Lemma set_status_id i c st w :
  threads w !! i = Some (c, st) → set_status i st w = w.
Proof.
  intros H. apply world_eq; simpl; try done.
  apply list_eq. intros j. destruct (decide (i = j)) as [<-|Hne].
  - by rewrite list_lookup_alter_eq, H.
  - by rewrite list_lookup_alter_ne.
Qed.

Lemma touch_nothing i c st w :
  threads w !! i = Some (c, st) → touch i c (None, st, []) w = w.
Proof.
  intros H. unfold touch. cbn [fst snd].
  assert (set_stdout (stdout w ++ []) w = w) as ->.
  { apply world_eq; simpl; by rewrite ?app_nil_r. }
  by eapply set_status_id.
Qed.

(** One step of a handler thread is the update [thread_turn] computes from
    the thread's own socket and status. *)
Lemma handler_step_touch i c st w :
  threads w !! i = Some (c, st) →
  handler_step i w
  = touch i c (thread_turn (stdout_chars w) (open_sock c w) st) w.
Proof.
  intros Hi. unfold handler_step. rewrite Hi.
  destruct st as [| |e];
    [|cbn [thread_turn]; by rewrite (touch_nothing i c)..].
  destruct (open_sock c w) as [s|] eqn:Hopen.
  - rewrite (session_iter_turn c w s Hopen). cbn [thread_turn].
    destruct (sock_turn (stdout_chars w) s) as [[r s'] out] eqn:Hturn.
    apply sock_turn_spec in Hturn as (Hsame & _).
    destruct Hsame as (_&_&_&_&_&_&Hcl).
    apply open_sock_Some in Hopen as [Hs Hc]. rewrite Hc in Hcl.
    set (w1 := set_stdout (stdout w ++ out) (set_sock c s' w)).
    assert (Hi1 : threads w1 !! i = Some (c, TRunning)) by done.
    destruct r as [[|]|e|]; unfold touch; cbn [fst snd]; fold w1.
    + by rewrite (set_status_id i c TRunning w1).
    + unfold close.
      assert (open_sock c w1 = Some s') as ->.
      { apply open_sock_Some. split; [apply lookup_insert_eq|done]. }
      assert (set_sock c (set_closed true s') w1
              = set_stdout (stdout w ++ out)
                  (set_sock c (set_closed true s') w)) as ->.
      { apply world_eq; simpl; try done. apply insert_insert_eq. }
      by destruct (close_err s').
    + done.
    + by rewrite (set_status_id i c TRunning w1).
  - rewrite session_iter_not_open by done. unfold close. rewrite Hopen.
    cbn [thread_turn]. unfold touch. cbn [fst snd].
    f_equal. apply world_eq; simpl; by rewrite ?app_nil_r.
Qed.

Lemma agree_refl c w : agree c w w.
Proof.
  split_and!; try done. apply Forall_Forall2_diag, Forall_forall. done.
Qed.

Lemma touch_threads i c u w :
  threads (touch i c u w) = alter (λ p, (p.1, u.1.2)) i (threads w).
Proof. unfold touch. by destruct u.1.1. Qed.

Lemma touch_socks i c u w :
  socks (touch i c u w)
  = match u.1.1 with Some s' => <[c := s']> (socks w) | None => socks w end.
Proof. unfold touch. by destruct u.1.1. Qed.

Lemma touch_rest i c u w :
  thread_budget (touch i c u w) = thread_budget w
  ∧ fresh_fds (touch i c u w) = fresh_fds w
  ∧ stdout_chars (touch i c u w) = stdout_chars w
  ∧ globals (touch i c u w) = globals w
  ∧ locals (touch i c u w) = locals w.
Proof. unfold touch. by destruct u.1.1. Qed.

(** A thread that serves socket [c] cannot disturb the agreement. *)
Lemma agree_touch_left c i st u w1 w2 :
  threads w1 !! i = Some (c, st) →
  agree c w1 w2 → agree c (touch i c u w1) w2.
Proof.
  intros Hi (Hs & Ht & Hb & Hf & Hch & Hg & Hl).
  destruct (touch_rest i c u w1) as (Eb & Ef & Ec & Eg & El).
  unfold agree. rewrite Eb, Ef, Ec, Eg, El.
  split_and!; try done.
  - intros c' Hc. rewrite touch_socks, <-Hs by done.
    destruct u.1.1; [by rewrite lookup_insert_ne|done].
  - rewrite touch_threads. apply Forall2_alter_l; [done|].
    intros [c1 st1] [c2 st2] H1 _ [Hfd Hst]. simpl in *.
    rewrite Hi in H1. injection H1 as <- <-. done.
Qed.

(** A thread that takes the same step in both worlds keeps them agreeing. *)
Lemma agree_touch_both c j cj st1 st2 u1 u2 w1 w2 :
  threads w1 !! j = Some (cj, st1) →
  threads w2 !! j = Some (cj, st2) →
  (cj ≠ c → u1 = u2) →
  agree c w1 w2 → agree c (touch j cj u1 w1) (touch j cj u2 w2).
Proof.
  intros H1 H2 Hu (Hs & Ht & Hb & Hf & Hch & Hg & Hl).
  destruct (touch_rest j cj u1 w1) as (Eb1 & Ef1 & Ec1 & Eg1 & El1).
  destruct (touch_rest j cj u2 w2) as (Eb2 & Ef2 & Ec2 & Eg2 & El2).
  unfold agree. rewrite Eb1, Ef1, Ec1, Eg1, El1, Eb2, Ef2, Ec2, Eg2, El2.
  split_and!; try done.
  - intros c' Hc. rewrite !touch_socks.
    destruct (decide (cj = c)) as [->|Hne].
    + destruct u1.1.1, u2.1.1; rewrite ?lookup_insert_ne by done; by apply Hs.
    + rewrite (Hu Hne). destruct u2.1.1 as [s'|]; [|by apply Hs].
      destruct (decide (cj = c')) as [->|Hne'].
      * by rewrite !lookup_insert_eq.
      * rewrite !lookup_insert_ne by done. by apply Hs.
  - rewrite !touch_threads. apply Forall2_alter; [done|].
    intros [c1 s1] [c2 s2] Hl1 Hl2 [Hfd Hst]. simpl in *.
    rewrite H1 in Hl1. injection Hl1 as <- <-.
    split; [done|]. intros Hne. by rewrite (Hu Hne).
Qed.

Lemma agree_open_sock c c' w1 w2 :
  agree c w1 w2 → c' ≠ c → open_sock c' w1 = open_sock c' w2.
Proof. intros (Hs & _) Hc. unfold open_sock. by rewrite Hs. Qed.

(** A handler step taken in both worlds. *)
Lemma agree_handler_step c j w1 w2 :
  agree c w1 w2 → agree c (handler_step j w1) (handler_step j w2).
Proof.
  intros Hag. pose proof Hag as (_ & Ht & _ & _ & Hc & _).
  destruct (threads w1 !! j) as [[cj st1]|] eqn:H1.
  - destruct (Forall2_lookup_l _ _ _ _ _ Ht H1) as ([c2 st2] & H2 & Hfd & Hst).
    simpl in *. subst c2.
    rewrite (handler_step_touch j cj st1 w1), (handler_step_touch j cj st2 w2)
      by done.
    apply (agree_touch_both c j cj st1 st2); try done.
    intros Hne. by rewrite (agree_open_sock c cj w1 w2), (Hst Hne), Hc.
  - assert (H2 : threads w2 !! j = None).
    { apply lookup_ge_None. apply lookup_ge_None in H1.
      by rewrite <-(Forall2_length _ _ _ Ht). }
    unfold handler_step. by rewrite H1, H2.
Qed.

(** A handler step of a thread that serves [c], taken in the first world
    only. *)
Lemma agree_handler_step_left c i st w1 w2 :
  threads w1 !! i = Some (c, st) →
  agree c w1 w2 → agree c (handler_step i w1) w2.
Proof.
  intros Hi Hag. rewrite (handler_step_touch i c st w1) by done.
  by eapply agree_touch_left.
Qed.

Lemma handler_step_thread i j c st w :
  threads w !! i = Some (c, st) →
  ∃ st', threads (handler_step j w) !! i = Some (c, st').
Proof.
  intros Hi. destruct (threads w !! j) as [[cj stj]|] eqn:Hj.
  - rewrite (handler_step_touch j cj stj w) by done. rewrite touch_threads.
    destruct (decide (j = i)) as [->|Hne].
    + rewrite list_lookup_alter_eq, Hi. simpl. eauto.
    + rewrite list_lookup_alter_ne by done. eauto.
  - unfold handler_step. rewrite Hj. eauto.
Qed.

Lemma agree_fds c w1 w2 : agree c w1 w2 → (threads w1).*1 = (threads w2).*1.
Proof.
  intros (_ & Ht & _). revert Ht. generalize (threads w1) (threads w2).
  induction 1 as [|[c1 s1] [c2 s2] l1 l2 [Hfd _] _ IH]; [done|].
  csimpl in *. by rewrite Hfd, IH.
Qed.

Lemma agree_set_sock c x s' w1 w2 :
  agree c w1 w2 → agree c (set_sock x s' w1) (set_sock x s' w2).
Proof.
  intros (Hs&?&?&?&?&?&?). split_and!; try done. intros c' Hc. simpl.
  destruct (decide (x = c')) as [->|Hne].
  - by rewrite !lookup_insert_eq.
  - rewrite !lookup_insert_ne by done. by apply Hs.
Qed.

Lemma agree_set_stdout c o1 o2 w1 w2 :
  agree c w1 w2 → agree c (set_stdout o1 w1) (set_stdout o2 w2).
Proof. intros (?&?&?&?&?&?&?). by split_and!. Qed.

Lemma agree_taken c ls s p rest w1 w2 :
  agree c w1 w2 → agree c (taken ls s p rest w1) (taken ls s p rest w2).
Proof.
  intros Hag. unfold taken.
  destruct (agree_set_stdout c (stdout w1 ++ [accepted_line p])
              (stdout w2 ++ [accepted_line p]) _ _
              (agree_set_sock c ls (set_backlog rest s) w1 w2 Hag))
    as (?&?&?&?&?&?&Hl).
  split_and!; try done. simpl in *. by rewrite Hl.
Qed.

Lemma agree_released c w1 w2 x :
  agree c w1 w2 → released w1 x = released w2 x.
Proof.
  intros Hag. pose proof (agree_fds c w1 w2 Hag) as Hfd.
  destruct Hag as (_&_&_&_&_&_&Hl).
  unfold released, closes. by rewrite Hl, Hfd.
Qed.

(** The end of the call, in both worlds. *)
Lemma agree_leave_frame c w1 w2 :
  agree c w1 w2 → agree c (leave_frame w1) (leave_frame w2).
Proof.
  intros Hag. pose proof Hag as (Hs & Ht & Hb & Hf & Hc & Hg & Hl).
  destruct (leave_frame_rest w1) as (A1&A2&A3&A4&A5&A6&A7).
  destruct (leave_frame_rest w2) as (B1&B2&B3&B4&B5&B6&B7).
  unfold agree. rewrite A1, A3, A4, A5, A6, A7, B1, B3, B4, B5, B6, B7.
  split_and!; try done.
  intros c' Hne. rewrite !leave_frame_socks, (agree_released c w1 w2) by done.
  by rewrite Hs.
Qed.

Lemma server_exit_eq w :
  returning (start_server_except ;; ret PNone) w
  = (Ok PNone,
     leave_frame
       (set_stdout (stdout w ++ [lit "Error encountered in start_server"])
          w)).
Proof.
  unfold returning, bind, start_server_except. by rewrite print_error_line.
Qed.

(** A turn of the accept loop taken in both worlds, on a listening socket
    other than [c]. *)
Lemma agree_accept_iter c ls w1 w2 :
  ls ≠ c → agree c w1 w2 →
  (accept_iter ls w1).1 = (accept_iter ls w2).1
  ∧ agree c (accept_iter ls w1).2 (accept_iter ls w2).2
  ∧ ∃ l, threads (accept_iter ls w1).2 = threads w1 ++ l.
Proof.
  intros Hls Hag. pose proof Hag as (Hs & Ht & Hb & Hf & Hc & Hg & Hl).
  assert (Hnil : ∀ w, ∃ l : list (fd * tstatus), threads w = threads w ++ l)
    by (intros w; exists []; by rewrite app_nil_r).
  pose proof (agree_open_sock c ls w1 w2 Hag Hls) as Ho.
  destruct (open_sock ls w1) as [s|] eqn:Ho1; symmetry in Ho.
  2:{ rewrite !accept_iter_closed by done. by split_and!. }
  destruct (listening s) eqn:Hlis.
  2:{ rewrite !(accept_iter_deaf ls _ s) by done. by split_and!. }
  destruct (backlog s) as [|[c' peer|e] rest] eqn:Hbl.
  - rewrite !(accept_iter_empty ls _ s) by done. by split_and!.
  - destruct (thread_budget w1) as [|n] eqn:Hn.
    + rewrite !(accept_iter_no_thread ls _ s (c', peer) rest)
        by first [done|congruence].
      split_and!; [done|by apply agree_taken|].
      exists []. simpl. by rewrite app_nil_r.
    + rewrite !(accept_iter_accepted ls _ s (c', peer) rest n)
        by first [done|congruence].
      split_and!; [done| |by eexists].
      destruct (agree_taken c ls s (c', peer) rest w1 w2 Hag)
        as (?&?&?&?&?&?&?).
      split_and!; try done. simpl. apply Forall2_app; [done|].
      by repeat constructor.
  - rewrite !(accept_iter_err ls _ s e rest) by done.
    split_and!; [done|by apply agree_set_sock|].
    exists []. simpl. by rewrite app_nil_r.
Qed.

(** Whatever a session does, and whether it runs at all, every other
    session and the accept loop proceed in the same way. *)
Lemma run_unaffected c i sched : ∀ s1 s2 st,
  threads (sys_world s1) !! i = Some (c, st) →
  sys_listener s1 ≠ Some c →
  unaffected c s1 s2 →
  unaffected c (run sched s1) (run (filter (λ t, t ≠ Handler i) sched) s2).
Proof.
  unfold run.
  induction sched as [|t sched IH]; intros s1 s2 st Hi Hls [Hl Hag]; [done|].
  rewrite filter_cons. destruct t as [|j].
  - rewrite decide_True by done. cbn [foldl].
    destruct s1 as [w1 l1], s2 as [w2 l2]. simpl in *. subst l2.
    destruct l1 as [ls|]; [|by eapply IH].
    assert (ls ≠ c) by congruence.
    destruct (agree_accept_iter c ls w1 w2) as (Hr & Hag' & (l & Hth)); [done..|].
    unfold listener_step; cbn [sys_listener sys_world].
    destruct (accept_iter ls w1) as [r1 w1'], (accept_iter ls w2) as [r2 w2'].
    simpl in *. subst r2.
    assert (Hi' : threads w1' !! i = Some (c, st)).
    { rewrite Hth. by apply lookup_app_l_Some. }
    destruct r1 as [[]|e|]; [by eapply IH| |by eapply IH].
    rewrite !server_exit_eq. cbn [snd].
    eapply IH; cbn [sys_world sys_listener].
    + destruct (leave_frame_rest
                  (set_stdout
                     (stdout w1' ++ [lit "Error encountered in start_server"])
                     w1')) as (_&_&_&_&_&->&_). exact Hi'.
    + done.
    + split; [done|]. by apply agree_leave_frame, agree_set_stdout.
  - case_decide as Hj.
    + cbn [foldl]. destruct (handler_step_thread i j c st (sys_world s1) Hi)
        as [st' Hi'].
      eapply IH; [exact Hi'|done|].
      split; [done|]. by apply agree_handler_step.
    + assert (j = i) as -> by (destruct (decide (j = i)); congruence).
      cbn [foldl]. destruct (handler_step_thread i i c st (sys_world s1) Hi)
        as [st' Hi'].
      eapply IH; [exact Hi'|done|].
      split; [done|]. by eapply agree_handler_step_left.
Qed.

Lemma session_loop_never_raises c w e : (session_loop c w).1 ≠ Raise e.
Proof.
  destruct (open_sock c w) as [s|] eqn:Hopen.
  - destruct (session_loop_run c w s Hopen) as (s' & out & Hrun & _).
    apply sock_run_spec in Hrun as (_ & Hraise & _). apply Hraise.
  - by rewrite session_loop_not_open.
Qed.

(** The only exception that can leave the handler is the one of the final
    close. *)
Lemma handle_clientconnection_raises c w e :
  (handle_clientconnection c w).1 = Raise e →
  ∃ s, open_sock c w = Some s ∧ close_err s = Some e.
Proof.
  destruct (open_sock c w) as [s|] eqn:Hopen.
  - destruct (handle_clientconnection_run c w s Hopen)
      as (r & s' & out & Hrun & ->).
    apply sock_run_spec in Hrun as (_ & Hraise & _).
    destruct r as [[]|e'|]; cbn [fst].
    + destruct (close_err s) as [e'|] eqn:Hce; [|done].
      intros [= ->]. by exists s.
    + by destruct (Hraise e').
    + done.
  - by rewrite handle_clientconnection_not_open.
Qed.

(** A handler thread left to run by itself does what the handler function
    does. *)
Lemma handler_thread_run i c w s r s' out :
  threads w !! i = Some (c, TRunning) →
  open_sock c w = Some s →
  sock_run (stdout_chars w) s r s' out →
  ∃ n,
    Nat.iter n (handler_step i) w
    = match r with
      | Ok _ =>
        set_status i
          (match close_err s with Some e => TCrashed e | None => TFinished end)
          (set_stdout (stdout w ++ out) (set_sock c (set_closed true s') w))
      | _ =>
        set_status i TRunning
          (set_stdout (stdout w ++ out) (set_sock c s' w))
      end.
Proof.
  intros Hi Hopen Hrun. remember (stdout_chars w) as chars eqn:Hch.
  revert w Hi Hopen Hch.
  induction Hrun as [s s' out Hturn|s s' out Hturn
                    |s s1 out1 r s2 out2 Hturn Hrun IH];
    intros w Hi Hopen ->.
  - exists 1%nat. cbn [Nat.iter nat_rect].
    rewrite (handler_step_touch i c TRunning w), Hopen by done.
    cbn [thread_turn]. rewrite Hturn.
    apply sock_turn_spec in Hturn as ((_&_&_&->&_) & _). done.
  - exists 1%nat. cbn [Nat.iter nat_rect].
    rewrite (handler_step_touch i c TRunning w), Hopen by done.
    cbn [thread_turn]. by rewrite Hturn.
  - set (w1 := set_stdout (stdout w ++ out1) (set_sock c s1 w)).
    assert (Hstep : handler_step i w = w1).
    { rewrite (handler_step_touch i c TRunning w), Hopen by done.
      cbn [thread_turn]. rewrite Hturn. unfold touch. cbn [fst snd].
      fold w1. by apply (set_status_id i c). }
    pose proof (sock_turn_spec _ _ _ _ _ Hturn) as ((_&_&_&Hce&_&_&Hcl) & _).
    apply open_sock_Some in Hopen as [Hs Hc].
    destruct (IH w1) as [n Hn]; [done| |done|].
    { apply open_sock_Some. split; [apply lookup_insert_eq|congruence]. }
    exists (S n). rewrite Nat.iter_succ_r, Hstep, Hn. rewrite Hce.
    destruct r as [[]|e|]; f_equal; apply set_stdout_set_sock_again.
Qed.

Lemma handler_thread_adequate i c w :
  threads w !! i = Some (c, TRunning) →
  ∃ n,
    Nat.iter n (handler_step i) w
    = set_status i (status_of (handle_clientconnection c w).1)
        (handle_clientconnection c w).2.
Proof.
  intros Hi. destruct (open_sock c w) as [s|] eqn:Hopen.
  - destruct (handle_clientconnection_run c w s Hopen)
      as (r & s' & out & Hrun & Hh).
    destruct (handler_thread_run i c w s r s' out Hi Hopen Hrun) as [n Hn].
    exists n. rewrite Hn, Hh.
    pose proof (sock_run_spec _ _ _ _ _ Hrun) as (_ & Hraise & _).
    destruct r as [[]|e|]; cbn [fst snd]; [|by destruct (Hraise e)|done].
    by destruct (close_err s).
  - exists 1%nat. cbn [Nat.iter nat_rect].
    rewrite (handler_step_touch i c TRunning w), Hopen by done.
    rewrite handle_clientconnection_not_open by done.
    cbn [thread_turn fst snd status_of]. unfold touch. cbn [fst snd].
    f_equal. apply world_eq; simpl; by rewrite ?app_nil_r.
Qed.

(** The main thread left to run by itself does what the accept loop of
    [start_server] does. *)
Lemma listener_thread_adequate ls w :
  ∃ n,
    Nat.iter n listener_step (System w (Some ls))
    = match accept_loop ls w with
      | (Raise e, w') =>
        System (returning (start_server_except ;; ret PNone) w').2 None
      | (_, w') => System w' (Some ls)
      end.
Proof.
  funelim (accept_loop ls w);
    match goal with H : accept_iter _ _ = _ |- _ => rename H into Hit end.
  - match goal with IH : ∃ _, _ |- _ => destruct IH as [n Hn] end.
    exists (S n). rewrite Nat.iter_succ_r.
    unfold listener_step at 2. cbn [sys_listener sys_world]. rewrite Hit.
    exact Hn.
  - exists 1%nat. cbn [Nat.iter nat_rect]. unfold listener_step.
    cbn [sys_listener sys_world]. by rewrite Hit.
  - exists 1%nat. cbn [Nat.iter nat_rect]. unfold listener_step.
    cbn [sys_listener sys_world]. by rewrite Hit.
Qed.

(* ===================================================================== *)
(** * Examples *)
(* ===================================================================== *)

(** The codec on the euro sign, on the last code point, and on the
    sequences that strict UTF-8 refuses: a lone continuation byte, an
    overlong form, a surrogate, a value above U+10FFFF, a truncated
    character. *)
Example decode_euro : Utf8.decode [xe2; x82; xac] = Some [0x20AC].
Proof. reflexivity. Qed.

Example encode_euro : Utf8.encode [0x20AC] = Some [xe2; x82; xac].
Proof. reflexivity. Qed.

Example decode_last : Utf8.decode [xf4; x8f; xbf; xbf] = Some [0x10FFFF].
Proof. reflexivity. Qed.

Example decode_refuses :
  Utf8.decode [x80] = None
  ∧ Utf8.decode [xc0; x80] = None
  ∧ Utf8.decode [xed; xa0; x80] = None
  ∧ Utf8.decode [xf4; x90; x80; x80] = None
  ∧ Utf8.decode [xe2; x82] = None.
Proof. by split_and!. Qed.

Example encode_refuses_surrogate : Utf8.encode [0xD800] = None.
Proof. reflexivity. Qed.

(** A session: two requests, then the peer shuts down. *)
Example session_of_two_requests :
  let w := world_of {[ 7%nat := peer_sends [RxData (blit "one");
                                            RxData (blit "two"); RxEof] ]}
             [] 0 in
  (handle_clientconnection 7 w).1 = Ok PNone
  ∧ sent_on 7 (handle_clientconnection 7 w).2
    = [blit "Server received: one"; blit "Server received: two"]
  ∧ stdout (handle_clientconnection 7 w).2
    = [lit "Received from client: one"; lit "Received from client: two"]
  ∧ open_sock 7 (handle_clientconnection 7 w).2 = None.
Proof. split_and!; by vm_compute. Qed.

(** A send that fails after five bytes ends the session. *)
Example session_with_failing_send :
  let s := set_tx_sent [TxErr 5 BrokenPipeError] []
             (peer_sends [RxData (blit "one"); RxData (blit "two")]) in
  let w := world_of {[ 7%nat := s ]} [] 0 in
  (handle_clientconnection 7 w).1 = Ok PNone
  ∧ sent_on 7 (handle_clientconnection 7 w).2 = [blit "Serve"]
  ∧ open_sock 7 (handle_clientconnection 7 w).2 = None.
Proof. split_and!; by vm_compute. Qed.

(** The server: it listens, accepts one connection, and a failing accept
    ends it. *)
Example server_until_accept_fails :
  let w := world_of {[ 3%nat := queue_of [Accepted 7 (Addr (127, 0, 0, 1) 40000);
                                          AcceptErr OSError] ]} [3%nat] 8 in
  (start_server (lit "") 9000 w).1 = Ok PNone
  ∧ threads (start_server (lit "") 9000 w).2 = [(7%nat, TRunning)]
  ∧ stdout (start_server (lit "") 9000 w).2
    = [lit "Server listening on :9000";
       lit "Connection was accepted from ('127.0.0.1', 40000)";
       lit "Error encountered in start_server"].
Proof. split_and!; by vm_compute. Qed.

(** The client block at the top level, in a namespace where the three names
    are bound: it connects, sends the message and prints the answer. *)
Example toplevel_with_names_bound :
  let g : gmap string pyval :=
    {[ "host" := PStr (lit "localhost"); "port" := PInt 9000;
       "message" := PStr (lit "hi") ]} in
  let w := World {[ 4%nat := peer_sends [RxData (blit "Server received: hi")] ]}
             [4%nat] [] utf8_chars g ∅ [] 0 in
  (module_toplevel w).1 = Ok tt
  ∧ sent_on 4 (module_toplevel w).2 = [blit "hi"]
  ∧ stdout (module_toplevel w).2
    = [lit "Received from server: Server received: hi"]
  ∧ open_sock 4 (module_toplevel w).2 = None.
Proof. split_and!; by vm_compute. Qed.

(** Standard output in ASCII.  The handler prints a request before it
    answers it: a request with a character that standard output does not
    have raises at the print, and the session ends without a reply. *)
Example session_on_ascii_stdout :
  let w := World {[ 7%nat := peer_sends [RxData [xc3; xa9]; RxEof] ]} [] []
             ascii_chars ∅ ∅ [] 0 in
  (session_try 7 w).1 = Raise UnicodeEncodeError
  ∧ (handle_clientconnection 7 w).1 = Ok PNone
  ∧ sent_on 7 (handle_clientconnection 7 w).2 = []
  ∧ stdout (handle_clientconnection 7 w).2 = []
  ∧ open_sock 7 (handle_clientconnection 7 w).2 = None.
Proof. split_and!; by vm_compute. Qed.

(** The same request on Latin-1 standard output is answered. *)
Example session_on_latin1_stdout :
  let w := World {[ 7%nat := peer_sends [RxData [xc3; xa9]; RxEof] ]} [] []
             latin1_chars ∅ ∅ [] 0 in
  sent_on 7 (handle_clientconnection 7 w).2 = [echo_prefix ++ [xc3; xa9]]
  ∧ stdout (handle_clientconnection 7 w).2
    = [lit "Received from client: " ++ [233]].
Proof. split_and!; by vm_compute. Qed.

(** The server with a host that standard output cannot show: the line that
    announces it raises, no connection is accepted, and the listening
    socket is closed when the function returns. *)
Example server_with_unshowable_host :
  let a := Addr (127, 0, 0, 1) 40000 in
  let w := World {[ 3%nat := queue_of [Accepted 7 a] ]} [3%nat] []
             ascii_chars ∅ ∅ [] 8 in
  let w' := (start_server [98; 252; 99; 104; 101; 114] 9000 w).2 in
  (start_server [98; 252; 99; 104; 101; 114] 9000 w).1 = Ok PNone
  ∧ threads w' = []
  ∧ stdout w' = [lit "Error encountered in start_server"]
  ∧ socks w' !! 3%nat
    = Some (set_closed true (set_listening true (queue_of [Accepted 7 a]))).
Proof. split_and!; by vm_compute. Qed.

(** When [start_server] returns, the sockets that only its local names
    refer to are closed: the listening socket, and the socket of a
    connection whose thread could not be started.  The socket of a thread
    that runs stays open. *)
Example server_return_closes_sockets :
  let a1 := Addr (10, 0, 0, 1) 50001 in
  let a2 := Addr (10, 0, 0, 2) 50002 in
  let w := world_of {[ 3%nat := queue_of [Accepted 7 a1; Accepted 8 a2];
                       7%nat := peer_sends [];
                       8%nat := peer_sends [] ]} [3%nat] 1 in
  let w' := (start_server (lit "localhost") 8080 w).2 in
  (start_server (lit "localhost") 8080 w).1 = Ok PNone
  ∧ threads w' = [(7%nat, TRunning)]
  ∧ open_sock 3 w' = None
  ∧ open_sock 7 w' = Some (peer_sends [])
  ∧ open_sock 8 w' = None
  ∧ locals w' = ∅.
Proof. split_and!; by vm_compute. Qed.

(* ===================================================================== *)
(** * More facts about the session loop *)
(* ===================================================================== *)

Lemma data_stream_turn bs rest :
  data_stream (RxData bs :: rest)
  = take 1024 bs
    ++ data_stream (if decide (length bs ≤ 1024)%nat then rest
                    else RxData (drop 1024 bs) :: rest).
Proof.
  case_decide; cbn [data_stream].
  - by rewrite take_ge.
  - by rewrite app_assoc, take_drop.
Qed.

Lemma reads_of_turn bs rest :
  bs ≠ [] →
  reads_of (RxData bs :: rest)
  = take 1024 bs
    :: reads_of (if decide (length bs ≤ 1024)%nat then rest
                 else RxData (drop 1024 bs) :: rest).
Proof.
  intros Hbs. destruct bs as [|b bs]; [done|].
  cbn [reads_of]. rewrite chunks_cons. case_decide.
  - rewrite drop_ge by done. by simp chunks.
  - done.
Qed.

Lemma concat_reads_of evs : concat (reads_of evs) = data_stream evs.
Proof.
  induction evs as [|[bs| |e] evs IH]; try done.
  cbn [reads_of data_stream]. rewrite concat_app, IH.
  by destruct (chunks_bounded (length bs) bs) as [-> _].
Qed.

Lemma reads_of_bounded evs :
  Forall (λ ch, (length ch ≤ 1024)%nat ∧ ch ≠ []) (reads_of evs).
Proof.
  induction evs as [|[bs| |e] evs IH]; try by constructor.
  cbn [reads_of]. apply Forall_app. split; [|done].
  by destruct (chunks_bounded (length bs) bs) as [_ ?].
Qed.

Lemma raw_replies_to t reads news :
  raw_replies t reads news → replies_to reads news.
Proof.
  intros [->|(chs & ch & k & e & -> & _ & ->)]; [by left|].
  right. by exists chs, ch, k.
Qed.

(** What one turn adds: nothing, or one line and one write for the chunk it
    read, which is the next read of the peer's stream. *)
Lemma sock_turn_trace chars s r s' out :
  sock_turn chars s = (r, s', out) →
  (out = [] ∧ sent s' = sent s ∧ r ≠ Ok Continue)
  ∨ ∃ ch text m,
      out = [log_line text] ∧ Utf8.decode ch = Some text
      ∧ shows chars text = true
      ∧ sent s' = sent s ++ [m]
      ∧ reads_of (rx s) = ch :: reads_of (rx s')
      ∧ tx s' = tail (tx s)
      ∧ ((r = Ok Continue ∧ m = echo_prefix ++ ch
          ∧ ∀ k e, head (tx s) ≠ Some (TxErr k e))
         ∨ (r = Ok Break
            ∧ ∃ k e, m = take k (echo_prefix ++ ch)
                     ∧ head (tx s) = Some (TxErr k e))).
Proof.
  unfold sock_turn.
  destruct (rx s) as [|[bs| |err] rest] eqn:Hrx;
    [by intros [= <- <- <-]; left| |by intros [= <- <- <-]; left..].
  cbv zeta.
  destruct (Utf8.decode (take 1024 bs)) as [text|] eqn:Hdec;
    [|by intros [= <- <- <-]; left].
  case_bool_decide as Htext; [by intros [= <- <- <-]; left|].
  rewrite shows_log_line.
  destruct (shows chars text) eqn:Hshow; [|by intros [= <- <- <-]; left].
  assert (Hbs : bs ≠ []).
  { intros ->. by injection Hdec as <-. }
  pose proof (reads_of_turn bs rest Hbs) as Hreads.
  destruct (tx s) as [|[|k e] t]; intros [= <- <- <-]; right;
    exists (take 1024 bs), text.
  - exists (echo_prefix ++ take 1024 bs).
    split_and!; [done|done|done|done|exact Hreads|done|by left].
  - exists (echo_prefix ++ take 1024 bs).
    split_and!; [done|done|done|done|exact Hreads|done|by left].
  - exists (take k (echo_prefix ++ take 1024 bs)).
    split_and!; [done|done|done|done|exact Hreads|done|].
    right. split; [done|]. by exists k, e.
Qed.

(** What a run of the loop adds: the chunks it answered are the first
    reads of the peer's stream, each was decoded and logged, and each was
    answered in full unless its send failed. *)
Lemma sock_run_trace chars s r s' out :
  sock_run chars s r s' out →
  ∃ chunks texts news,
    sent s' = sent s ++ news
    ∧ out = log_line <$> texts
    ∧ Forall2 (λ ch text, Utf8.decode ch = Some text) chunks texts
    ∧ Forall (λ text, shows chars text = true) texts
    ∧ raw_replies (tx s) chunks news
    ∧ chunks `prefix_of` reads_of (rx s).
Proof.
  assert (Hnone : ∀ s s', sent s' = sent s →
    ∃ chunks texts news,
      sent s' = sent s ++ news ∧ [] = log_line <$> texts
      ∧ Forall2 (λ ch text, Utf8.decode ch = Some text) chunks texts
      ∧ Forall (λ text, shows chars text = true) texts
      ∧ raw_replies (tx s) chunks news
      ∧ chunks `prefix_of` reads_of (rx s)).
  { intros s0 s0' Hs. exists [], [], []. rewrite app_nil_r.
    split_and!; [done|done|constructor|constructor|by left|apply prefix_nil]. }
  induction 1 as [s s' out Hturn|s s' out Hturn
                 |s s1 out1 r s2 out2 Hturn Hrun IH].
  - apply sock_turn_trace in Hturn
      as [(-> & Hs & _)
         |(ch & text & m & -> & Hdec & Hsh & Hs & Hst & Htx & Hm)];
      [by apply Hnone|].
    destruct Hm as [[[=] _]|[_ (k & e & -> & Hhd)]].
    exists [ch], [text], [take k (echo_prefix ++ ch)].
    split_and!; try done.
    + by repeat constructor.
    + by repeat constructor.
    + right. exists [], ch, k, e. split_and!; [done| |done].
      by rewrite <-head_lookup.
    + rewrite Hst. apply prefix_cons, prefix_nil.
  - apply sock_turn_trace in Hturn
      as [(-> & Hs & _)
         |(ch & text & m & -> & Hdec & Hsh & Hs & Hst & Htx & Hm)];
      [by apply Hnone|].
    by destruct Hm as [[[=] _]|[[=] _]].
  - apply sock_turn_trace in Hturn
      as [(-> & Hs & Hne)
         |(ch & text & m & -> & Hdec & Hsh & Hs & Hst & Htx & Hm)];
      [done|].
    destruct Hm as [(_ & -> & Hok)|[[=] _]].
    destruct IH
      as (chunks & texts & news & Hs2 & -> & Hf & Hshs & Hrep & Hpre).
    exists (ch :: chunks), (text :: texts), ((echo_prefix ++ ch) :: news).
    split_and!.
    + by rewrite Hs2, Hs, <-app_assoc.
    + done.
    + by constructor.
    + by constructor.
    + destruct Hrep as [->|(chs & ch' & k & e & -> & Hk & ->)]; [by left|].
      right. exists (ch :: chs), ch', k, e. split_and!; [done| |done].
      rewrite Htx in Hk. cbn [length]. by rewrite <-lookup_tail.
    + rewrite Hst. by apply prefix_cons.
Qed.

(** The same for the handler. *)
Lemma handle_clientconnection_raw_trace c w s :
  open_sock c w = Some s →
  ∃ chunks texts news,
    sent_on c (handle_clientconnection c w).2 = sent s ++ news
    ∧ stdout (handle_clientconnection c w).2 = stdout w ++ (log_line <$> texts)
    ∧ Forall2 (λ ch text, Utf8.decode ch = Some text) chunks texts
    ∧ Forall (λ text, shows (stdout_chars w) text = true) texts
    ∧ raw_replies (tx s) chunks news
    ∧ chunks `prefix_of` reads_of (rx s).
Proof.
  intros Hopen.
  destruct (handle_clientconnection_run c w s Hopen)
    as (r & s' & out & Hrun & ->).
  apply sock_run_trace in Hrun
    as (chunks & texts & news & Hs & -> & Hf & Hsh & Hrep & Hpre).
  exists chunks, texts, news.
  destruct r as [[]|e|]; cbn [snd]; rewrite sent_on_set; by split_and!.
Qed.

Lemma prefix_concat (l1 l2 : list bytes) :
  l1 `prefix_of` l2 → concat l1 `prefix_of` concat l2.
Proof. intros [k ->]. rewrite concat_app. by apply prefix_app_r. Qed.

Lemma handle_clientconnection_trace c w s :
  open_sock c w = Some s →
  ∃ chunks texts news,
    sent_on c (handle_clientconnection c w).2 = sent s ++ news
    ∧ stdout (handle_clientconnection c w).2 = stdout w ++ (log_line <$> texts)
    ∧ Forall2 (λ ch text, Utf8.decode ch = Some text) chunks texts
    ∧ replies_to chunks news
    ∧ concat chunks `prefix_of` data_stream (rx s).
Proof.
  intros Hopen.
  destruct (handle_clientconnection_raw_trace c w s Hopen)
    as (chunks & texts & news & Hs & Hout & Hf & _ & Hrep & Hpre).
  exists chunks, texts, news. split_and!; try done.
  - by eapply raw_replies_to.
  - rewrite <-concat_reads_of. by apply prefix_concat.
Qed.

Lemma replies_to_length chunks news :
  replies_to chunks news → length news = length chunks.
Proof.
  intros [->|(chs & ch & k & -> & ->)].
  - by rewrite length_fmap.
  - by rewrite !length_app, length_fmap.
Qed.

(** A peer that sends one well-formed chunk per read and then shuts down
    or fails, on a socket of which no send fails. *)
Lemma sock_run_requests chars (pieces : list bytes) :
  ∀ (s : sock) ev rest,
  rx s = (RxData <$> pieces) ++ ev :: rest →
  (∀ bs, ev ≠ RxData bs) →
  Forall (λ t, t = TxOk) (tx s) →
  Forall (λ p, p ≠ [] ∧ (length p ≤ 1024)%nat ∧ shown chars p) pieces →
  ∃ s' texts,
    sock_run chars s (Ok tt) s' (log_line <$> texts)
    ∧ sent s' = sent s ++ ((λ p, echo_prefix ++ p) <$> pieces)
    ∧ Forall2 (λ p text, Utf8.decode p = Some text) pieces texts.
Proof.
  induction pieces as [|p pieces IH]; intros s ev rest Hrx Hev Htx Hall.
  - destruct ev as [bs| |e]; [by destruct (Hev bs)|..].
    + exists s, []. split_and!; [|by rewrite app_nil_r|constructor].
      apply run_break. unfold sock_turn. by rewrite Hrx.
    + exists (set_rx rest s), [].
      split_and!; [|by rewrite app_nil_r|constructor].
      apply run_break. unfold sock_turn. by rewrite Hrx.
  - apply Forall_cons in Hall as [(Hp & Hlen & (text & Hdec & Hshow)) Hall].
    assert (Hok : ∀ k e, head (tx s) ≠ Some (TxErr k e)).
    { intros k e Hhd. destruct (tx s) as [|t0 t]; [done|].
      apply Forall_cons in Htx as [-> _]. done. }
    pose proof (sock_turn_echo chars s p _ text Hrx Hlen Hdec Hp Hshow Hok)
      as Hturn.
    match type of Hturn with _ = (_, ?x, _) => set (s1 := x) in * end.
    destruct (IH s1 ev rest) as (s2 & texts & Hrun & Hsent & Hf); [done..| |done|].
    { subst s1. cbn [tx set_tx_sent]. destruct (tx s); [done|].
      by apply Forall_cons in Htx as [_ ?]. }
    exists s2, (text :: texts). split_and!.
    + change (sock_run chars s (Ok tt) s2
                ([log_line text] ++ (log_line <$> texts))).
      eapply run_continue; [exact Hturn|exact Hrun].
    + rewrite Hsent. subst s1. cbn [sent set_tx_sent fmap list_fmap].
      by rewrite <-app_assoc.
    + by constructor.
Qed.

Lemma replies_to_Forall2 chunks news :
  replies_to chunks news →
  Forall2 (λ ch m, ∃ k, m = take k (echo_prefix ++ ch)) chunks news.
Proof.
  assert (Hfull : ∀ chs : list bytes,
    Forall2 (λ ch m, ∃ k, m = take k (echo_prefix ++ ch)) chs
      ((λ ch, echo_prefix ++ ch) <$> chs)).
  { induction chs as [|ch chs IH]; constructor; [|done].
    exists (length (echo_prefix ++ ch)). by rewrite take_ge. }
  intros [->|(chs & ch & k & -> & ->)]; [apply Hfull|].
  apply Forall2_app; [apply Hfull|]. repeat constructor. by exists k.
Qed.

(** Once the handler has ended, its socket is closed: the descriptor is
    not open any more, and the socket it named is marked closed. *)
Lemma handle_clientconnection_closes c w :
  (handle_clientconnection c w).1 ≠ Block →
  open_sock c (handle_clientconnection c w).2 = None.
Proof.
  destruct (open_sock c w) as [s|] eqn:Hopen.
  - destruct (handle_clientconnection_run c w s Hopen)
      as (r & s' & out & Hrun & ->).
    apply sock_run_spec in Hrun as (_ & Hraise & _).
    destruct r as [[]|e|]; cbn [fst snd]; [|by destruct (Hraise e)|done].
    intros _. unfold open_sock. cbn [socks set_stdout set_sock].
    by rewrite lookup_insert_eq.
  - by rewrite handle_clientconnection_not_open.
Qed.

Lemma handle_clientconnection_marks_closed c w s :
  (handle_clientconnection c w).1 ≠ Block →
  socks w !! c = Some s →
  ∃ s', socks (handle_clientconnection c w).2 !! c = Some s'
        ∧ closed s' = true.
Proof.
  intros Hend Hs. destruct (open_sock c w) as [s0|] eqn:Hopen.
  - revert Hend.
    destruct (handle_clientconnection_run c w s0 Hopen)
      as (r & s' & out & Hrun & ->).
    apply sock_run_spec in Hrun as (_ & Hraise & _).
    destruct r as [[]|e|]; cbn [fst snd]; [|by destruct (Hraise e)|done].
    intros _. exists (set_closed true s'). cbn [socks set_stdout set_sock].
    by rewrite lookup_insert_eq.
  - rewrite handle_clientconnection_not_open by done. exists s.
    split; [done|]. unfold open_sock in Hopen. rewrite Hs in Hopen.
    by destruct (closed s).
Qed.

(* ===================================================================== *)
(** * More facts about start_server *)
(* ===================================================================== *)

Lemma same_traffic_refl s : same_traffic s s.
Proof. by repeat split. Qed.

Lemma traffic_untouched_refl w : traffic_untouched w w.
Proof. intros c s H. exists s. split; [done|apply same_traffic_refl]. Qed.

Lemma traffic_untouched_trans w1 w2 w3 :
  traffic_untouched w1 w2 → traffic_untouched w2 w3 → traffic_untouched w1 w3.
Proof.
  intros H12 H23 c s Hs.
  destruct (H12 c s Hs) as (s2 & Hs2 & (?&?&?&?&?&?)).
  destruct (H23 c s2 Hs2) as (s3 & Hs3 & (?&?&?&?&?&?)).
  exists s3. split; [done|]. unfold same_traffic. split_and!; congruence.
Qed.

(** Replacing a socket by one with the same traffic. *)
Lemma traffic_untouched_set c s s' out w :
  socks w !! c = Some s → same_traffic s s' →
  traffic_untouched w (set_stdout out (set_sock c s' w)).
Proof.
  intros Hs Hsame c' s0 Hs0. cbn [socks set_stdout set_sock].
  destruct (decide (c = c')) as [<-|Hne].
  - rewrite lookup_insert_eq. exists s'. split; [done|]. congruence.
  - rewrite lookup_insert_ne by done. exists s0.
    split; [done|apply same_traffic_refl].
Qed.

(** What a turn of the accept loop does to the world, case by case. *)
Lemma accept_iter_cases ls w :
  (* nothing to accept from: the socket is not open or does not listen *)
  (accept_iter ls w = (Raise OSError, w)
   ∧ ∀ s, open_sock ls w = Some s → listening s = false)
  (* nothing queued *)
  ∨ (accept_iter ls w = (Block, w)
     ∧ ∃ s, open_sock ls w = Some s ∧ listening s = true ∧ backlog s = [])
  (* something queued *)
  ∨ ∃ s ev rest,
      open_sock ls w = Some s ∧ listening s = true ∧ backlog s = ev :: rest
      ∧ match ev with
        | AcceptErr e =>
          accept_iter ls w = (Raise e, set_sock ls (set_backlog rest s) w)
        | Accepted c peer =>
          accept_iter ls w =
            match thread_budget w with
            | O => (Raise RuntimeError, taken ls s (c, peer) rest w)
            | S n =>
              (Ok tt,
               set_threads (threads w ++ [new_thread (c, peer)]) n
                 (taken ls s (c, peer) rest w))
            end
        end.
Proof.
  destruct (open_sock ls w) as [s|] eqn:Hopen.
  2:{ left. by rewrite accept_iter_closed. }
  destruct (listening s) eqn:Hl.
  2:{ left. rewrite (accept_iter_deaf ls w s) by done.
      split; [done|congruence]. }
  destruct (backlog s) as [|ev rest] eqn:Hb.
  - right; left. rewrite (accept_iter_empty ls w s) by done.
    split; [done|]. by exists s.
  - right; right. exists s, ev, rest. split_and!; try done.
    destruct ev as [c peer|e]; [|by apply accept_iter_err].
    destruct (thread_budget w) as [|n] eqn:Hn.
    + by apply accept_iter_no_thread.
    + by apply accept_iter_accepted.
Qed.

Lemma traffic_untouched_taken ls s p rest w :
  socks w !! ls = Some s →
  traffic_untouched w (taken ls s p rest w).
Proof.
  intros Hs c' s0 Hs0. unfold taken. cbn [socks set_locals set_stdout set_sock].
  destruct (decide (ls = c')) as [<-|Hne].
  - rewrite lookup_insert_eq. eexists. split; [done|].
    rewrite Hs in Hs0. injection Hs0 as <-. by repeat split.
  - rewrite lookup_insert_ne by done. exists s0.
    split; [done|apply same_traffic_refl].
Qed.

Lemma traffic_untouched_socks w w' :
  socks w' = socks w → traffic_untouched w w'.
Proof.
  intros H c s Hs. exists s. rewrite H. split; [done|apply same_traffic_refl].
Qed.

Lemma keeps_traffic_ret {A} (a : A) : keeps_traffic (ret a).
Proof. intros w. apply traffic_untouched_refl. Qed.

Lemma keeps_traffic_bind {A B} (m : M A) (k : A → M B) :
  keeps_traffic m → (∀ a, keeps_traffic (k a)) → keeps_traffic (bind m k).
Proof.
  intros Hm Hk w. unfold bind. specialize (Hm w).
  destruct (m w) as [[a|e|] w1]; cbn [snd] in *; [|done..].
  eapply traffic_untouched_trans; [exact Hm|apply Hk].
Qed.

Lemma keeps_traffic_try {A} (m : M A) (h : exn → M A) :
  keeps_traffic m → (∀ e, keeps_traffic (h e)) →
  keeps_traffic (try_except m h).
Proof.
  intros Hm Hh w. unfold try_except. specialize (Hm w).
  destruct (m w) as [[a|e|] w1]; cbn [snd] in *; [done| |done].
  eapply traffic_untouched_trans; [exact Hm|apply Hh].
Qed.

Lemma keeps_traffic_print line : keeps_traffic (print line).
Proof.
  intros w. unfold print. by destruct (shows _ _); apply traffic_untouched_socks.
Qed.

Lemma keeps_traffic_store_local name v : keeps_traffic (store_local name v).
Proof. intros w. by apply traffic_untouched_socks. Qed.

Lemma keeps_traffic_enter host port : keeps_traffic (enter_frame host port).
Proof. intros w. by apply traffic_untouched_socks. Qed.

Lemma keeps_traffic_socket : keeps_traffic socket_socket.
Proof.
  intros w. unfold socket_socket.
  by destruct (fresh_fds w); apply traffic_untouched_socks.
Qed.

Lemma keeps_traffic_bind_call c host port :
  keeps_traffic (sock_bind c host port).
Proof.
  intros w. unfold sock_bind. destruct (65535 <? port);
    [apply traffic_untouched_refl|].
  destruct (open_sock c w) as [s|]; [|apply traffic_untouched_refl].
  destruct (bind_err s); apply traffic_untouched_refl.
Qed.

Lemma keeps_traffic_listen c : keeps_traffic (sock_listen c).
Proof.
  intros w. unfold sock_listen.
  destruct (open_sock c w) as [s|] eqn:Ho; [|apply traffic_untouched_refl].
  destruct (listen_err s); [apply traffic_untouched_refl|].
  apply open_sock_Some in Ho as [Hs _]. cbn [snd].
  intros c' s0 Hs0. cbn [socks set_sock].
  destruct (decide (c = c')) as [<-|Hne].
  - rewrite lookup_insert_eq. eexists. split; [done|].
    rewrite Hs in Hs0. injection Hs0 as <-. by repeat split.
  - rewrite lookup_insert_ne by done. exists s0.
    split; [done|apply same_traffic_refl].
Qed.

Lemma keeps_traffic_accept_iter ls : keeps_traffic (accept_iter ls).
Proof.
  intros w.
  destruct (accept_iter_cases ls w)
    as [[-> _]|[[-> _]|(s & ev & rest & Ho & Hl & Hb & Hit)]];
    [apply traffic_untouched_refl..|].
  apply open_sock_Some in Ho as [Hs _].
  destruct ev as [c peer|e]; rewrite Hit.
  - destruct (thread_budget w); cbn [snd];
      [by apply traffic_untouched_taken|].
    intros c' s0 Hs0.
    by apply (traffic_untouched_taken ls s (c, peer) rest w Hs).
  - cbn [snd]. intros c' s0 Hs0.
    by apply (traffic_untouched_set ls s (set_backlog rest s) (stdout w) w Hs).
Qed.

Lemma keeps_fds_store_local name v : keeps_fds (store_local name v).
Proof. done. Qed.

Lemma keeps_fds_accept_iter ls : keeps_fds (accept_iter ls).
Proof.
  intros w.
  destruct (accept_iter_cases ls w)
    as [[-> _]|[[-> _]|(s & ev & rest & _ & _ & _ & Hit)]]; [done..|].
  destruct ev; rewrite Hit; [|done]. by destruct (thread_budget w).
Qed.

(** The accept loop is left only by an exception: it never returns. *)
Lemma accept_loop_result ls w :
  (∀ a, (accept_loop ls w).1 ≠ Ok a)
  ∧ traffic_untouched w (accept_loop ls w).2
  ∧ fresh_fds (accept_loop ls w).2 = fresh_fds w
  ∧ ((accept_loop ls w).1 = Block →
     ∃ s, open_sock ls (accept_loop ls w).2 = Some s
          ∧ listening s = true ∧ backlog s = []).
Proof.
  funelim (accept_loop ls w);
    match goal with H : accept_iter _ _ = _ |- _ => rename H into Hit end;
    pose proof (keeps_traffic_accept_iter ls w) as Ht;
    pose proof (keeps_fds_accept_iter ls w) as Hf;
    rewrite Hit in Ht, Hf; cbn [snd] in Ht, Hf.
  - match goal with IH : _ ∧ _ |- _ => destruct IH as (IH1 & IH2 & IH3 & IH4) end.
    split_and!; try done.
    + by eapply traffic_untouched_trans.
    + congruence.
  - by split_and!.
  - split_and!; try done. intros _.
    destruct (accept_iter_cases ls w)
      as [[Hc _]|[[Hc Hs]|(s & ev & rest & _ & _ & _ & Hc)]];
      rewrite Hit in Hc; [done| |].
    + by injection Hc as <-.
    + destruct ev; [by destruct (thread_budget w)|done].
Qed.

Lemma keeps_traffic_accept_loop ls : keeps_traffic (accept_loop ls).
Proof. intros w. by destruct (accept_loop_result ls w) as (_ & ? & _). Qed.

Lemma keeps_traffic_start_server_try host port :
  keeps_traffic (start_server_try host port).
Proof.
  unfold start_server_try.
  apply keeps_traffic_bind; [apply keeps_traffic_socket|intros ls].
  apply keeps_traffic_bind; [apply keeps_traffic_store_local|intros _].
  apply keeps_traffic_bind; [apply keeps_traffic_bind_call|intros _].
  apply keeps_traffic_bind; [apply keeps_traffic_listen|intros _].
  apply keeps_traffic_bind; [apply keeps_traffic_print|intros _].
  apply keeps_traffic_accept_loop.
Qed.

(** The statements of [start_server], before the return. *)
Lemma keeps_traffic_start_server_body host port :
  keeps_traffic
    (try_except (start_server_try host port) (λ _, start_server_except) ;;
     ret PNone).
Proof.
  apply keeps_traffic_bind; [|intros _; apply keeps_traffic_ret].
  apply keeps_traffic_try; [apply keeps_traffic_start_server_try|].
  intros _. apply keeps_traffic_print.
Qed.

Lemma start_server_try_setup_ok host port w ls s :
  setup_ok host port w ls s →
  start_server_try host port (set_locals (frame_of host port) w)
  = accept_loop ls (listening_world host port ls s w).
Proof.
  intros (Hf & Ho & Hp & Hb & Hl & Hsh).
  destruct (fresh_fds w) as [|ls' fds] eqn:Hfresh; [done|].
  injection Hf as ->.
  by rewrite (start_server_try_listening host port w ls fds s).
Qed.

(** Whether the set-up succeeds can be read off the world. *)
Lemma setup_ok_dec host port w :
  (∃ ls s, setup_ok host port w ls s) ∨ ¬ (∃ ls s, setup_ok host port w ls s).
Proof.
  unfold setup_ok.
  destruct (fresh_fds w) as [|ls fds]; [right; by intros (?&?&?&_)|].
  destruct (open_sock ls w) as [s|] eqn:Ho;
    [|right; intros (?&?&[= <-]&?&_); congruence].
  destruct (N.le_gt_cases port 65535) as [Hp|Hp];
    [|right; intros (?&?&_&_&?&_); lia].
  destruct (bind_err s) as [e|] eqn:Hb;
    [right; intros (?&?&[= <-]&?&_&?&_); congruence|].
  destruct (listen_err s) as [e|] eqn:Hl;
    [right; intros (?&?&[= <-]&?&_&_&?&_); congruence|].
  destruct (shows (stdout_chars w) host) eqn:Hsh;
    [|right; intros (?&?&_&_&_&_&_&?); congruence].
  left. by exists ls, s.
Qed.

(** When the set-up fails, [start_server_try] raises before it has printed
    or started anything: the one socket it may have changed is the one it
    created, which listens if the failure came after the listen, and the
    only socket its local names hold is that one. *)
Lemma start_server_try_setup_fails host port w :
  (¬ ∃ ls s, setup_ok host port w ls s) →
  ∃ e w1,
    start_server_try host port (set_locals (frame_of host port) w)
    = (Raise e, w1)
    ∧ stdout w1 = stdout w ∧ threads w1 = threads w
    ∧ (∀ name c, locals w1 !! name ≫= held = Some c →
                 name = "server_socket" ∧ head (fresh_fds w) = Some c)
    ∧ (∀ ls, head (fresh_fds w) = Some ls →
             locals w1 !! "server_socket" = Some (PSocket ls))
    ∧ ∀ c, socks w1 !! c = socks w !! c
           ∨ ∃ s, head (fresh_fds w) = Some c ∧ socks w !! c = Some s
                  ∧ socks w1 !! c = Some (set_listening true s).
Proof.
  intros Hno.
  assert (Hframe : ∀ name c,
    frame_of host port !! name ≫= held = Some c → False).
  { intros name c. unfold frame_of.
    destruct (decide (name = "host")) as [->|Hh].
    { by rewrite lookup_insert_eq. }
    rewrite lookup_insert_ne by done.
    destruct (decide (name = "port")) as [->|Hp].
    { by rewrite lookup_singleton_eq. }
    by rewrite lookup_singleton_ne. }
  unfold start_server_try, bind, socket_socket. cbn [fresh_fds set_locals].
  destruct (fresh_fds w) as [|ls fds] eqn:Hf.
  { exists OSError. eexists. split; [done|]. split_and!; try done.
    - intros name c H. by destruct (Hframe name c).
    - by left. }
  assert (Hserver : ∀ ls0, head (ls :: fds) = Some ls0 →
    <["server_socket" := PSocket ls]> (frame_of host port) !! "server_socket"
    = Some (PSocket ls0)).
  { intros ls0 [= <-]. by rewrite lookup_insert_eq. }
  assert (Hlocals : ∀ name c,
    <["server_socket" := PSocket ls]> (frame_of host port) !! name ≫= held
    = Some c → name = "server_socket" ∧ head (ls :: fds) = Some c).
  { intros name c. destruct (decide (name = "server_socket")) as [->|Hn].
    - rewrite lookup_insert_eq. by intros [= ->].
    - rewrite lookup_insert_ne by done. intros H.
      by destruct (Hframe name c). }
  unfold store_local, sock_bind. cbn [fst snd].
  destruct (N.ltb_spec 65535 port) as [Hp|Hp].
  { exists OverflowError. eexists. split; [done|]. split_and!; try done.
    by left. }
  match goal with |- context [open_sock ls ?w1] =>
    change (open_sock ls w1) with (open_sock ls w) end.
  destruct (open_sock ls w) as [s|] eqn:Hopen.
  2:{ exists OSError. eexists. split; [done|]. split_and!; try done.
      by left. }
  destruct (bind_err s) as [e|] eqn:Hb.
  { exists e. eexists. split; [done|]. split_and!; try done. by left. }
  unfold sock_listen.
  match goal with |- context [open_sock ls ?w1] =>
    change (open_sock ls w1) with (open_sock ls w) end.
  rewrite Hopen.
  destruct (listen_err s) as [e|] eqn:Hl.
  { exists e. eexists. split; [done|]. split_and!; try done. by left. }
  unfold print. cbn [stdout_chars set_sock set_locals set_fresh_fds].
  destruct (shows (stdout_chars w) _) eqn:Hsh.
  { destruct Hno. exists ls, s. unfold setup_ok. rewrite Hf.
    split_and!; try done.
    rewrite !shows_app in Hsh. apply andb_true_iff in Hsh as [_ Hsh].
    by apply andb_true_iff in Hsh as [Hsh _]. }
  exists UnicodeEncodeError. eexists. split; [done|]. split_and!; try done.
  intros c. cbn [socks set_sock set_locals set_fresh_fds].
  apply open_sock_Some in Hopen as [Hs _].
  destruct (decide (ls = c)) as [<-|Hne].
  - right. exists s. by rewrite lookup_insert_eq.
  - left. by rewrite lookup_insert_ne.
Qed.

(** The local names after the accept loop has taken connections. *)
Lemma accepted_locals_server p l :
  accepted_locals p l !! "server_socket" = l !! "server_socket".
Proof. unfold accepted_locals. by rewrite !lookup_insert_ne. Qed.

Lemma foldl_accepted_locals_server conns : ∀ l,
  foldl (λ l p, accepted_locals p l) l conns !! "server_socket"
  = l !! "server_socket".
Proof.
  induction conns as [|p conns IH]; intros l; [done|].
  cbn [foldl]. by rewrite IH, accepted_locals_server.
Qed.

Lemma new_thread_fds (conns : list (fd * addr)) :
  (new_thread <$> conns).*1 = conns.*1.
Proof. induction conns as [|p conns IH]; [done|]. csimpl. by rewrite IH. Qed.

Lemma listening_world_open host port ls s w :
  open_sock ls w = Some s →
  open_sock ls (listening_world host port ls s w) = Some (set_listening true s).
Proof.
  intros [_ Hcl]%open_sock_Some. unfold listening_world.
  apply open_sock_Some. split; [apply lookup_insert_eq|done].
Qed.

(** How [start_server] ends, by the world in which its statements end. *)
Lemma start_server_ends host port w :
  let body :=
    (try_except (start_server_try host port) (λ _, start_server_except) ;;
     ret PNone) (set_locals (frame_of host port) w) in
  start_server host port w
  = match body.1 with
    | Block => (Block, body.2)
    | r => (r, leave_frame body.2)
    end.
Proof.
  intros body. rewrite start_server_eq. unfold returning. fold body.
  by destruct body as [[a|e|] w1].
Qed.

(** ** The client block *)

Lemma quiet_bind c {A B} (m : M A) (k : A → M B) :
  quiet c m → (∀ a, quiet c (k a)) → quiet c (bind m k).
Proof.
  intros Hm Hk w s r w' Ho. unfold bind.
  destruct (m w) as [[a|e|] w1] eqn:Hmw; intros H;
    destruct (Hm _ _ _ _ Ho Hmw) as (Hout & s1 & Ho1 & Hc1).
  - destruct (Hk a _ _ _ _ Ho1 H) as (Hout' & s2 & Ho2 & Hc2).
    split; [congruence|]. exists s2. split; [done|congruence].
  - injection H as <- <-. eauto.
  - injection H as <- <-. eauto.
Qed.

Lemma quiet_ret c {A} (a : A) : quiet c (ret a).
Proof. intros w s r w' Ho [= <- <-]. eauto. Qed.

Lemma quiet_raise c {A} (e : exn) : quiet c (@raise A e).
Proof. intros w s r w' Ho [= <- <-]. eauto. Qed.

Lemma quiet_store c name v : quiet c (store_global name v).
Proof. intros w s r w' Ho [= <- <-]. eauto. Qed.

Lemma quiet_load c name : quiet c (load_global name).
Proof.
  intros w s r w' Ho. unfold load_global.
  destruct (globals w !! name); intros [= <- <-]; eauto.
Qed.

Lemma quiet_decode c b : quiet c (bytes_decode b).
Proof.
  intros w s r w' Ho. unfold bytes_decode.
  destruct (Utf8.decode b); intros [= <- <-]; eauto.
Qed.

Lemma quiet_encode_value c v : quiet c (encode_value v).
Proof.
  destruct v as [|t| | | | | |]; try apply quiet_raise.
  intros w s r w' Ho. unfold encode_value, str_encode.
  destruct (Utf8.encode _); intros [= <- <-]; eauto.
Qed.

Lemma quiet_connect c host port : quiet c (connect_value c host port).
Proof.
  intros w s r w' Ho. unfold connect_value.
  destruct host as [|h|z|c0|a0|t0|name|name],
    port as [|h'|p|c1|a1|t1|n1|n1];
    try (intros [= <- <-]; by eauto).
  destruct (p <? 0)%Z; [intros [= <- <-]; by eauto|]. unfold sock_connect.
  destruct (65535 <? Z.to_N p); [intros [= <- <-]; by eauto|].
  rewrite Ho. destruct (connect_err s); intros [= <- <-]; eauto.
Qed.

Lemma quiet_set_sock c s s' w :
  closed s' = false → close_err s' = close_err s →
  stdout (set_sock c s' w) = stdout w
  ∧ ∃ s'', open_sock c (set_sock c s' w) = Some s''
           ∧ close_err s'' = close_err s.
Proof.
  intros Hcl Hc. split; [done|]. exists s'. split; [|done].
  by apply open_sock_set_sock.
Qed.

Lemma quiet_sendall c data : quiet c (sendall c data).
Proof.
  intros w s r w' Ho. unfold sendall. rewrite Ho.
  apply open_sock_Some in Ho as [_ Hcl].
  destruct (tx s) as [|[|k e] t]; intros [= <- <-];
    by apply quiet_set_sock.
Qed.

Lemma quiet_recv c n : quiet c (recv c n).
Proof.
  intros w s r w' Ho. unfold recv. rewrite Ho.
  pose proof Ho as Ho'. apply open_sock_Some in Ho' as [_ Hcl].
  destruct (rx s) as [|[bs| |e] rest]; [by intros [= <- <-]; eauto| | |].
  - case_decide; intros [= <- <-]; by apply quiet_set_sock.
  - intros [= <- <-]; eauto.
  - intros [= <- <-]; by apply quiet_set_sock.
Qed.

(** The last two statements of the client block. *)
Lemma print_close_ends c out data :
  ends_as_client c out
    (bind (print (lit "Received from server: " ++ data)) (λ _, close c)).
Proof.
  intros w s r w' Ho Hout. unfold bind, print.
  destruct (shows (stdout_chars w) _).
  2:{ intros [= <- <-]. right. split; [done|by rewrite Ho]. }
  unfold close.
  assert (Ho1 : open_sock c (set_stdout
                  (stdout w ++ [lit "Received from server: " ++ data]) w)
                = Some s) by exact Ho.
  rewrite Ho1.
  assert (Hdone : (∃ s',
      socks (set_sock c (set_closed true s)
               (set_stdout
                  (stdout w ++ [lit "Received from server: " ++ data]) w))
        !! c = Some s' ∧ closed s' = true)
    ∧ ∃ data0,
        stdout (set_sock c (set_closed true s)
                  (set_stdout
                     (stdout w ++ [lit "Received from server: " ++ data]) w))
        = out ++ [answer_line data0]).
  { split.
    - eexists. cbn [socks set_sock]. by rewrite lookup_insert_eq.
    - exists data. simpl. by rewrite Hout. }
  destruct (close_err s); intros [= <- <-]; [by left|done].
Qed.

Lemma ends_as_client_bind c out {A} (m : M A) (k : A → M unit) :
  quiet c m → (∀ a, ends_as_client c out (k a)) →
  ends_as_client c out (bind m k).
Proof.
  intros Hm Hk w s r w' Ho Hout. unfold bind.
  destruct (m w) as [[a|e|] w1] eqn:Hmw; intros H;
    destruct (Hm _ _ _ _ Ho Hmw) as (Hout1 & s1 & Ho1 & Hc1).
  - eapply Hk; [exact Ho1|congruence|exact H].
  - injection H as <- <-. right. split; [congruence|by rewrite Ho1].
  - injection H as <- <-. split; [congruence|by rewrite Ho1].
Qed.

(** The client block, from the statement after [socket.socket()] on. *)
Lemma client_rest_ends c out :
  ends_as_client c out
    (store_global "client_socket" (PSocket c) ;;
     host <- load_global "host" ;;
     port <- load_global "port" ;;
     connect_value c host port ;;
     message <- load_global "message" ;;
     payload <- encode_value message ;;
     sendall c payload ;;
     raw <- recv c 1024 ;;
     data <- bytes_decode raw ;;
     store_global "data" (PStr data) ;;
     print (lit "Received from server: " ++ data) ;;
     close c)%py.
Proof.
  apply ends_as_client_bind; [apply quiet_store|intros _].
  apply ends_as_client_bind; [apply quiet_load|intros host].
  apply ends_as_client_bind; [apply quiet_load|intros port].
  apply ends_as_client_bind; [apply quiet_connect|intros _].
  apply ends_as_client_bind; [apply quiet_load|intros message].
  apply ends_as_client_bind; [apply quiet_encode_value|intros payload].
  apply ends_as_client_bind; [apply quiet_sendall|intros _].
  apply ends_as_client_bind; [apply quiet_recv|intros raw].
  apply ends_as_client_bind; [apply quiet_decode|intros data].
  apply ends_as_client_bind; [apply quiet_store|intros _].
  apply print_close_ends.
Qed.

(** The world in which the client block starts: the five names of the
    module are bound. *)
Lemma module_toplevel_eq w :
  module_toplevel w
  = try_except client_try
      (λ _, print (lit "Error encountered in start_client"))
      (set_globals
         (<["start_client" := PFunction "start_client"]>
          (<["start_server" := PFunction "start_server"]>
           (<["handle_clientconnection" := PFunction "handle_clientconnection"]>
            (<["threading" := PModule "threading"]>
             (<["socket" := PModule "socket"]> (globals w)))))) w).
Proof. reflexivity. Qed.

(** The client block when the three names are bound, the connection is
    made, the message is sent and the close does not fail: one read of at
    most 1024 bytes, of which the text is printed; or the error line, when
    the bytes are not a text or standard output cannot show it. *)
Lemma client_exchange (w : world) (c : fd) (fds : list fd) (s : sock)
    (h msg : str) (p : Z) (payload reply : bytes) (rest : list rx_event) :
  fresh_fds w = c :: fds → open_sock c w = Some s →
  globals w !! "host" = Some (PStr h) →
  globals w !! "port" = Some (PInt p) → (0 ≤ p ≤ 65535)%Z →
  globals w !! "message" = Some (PStr msg) →
  Utf8.encode msg = Some payload →
  connect_err s = None → (∀ k e t, tx s ≠ TxErr k e :: t) →
  close_err s = None →
  rx s = RxData reply :: rest →
  (module_toplevel w).1 = Ok tt
  ∧ sent_on c (module_toplevel w).2 = sent s ++ [payload]
  ∧ (∃ s', socks (module_toplevel w).2 !! c = Some s'
           ∧ data_stream (rx s') = drop 1024 reply ++ data_stream rest)
  ∧ match Utf8.decode (take 1024 reply) with
    | Some text =>
      globals (module_toplevel w).2 !! "data" = Some (PStr text)
      ∧ if shows (stdout_chars w) text
        then stdout (module_toplevel w).2
             = stdout w ++ [lit "Received from server: " ++ text]
             ∧ open_sock c (module_toplevel w).2 = None
        else stdout (module_toplevel w).2
             = stdout w ++ [lit "Error encountered in start_client"]
             ∧ is_Some (open_sock c (module_toplevel w).2)
    | None =>
      stdout (module_toplevel w).2
      = stdout w ++ [lit "Error encountered in start_client"]
      ∧ globals (module_toplevel w).2 !! "data" = globals w !! "data"
      ∧ is_Some (open_sock c (module_toplevel w).2)
    end.
Proof.
  intros Hf Ho Hh Hp Hr Hm He Hc Htx Hcl Hrx.
  destruct (module_toplevel w) as [r0 w0] eqn:Hres. revert Hres.
  rewrite module_toplevel_eq.
  unfold try_except, client_try. unfold bind at 1, socket_socket at 1.
  cbn [fresh_fds set_globals]. rewrite Hf.
  unfold bind at 1, store_global at 1.
  unfold bind at 1, load_global at 1.
  cbn [globals set_globals set_fresh_fds].
  rewrite !lookup_insert_ne by (intros ?; discriminate). rewrite Hh.
  unfold bind at 1, load_global at 1.
  cbn [globals set_globals set_fresh_fds].
  rewrite !lookup_insert_ne by (intros ?; discriminate). rewrite Hp.
  unfold bind at 1, connect_value at 1.
  rewrite (proj2 (Z.ltb_ge p 0)) by lia.
  unfold sock_connect.
  rewrite (proj2 (N.ltb_ge 65535 (Z.to_N p))) by lia.
  match goal with |- context [open_sock c ?w1] =>
    change (open_sock c w1) with (open_sock c w) end.
  rewrite Ho, Hc.
  unfold bind at 1, load_global at 1.
  cbn [globals set_globals set_fresh_fds].
  rewrite !lookup_insert_ne by (intros ?; discriminate). rewrite Hm.
  unfold bind at 1, encode_value at 1, str_encode at 1. rewrite He.
  unfold bind at 1, sendall at 1.
  match goal with |- context [open_sock c ?w1] =>
    change (open_sock c w1) with (open_sock c w) end.
  rewrite Ho.
  pose proof Ho as Hopen. apply open_sock_Some in Hopen as [_ Hclosed].
  assert (Hrecv : ∀ bs, (length reply ≤ 1024)%nat → take 1024 reply = reply
                        ∧ drop 1024 reply ++ bs = bs).
  { intros bs Hl. by rewrite take_ge, drop_ge by done. }
  assert (Hans : ∀ text chars,
    shows chars (lit "Received from server: " ++ text) = shows chars text).
  { intros text chars. rewrite shows_app. by vm_compute (shows chars (lit _)). }
  assert (Herr : ∀ w1,
    print (lit "Error encountered in start_client") w1
    = (Ok tt,
       set_stdout (stdout w1 ++ [lit "Error encountered in start_client"])
         w1)).
  { intros w1. apply print_shown. by vm_compute. }
  destruct (tx s) as [|[|k e] t] eqn:Htxs; [| |by destruct (Htx k e t)].
  all: unfold bind at 1, recv at 1.
  all: rewrite open_sock_set_sock by done.
  all: cbn [rx set_tx_sent]; rewrite Hrx.
  all: case_decide as Hlen.
  all: try (destruct (Hrecv (data_stream rest) Hlen) as [-> ->]).
  all: unfold bind at 1, bytes_decode at 1.
  all: destruct (Utf8.decode _) as [text|].
  all: try (unfold bind at 1, store_global at 1;
            unfold bind at 1, print at 1;
            cbn [stdout_chars set_globals set_sock set_fresh_fds];
            rewrite Hans; destruct (shows (stdout_chars w) text)).
  all: try (unfold close, open_sock;
            cbn [socks set_stdout set_globals set_sock];
            rewrite lookup_insert_eq;
            cbn [closed close_err set_rx set_tx_sent]; rewrite Hclosed;
            cbn [closed close_err set_rx set_tx_sent]; rewrite Hcl).
  all: rewrite ?Herr; intros [= <- <-]; cbn [fst snd].
  all: split_and!; try done.
  all: try (unfold sent_on; cbn [socks set_stdout set_globals set_sock];
            by rewrite lookup_insert_eq).
  all: try (eexists; split;
            [cbn [socks set_stdout set_globals set_sock];
             apply lookup_insert_eq|done]).
  all: try (cbn [globals set_stdout set_sock set_globals];
            by rewrite lookup_insert_eq).
  all: try (unfold open_sock; cbn [socks set_stdout set_globals set_sock];
            by rewrite lookup_insert_eq).
  all: try (cbn [globals set_stdout set_sock set_globals set_fresh_fds];
            by rewrite !lookup_insert_ne by (intros ?; discriminate)).
  all: unfold open_sock; cbn [socks set_stdout set_globals set_sock];
    rewrite lookup_insert_eq; cbn [closed set_rx set_tx_sent];
    by rewrite Hclosed.
Qed.

(** The handler on a connection over which one request arrives whole, and
    then the end of the stream or an error. *)
Lemma handler_single_request c w s payload msg ev rest :
  open_sock c w = Some s →
  rx s = RxData payload :: ev :: rest → (∀ bs, ev ≠ RxData bs) →
  Forall (λ t, t = TxOk) (tx s) →
  payload ≠ [] → (length payload ≤ 1024)%nat →
  Utf8.decode payload = Some msg →
  shows (stdout_chars w) msg = true →
  sent_on c (handle_clientconnection c w).2
  = sent s ++ [echo_prefix ++ payload]
  ∧ stdout (handle_clientconnection c w).2 = stdout w ++ [log_line msg].
Proof.
  intros Hopen Hrx Hev Htx Hne Hlen Hdec Hshow.
  assert (Hall : Forall (λ p, p ≠ [] ∧ (length p ≤ 1024)%nat
                              ∧ shown (stdout_chars w) p) [payload]).
  { apply Forall_cons. split; [|constructor].
    split_and!; [done..|by exists msg]. }
  destruct (sock_run_requests (stdout_chars w) [payload] s ev rest Hrx Hev
              Htx Hall)
    as (s' & texts & Hrun & Hsent & Hf).
  apply Forall2_cons_inv_l in Hf as (text & texts' & Hd & Hnil & ->).
  apply Forall2_nil_inv_l in Hnil as ->.
  assert (text = msg) as -> by congruence.
  rewrite (handle_clientconnection_of_run c w s _ _ _ Hopen Hrun).
  split.
  - destruct (close_err s); cbn [snd]; by rewrite sent_on_set.
  - by destruct (close_err s).
Qed.

Lemma echo_prefix_length : length echo_prefix = 17%nat.
Proof. by vm_compute. Qed.

(** The text of a reply. *)
Lemma decode_reply payload msg :
  Utf8.encode msg = Some payload →
  Utf8.decode (echo_prefix ++ payload) = Some (lit "Server received: " ++ msg).
Proof.
  intros He. apply Utf8Facts.decode_encode, encode_reply.
  by apply Utf8Facts.decode_encode.
Qed.

(** ** A session under any schedule *)

(** A handler step changes the status of a thread, never its socket. *)
Lemma handler_step_fds j w k c st :
  threads (handler_step j w) !! k = Some (c, st) →
  ∃ st0, threads w !! k = Some (c, st0).
Proof.
  intros Hk. destruct (threads w !! j) as [[cj stj]|] eqn:Hj.
  - rewrite (handler_step_touch j cj stj w Hj), touch_threads in Hk.
    destruct (decide (j = k)) as [->|Hne].
    + rewrite list_lookup_alter_eq, Hj in Hk. simpl in Hk.
      injection Hk as <- <-. eauto.
    + rewrite list_lookup_alter_ne in Hk by done. eauto.
  - unfold handler_step in Hk. rewrite Hj in Hk. eauto.
Qed.

Lemma thread_turn_backlog chars o st s' :
  (thread_turn chars o st).1.1 = Some s' →
  ∃ s, o = Some s ∧ backlog s' = backlog s.
Proof.
  destruct st; [|done..]. destruct o as [s|]; [|done]. cbn [thread_turn].
  destruct (sock_turn chars s) as [[r s1] out] eqn:Hturn.
  apply sock_turn_spec in Hturn as ((_&_&_&_&Hb&_) & _).
  destruct r as [[|]|e|]; cbn [fst snd]; intros [= <-]; exists s; done.
Qed.

(** A handler step leaves the queue of every socket as it is. *)
Lemma handler_step_backlog j w x s' :
  socks (handler_step j w) !! x = Some s' →
  ∃ s, socks w !! x = Some s ∧ backlog s' = backlog s.
Proof.
  intros Hx. destruct (threads w !! j) as [[cj stj]|] eqn:Hj.
  - rewrite (handler_step_touch j cj stj w Hj), touch_socks in Hx.
    destruct ((thread_turn (stdout_chars w) (open_sock cj w) stj).1.1) as [s1|] eqn:Hu;
      [|eauto].
    destruct (decide (cj = x)) as [->|Hne].
    + rewrite lookup_insert_eq in Hx. injection Hx as <-.
      apply thread_turn_backlog in Hu as (s & Ho & Hb).
      apply open_sock_Some in Ho as [Hs _]. eauto.
    + rewrite lookup_insert_ne in Hx by done. eauto.
  - unfold handler_step in Hx. rewrite Hj in Hx. eauto.
Qed.

Lemma owns_handler_step i c j w l :
  owns i c (System w l) → owns i c (System (handler_step j w) l).
Proof.
  intros [Hth Hl]. split; cbn [sys_world sys_listener] in *.
  - intros k c' st Hk Hne. apply handler_step_fds in Hk as [st0 Hk]. eauto.
  - intros ls Hls. destruct (Hl ls Hls) as [Hc Hq]. split; [done|].
    intros sl peer Hsl.
    apply handler_step_backlog in Hsl as (s & Hs & ->). eauto.
Qed.

(** The step of another thread touches neither socket [c] nor the status
    of thread [i]. *)
Lemma handler_step_other i c j w l :
  owns i c (System w l) → j ≠ i →
  socks (handler_step j w) !! c = socks w !! c
  ∧ threads (handler_step j w) !! i = threads w !! i.
Proof.
  intros [Hth _] Hne. cbn [sys_world] in Hth.
  destruct (threads w !! j) as [[cj stj]|] eqn:Hj.
  - rewrite (handler_step_touch j cj stj w Hj), touch_socks, touch_threads.
    rewrite list_lookup_alter_ne by done. split; [|done].
    destruct ((thread_turn (stdout_chars w) (open_sock cj w) stj).1.1); [|done].
    rewrite lookup_insert_ne; [done|]. eauto.
  - unfold handler_step. by rewrite Hj.
Qed.

(** The step of thread [i] depends on its socket and its status alone. *)
Lemma handler_step_own i c st w1 w2 :
  threads w1 !! i = Some (c, st) →
  threads w2 !! i = threads w1 !! i → socks w2 !! c = socks w1 !! c →
  stdout_chars w2 = stdout_chars w1 →
  socks (handler_step i w1) !! c = socks (handler_step i w2) !! c
  ∧ threads (handler_step i w1) !! i = threads (handler_step i w2) !! i.
Proof.
  intros H1 Ht Hs Hch.
  assert (H2 : threads w2 !! i = Some (c, st)) by congruence.
  rewrite (handler_step_touch i c st w1 H1), (handler_step_touch i c st w2 H2).
  assert (Ho : open_sock c w2 = open_sock c w1)
    by (unfold open_sock; by rewrite Hs).
  rewrite Ho, Hch, !touch_socks, !touch_threads, !list_lookup_alter_eq, Ht.
  split; [|done].
  destruct ((thread_turn (stdout_chars w1) (open_sock c w1) st).1.1);
    [by rewrite !lookup_insert_eq|done].
Qed.

Lemma handler_step_chars j w :
  stdout_chars (handler_step j w) = stdout_chars w.
Proof.
  destruct (threads w !! j) as [[cj stj]|] eqn:Hj.
  - rewrite (handler_step_touch j cj stj w Hj).
    by destruct (touch_rest j cj
                   (thread_turn (stdout_chars w) (open_sock cj w) stj) w)
      as (_&_&?&_).
  - unfold handler_step. by rewrite Hj.
Qed.

(** The end of the call closes no socket that a thread serves. *)
Lemma server_exit_other i c st w :
  threads w !! i = Some (c, st) →
  socks (returning (start_server_except ;; ret PNone) w).2 !! c
  = socks w !! c
  ∧ threads (returning (start_server_except ;; ret PNone) w).2 = threads w
  ∧ stdout_chars (returning (start_server_except ;; ret PNone) w).2
    = stdout_chars w.
Proof.
  intros Hi. rewrite server_exit_eq. cbn [snd].
  set (w1 := set_stdout _ w).
  destruct (leave_frame_rest w1) as (_&_&Hc&_&_&Ht&_).
  rewrite leave_frame_socks, Ht, Hc. split; [|done].
  rewrite released_thread.
  - subst w1. cbn [socks set_stdout]. by destruct (socks w !! c).
  - apply list_elem_of_fmap. exists (c, st). split; [done|].
    by eapply list_elem_of_lookup_2.
Qed.

(** A turn of the accept loop touches neither socket [c] nor thread [i]. *)
Lemma listener_step_other i c st s :
  threads (sys_world s) !! i = Some (c, st) → owns i c s →
  socks (sys_world (listener_step s)) !! c = socks (sys_world s) !! c
  ∧ threads (sys_world (listener_step s)) !! i = threads (sys_world s) !! i
  ∧ stdout_chars (sys_world (listener_step s)) = stdout_chars (sys_world s)
  ∧ owns i c (listener_step s).
Proof.
  intros Hi Hown. pose proof Hown as [Hth Hl].
  destruct s as [w l]. cbn [sys_world sys_listener] in *.
  unfold listener_step. cbn [sys_listener sys_world].
  destruct l as [ls|]; [|done].
  destruct (Hl ls eq_refl) as [Hc Hq].
  assert (Hnone : ∀ w', (∀ k c' st', threads w' !! k = Some (c', st') →
                                     k ≠ i → c' ≠ c) →
                        owns i c (System w' None)).
  { intros w' H. split; [done|]. by intros ? [=]. }
  assert (Hexit : ∀ w1 : world,
    threads w1 = threads w → socks w1 !! c = socks w !! c →
    stdout_chars w1 = stdout_chars w →
    socks (returning (start_server_except ;; ret PNone) w1).2 !! c
    = socks w !! c
    ∧ threads (returning (start_server_except ;; ret PNone) w1).2 !! i
      = threads w !! i
    ∧ stdout_chars (returning (start_server_except ;; ret PNone) w1).2
      = stdout_chars w
    ∧ owns i c
        (System (returning (start_server_except ;; ret PNone) w1).2 None)).
  { intros w1 Ht1 Hs1 Hc1.
    destruct (server_exit_other i c st w1) as (E1 & E2 & E3);
      [by rewrite Ht1|].
    rewrite E1, E2, E3. split_and!; [done|by rewrite Ht1|done|].
    apply Hnone. intros k c' st'. rewrite E2, Ht1. apply Hth. }
  destruct (accept_iter_cases ls w)
    as [[-> _]|[[-> _]|(sl & ev & rest & Ho & _ & Hb & Hev)]].
  - by apply Hexit.
  - by split_and!.
  - apply open_sock_Some in Ho as [Hs _].
    assert (Hqueue : ∀ peer, Accepted c peer ∉ rest).
    { intros peer Hin. apply (Hq sl peer Hs). rewrite Hb. by right. }
    destruct ev as [c' peer|e].
    + assert (Hc' : c' ≠ c).
      { intros ->. apply (Hq sl peer Hs). rewrite Hb. by left. }
      destruct (thread_budget w) as [|n]; rewrite Hev.
      * apply Hexit; [done| |done]. unfold taken.
        cbn [socks set_locals set_stdout set_sock].
        by rewrite lookup_insert_ne.
      * unfold taken.
        cbn [sys_world socks threads stdout_chars set_locals set_stdout
             set_sock set_threads].
        rewrite lookup_insert_ne by done.
        rewrite (lookup_app_l_Some _ _ _ _ Hi). split_and!; [done..|].
        split; cbn [sys_world sys_listener threads socks set_locals
                    set_stdout set_sock set_threads].
        -- intros k c1 st1 Hk Hne.
           apply lookup_app_Some in Hk as [Hk|[_ Hk]]; [by eauto|].
           apply list_lookup_singleton_Some in Hk as [_ [= <- <-]]. done.
        -- intros ls' [= <-]. split; [done|]. intros sl' peer'.
           rewrite lookup_insert_eq. intros [= <-]. apply Hqueue.
    + rewrite Hev. apply Hexit; [done| |done].
      cbn [socks set_sock]. by rewrite lookup_insert_ne.
Qed.

(** Under any schedule, socket [c] and the status of the thread that owns
    it are what the steps of that thread alone make them. *)
Lemma run_session_alone i c sched : ∀ s1 w2 st,
  threads (sys_world s1) !! i = Some (c, st) → owns i c s1 →
  threads w2 !! i = threads (sys_world s1) !! i →
  socks w2 !! c = socks (sys_world s1) !! c →
  stdout_chars w2 = stdout_chars (sys_world s1) →
  socks (sys_world (run sched s1)) !! c
  = socks (Nat.iter (length (steps_of i sched)) (handler_step i) w2) !! c
  ∧ threads (sys_world (run sched s1)) !! i
    = threads (Nat.iter (length (steps_of i sched)) (handler_step i) w2) !! i.
Proof.
  unfold run, steps_of.
  induction sched as [|t sched IH]; intros s1 w2 st Hi Hown Ht Hs Hch;
    [done|].
  rewrite filter_cons. cbn [foldl]. destruct t as [|j].
  - rewrite decide_False by done. cbn [step].
    destruct (listener_step_other i c st s1 Hi Hown)
      as (Hs1 & Ht1 & Hc1 & Hown1).
    apply (IH _ _ st); [by rewrite Ht1|done|congruence..].
  - destruct s1 as [w1 l]. cbn [step sys_world sys_listener] in *.
    destruct (decide (j = i)) as [->|Hne].
    + rewrite decide_True by done. cbn [length]. rewrite Nat.iter_succ_r.
      destruct (handler_step_own i c st w1 w2 Hi Ht Hs Hch) as [Hs1 Ht1].
      destruct (handler_step_thread i i c st w1 Hi) as [st' Hi'].
      apply (IH _ _ st'); [done|by apply owns_handler_step|done..|].
      cbn [sys_world]. by rewrite !handler_step_chars.
    + rewrite decide_False by congruence.
      destruct (handler_step_other i c j w1 l Hown Hne) as [Hs1 Ht1].
      apply (IH _ _ st); cbn [sys_world];
        [by rewrite Ht1|by apply owns_handler_step|congruence..|].
      by rewrite handler_step_chars.
Qed.

(* ===================================================================== *)
(** * The claims of the specification *)
(* ===================================================================== *)

(** ** C1: the echo of a request *)

(** C1, as stated, fails.  A one-byte payload that is not UTF-8 gets no
    response at all, the session just ends; a payload of 1025 bytes, far
    below the recommended maximum, gets two responses. *)
Lemma C1_echo_counterexample :
  let run (P : bytes) :=
    handle_clientconnection 7
      (world_of {[ 7%nat := peer_sends [RxData P; RxEof] ]} [] 0) in
  (N.of_nat (length [xff]) <= spec_max_frame_size
   ∧ (run [xff]).1 = Ok PNone
   ∧ sent_on 7 (run [xff]).2 = [])
  ∧ (N.of_nat (length (replicate 1025 x61)) <= spec_max_frame_size
     ∧ sent_on 7 (run (replicate 1025 x61)).2
       = [echo_prefix ++ replicate 1024 x61; echo_prefix ++ [x61]]).
Proof. split_and!; by vm_compute. Qed.

(** C1 (amended).  For every non-empty payload P of at most 1024 bytes that
    is well-formed UTF-8, whose text standard output can show, and that one
    read delivers whole, on an open connection whose send succeeds and
    whose peer then shuts down, the handler writes exactly one response on
    that connection, the bytes "Server received: " followed by P, closes
    it, and writes on no other connection.  The text must be one that
    standard output can show because the handler prints it before it
    answers: when the print fails, no response is written. *)
Theorem C1_single_read_echo (c : fd) (w : world) (s : sock) (P : bytes)
    (data : str) (rest : list rx_event) :
  open_sock c w = Some s →
  rx s = RxData P :: RxEof :: rest →
  (∀ k e, head (tx s) ≠ Some (TxErr k e)) →
  P ≠ [] → (length P ≤ 1024)%nat →
  Utf8.decode P = Some data →
  let w' := (handle_clientconnection c w).2 in
  (shows (stdout_chars w) data = true →
   sent_on c w' = sent_on c w ++ [echo_prefix ++ P]
   ∧ open_sock c w' = None
   ∧ ∀ c', c' ≠ c → sent_on c' w' = sent_on c' w)
  ∧ (shows (stdout_chars w) data = false →
     sent_on c w' = sent_on c w ∧ open_sock c w' = None).
Proof.
  intros Hopen Hrx Htx HP Hlen Hdec w'. split; intros Hshow.
  2:{ subst w'.
      assert (Hrun : sock_run (stdout_chars w) s (Ok tt) (set_rx (RxEof :: rest) s) []).
      { apply run_break. unfold sock_turn. rewrite Hrx. cbv zeta.
        rewrite take_ge, Hdec by done. rewrite decide_True by done.
        case_bool_decide; [done|]. by rewrite shows_log_line, Hshow. }
      rewrite (handle_clientconnection_of_run c w s _ _ _ Hopen Hrun).
      split.
      - destruct (close_err s); cbn [snd];
          by rewrite sent_on_set, (sent_on_open c w s).
      - unfold open_sock. destruct (close_err s);
          cbn [snd socks set_stdout set_sock]; by rewrite lookup_insert_eq. }
  pose proof (sock_turn_echo (stdout_chars w) s P (RxEof :: rest) data Hrx
                Hlen Hdec HP Hshow Htx) as Hturn.
  set (s1 := set_tx_sent (tail (tx s)) (sent s ++ [echo_prefix ++ P])
               (set_rx (RxEof :: rest) s)) in *.
  assert (Hrun : sock_run (stdout_chars w) s (Ok tt) s1
                   ([lit "Received from client: " ++ data] ++ [])).
  { eapply run_continue; [exact Hturn|].
    apply run_break. by apply (sock_turn_eof _ s1 rest). }
  pose proof (handle_clientconnection_of_run c w s _ _ _ Hopen Hrun) as Hh.
  subst w'. split_and!.
  - rewrite Hh. destruct (close_err s); simpl;
      rewrite sent_on_set, (sent_on_open c w s) by done; done.
  - rewrite Hh. unfold open_sock. simpl. by rewrite lookup_insert_eq.
  - intros c' Hc. apply (sent_on_elsewhere c); [|done].
    apply handle_clientconnection_elsewhere.
Qed.

Lemma C1_single_read_echo_witness :
  let w := world_of {[ 7%nat := peer_sends [RxData (blit "hello"); RxEof];
                       8%nat := peer_sends [RxData (blit "other")] ]} [] 0 in
  let w' := (handle_clientconnection 7 w).2 in
  sent_on 7 w' = [blit "Server received: hello"]
  ∧ open_sock 7 w' = None
  ∧ ∀ c', c' ≠ 7%nat → sent_on c' w' = sent_on c' w.
Proof.
  intros w w'.
  apply (C1_single_read_echo 7 w (peer_sends [RxData (blit "hello"); RxEof])
           (blit "hello") (lit "hello") []).
  - reflexivity.
  - reflexivity.
  - intros k e. simpl. discriminate.
  - discriminate.
  - vm_compute. lia.
  - reflexivity.
  - reflexivity.
Defined.

(** ** C2: the wire format *)

(** C2, as stated, fails.  For the request "hello" the server writes the 22
    bytes "Server received: hello" and nothing before them: not the frame
    of that payload, and no frame of any payload. *)
Lemma C2_unframed_counterexample :
  let w' :=
    (handle_clientconnection 7
       (world_of {[ 7%nat := peer_sends [RxData (blit "hello"); RxEof] ]}
          [] 0)).2 in
  sent_on 7 w' = [blit "Server received: hello"]
  ∧ framed (blit "Server received: hello") = false
  ∧ sent_on 7 w' ≠ [spec_frame (blit "Server received: hello")].
Proof. split_and!; by vm_compute. Qed.

(** C2 (amended).  The server writes raw bytes, with no length field.  The
    writes of a session answer, in order, the first reads of the
    connection, each read being what [recv(1024)] returned: every write is
    the UTF-8 bytes "Server received: " followed by the bytes of its read,
    whole; the one exception is a write whose send failed, which is the
    last, and of which the part went out that the failing send let out.
    None of the writes is a frame.  The source has no maximum and no
    FrameTooLarge failure. *)
Theorem C2_writes_are_raw_replies (c : fd) (w : world) (s : sock) :
  open_sock c w = Some s →
  ∃ reads news : list bytes,
    sent_on c (handle_clientconnection c w).2 = sent_on c w ++ news
    ∧ reads `prefix_of` reads_of (rx s)
    ∧ Forall (λ ch, (length ch ≤ 1024)%nat ∧ ch ≠ []) reads
    ∧ raw_replies (tx s) reads news
    ∧ Forall (λ m, framed m = false) news.
Proof.
  intros Hopen.
  destruct (handle_clientconnection_raw_trace c w s Hopen)
    as (reads & texts & news & Hs & _ & Hf & _ & Hrep & Hpre).
  exists reads, news. rewrite (sent_on_open c w s) by done.
  split_and!; try done.
  - destruct Hpre as [more Hmore].
    pose proof (reads_of_bounded (rx s)) as Hb. rewrite Hmore in Hb.
    by apply Forall_app in Hb as [Hb _].
  - destruct (handle_clientconnection_output c w) as (news' & _ & Hs' & Hn & _).
    rewrite (sent_on_open c w s) in Hs' by done.
    rewrite Hs in Hs'. apply app_inv_head in Hs'. subst news'.
    eapply Forall_impl; [exact Hn|]. apply echo_write_not_framed.
Qed.

Lemma C2_writes_are_raw_replies_witness :
  let s := set_tx_sent [TxOk; TxErr 18 BrokenPipeError] []
             (peer_sends [RxData (blit "ab"); RxData (blit "cd");
                          RxData (blit "ef"); RxEof]) in
  let w := world_of {[ 7%nat := s ]} [] 0 in
  sent_on 7 (handle_clientconnection 7 w).2
  = [blit "Server received: ab"; blit "Server received: c"]
  ∧ ∃ reads news : list bytes,
      sent_on 7 (handle_clientconnection 7 w).2 = sent_on 7 w ++ news
      ∧ reads `prefix_of` reads_of (rx s)
      ∧ Forall (λ ch, (length ch ≤ 1024)%nat ∧ ch ≠ []) reads
      ∧ raw_replies (tx s) reads news
      ∧ Forall (λ m, framed m = false) news.
Proof.
  intros s w. split; [by vm_compute|].
  apply (C2_writes_are_raw_replies 7 w s). reflexivity.
Defined.

(** ** C3: the round trip *)

(** C3, as stated, fails.  What the code reads back from a payload on the
    wire is [recv(1024).decode('utf-8')]: for a payload that is not UTF-8
    the read raises, and from 1025 bytes it yields the first 1024. *)
Lemma C3_read_back_counterexample :
  let read (P : bytes) :=
    (raw <- recv 7 1024 ;; bytes_decode raw)
      (world_of {[ 7%nat := peer_sends [RxData P] ]} [] 0) in
  (N.of_nat (length [xff]) <= spec_max_frame_size
   ∧ (read [xff]).1 = Raise UnicodeDecodeError)
  ∧ (N.of_nat (length (replicate 1025 x61)) <= spec_max_frame_size
     ∧ Utf8.decode (replicate 1025 x61) = Some (replicate 1025 97)
     ∧ (read (replicate 1025 x61)).1 = Ok (replicate 1024 97)).
Proof. split_and!; by vm_compute. Qed.

(** C3 (amended).  The codec of the code is UTF-8, and decoding is the
    inverse of encoding: text encodes to P exactly when P decodes to that
    text; and when the encoded text is at most 1024 bytes long and one read
    delivers it whole, [recv(1024).decode('utf-8')] yields exactly the
    text.  There is no frame. *)
Theorem C3_utf8_round_trip (c : fd) (w : world) (s : sock) (text : str)
    (P : bytes) (rest : list rx_event) :
  (Utf8.encode text = Some P ↔ Utf8.decode P = Some text)
  ∧ (Utf8.encode text = Some P →
     (length P ≤ 1024)%nat →
     open_sock c w = Some s →
     rx s = RxData P :: rest →
     (raw <- recv c 1024 ;; bytes_decode raw) w
     = (Ok text, set_sock c (set_rx rest s) w)).
Proof.
  split.
  - split; [apply Utf8Facts.decode_encode|apply Utf8Facts.encode_decode].
  - intros Henc Hlen Hopen Hrx. unfold bind, recv, bytes_decode.
    rewrite Hopen, Hrx. rewrite decide_True by done.
    by rewrite (Utf8Facts.decode_encode _ _ Henc).
Qed.

Lemma C3_utf8_round_trip_witness :
  let w := world_of {[ 7%nat := peer_sends [RxData [xc3; xa9]; RxEof] ]} [] 0 in
  (raw <- recv 7 1024 ;; bytes_decode raw) w
  = (Ok [233], set_sock 7 (set_rx [RxEof] (peer_sends [RxData [xc3; xa9]; RxEof])) w).
Proof.
  intros w.
  apply (proj2 (C3_utf8_round_trip 7 w (peer_sends [RxData [xc3; xa9]; RxEof])
                  [233] [xc3; xa9] [RxEof])).
  - reflexivity.
  - simpl. lia.
  - reflexivity.
  - reflexivity.
Defined.

(** ** C4: an error stays in its session *)

(** C4.  Let thread [i] serve socket [c], which is not the listening
    socket.  An error raised inside the [try:] of its loop is caught by the
    turn, which only leaves the loop; the loop never ends with an
    exception, and the one exception that can leave the handler is that of
    the close after the loop; the handler changes nothing in the world but
    its own socket and standard output; a thread left to run by itself
    does what the handler does; and under every schedule of the threads,
    all other sessions and the accept loop proceed exactly as they do when
    thread [i] never runs at all. *)
Theorem C4_session_errors_are_isolated (sched : list task) (sys : system)
    (i : nat) (c : fd) (st : tstatus) :
  threads (sys_world sys) !! i = Some (c, st) →
  sys_listener sys ≠ Some c →
  (∀ w e w1, session_try c w = (Raise e, w1) →
             session_iter c w = (Ok Break, w1))
  ∧ (∀ w e, (session_loop c w).1 ≠ Raise e)
  ∧ (∀ w e, (handle_clientconnection c w).1 = Raise e →
            ∃ s, open_sock c w = Some s ∧ close_err s = Some e)
  ∧ (∀ w, same_elsewhere c w (handle_clientconnection c w).2)
  ∧ (st = TRunning →
     ∃ n, Nat.iter n (handler_step i) (sys_world sys)
          = set_status i
              (status_of (handle_clientconnection c (sys_world sys)).1)
              (handle_clientconnection c (sys_world sys)).2)
  ∧ unaffected c (run sched sys)
      (run (filter (λ t, t ≠ Handler i) sched) sys).
Proof.
  intros Hi Hls. split_and!.
  - intros w e w1 H. unfold session_iter, try_except. by rewrite H.
  - apply session_loop_never_raises.
  - apply handle_clientconnection_raises.
  - apply handle_clientconnection_elsewhere.
  - intros ->. by apply handler_thread_adequate.
  - apply (run_unaffected c i sched sys sys st); [done..|].
    split; [done|apply agree_refl].
Qed.

Lemma C4_session_errors_are_isolated_witness :
  let w := World {[ 3%nat := set_listening true
                               (queue_of [Accepted 9 (Addr (10, 0, 0, 3) 50003)]);
                    7%nat := peer_sends [RxData [xff]; RxData (blit "never read")];
                    8%nat := peer_sends [RxData (blit "hello"); RxEof];
                    9%nat := peer_sends [RxErr ConnectionResetError] ]}
             [] [] utf8_chars ∅
             (<["server_socket" := PSocket 3%nat]>
                (frame_of (lit "localhost") 8080))
             [(7%nat, TRunning); (8%nat, TRunning)] 4 in
  let sys := System w (Some 3%nat) in
  let sched := [Handler 1; Handler 0; Listener; Handler 0; Handler 2;
                Handler 1; Listener] in
  threads (sys_world (run sched sys))
  = [(7%nat, TFinished); (8%nat, TFinished); (9%nat, TFinished)]
  ∧ sent_on 8 (sys_world (run sched sys)) = [blit "Server received: hello"]
  ∧ unaffected 7 (run sched sys)
      (run (filter (λ t, t ≠ Handler 0) sched) sys).
Proof.
  intros w sys sched. split_and!.
  - by vm_compute.
  - by vm_compute.
  - apply (C4_session_errors_are_isolated sched sys 0 7 TRunning).
    + reflexivity.
    + discriminate.
Defined.

(** ** C5: the number of sessions *)

(** C5, as stated, fails.  With a maximum of one session, two connections
    are queued: the first is given a session, and the second, which arrives
    while one session is live, is given a session too.  Neither handler has
    run a step, so both sessions are live. *)
Lemma C5_no_ceiling_counterexample :
  let a1 := Addr (10, 0, 0, 1) 50001 in
  let a2 := Addr (10, 0, 0, 2) 50002 in
  let w := world_of {[ 3%nat := queue_of [Accepted 7 a1; Accepted 8 a2];
                       7%nat := peer_sends [];
                       8%nat := peer_sends [] ]} [3%nat] 5 in
  let w' := (start_server (lit "localhost") 8080 w).2 in
  threads w' = [(7%nat, TRunning); (8%nat, TRunning)]
  ∧ live_sessions w' = 2%nat
  ∧ stdout w' = [lit "Server listening on localhost:8080";
                 lit "Connection was accepted from ('10.0.0.1', 50001)";
                 lit "Connection was accepted from ('10.0.0.2', 50002)"].
Proof. split_and!; by vm_compute. Qed.

(** C5 (amended).  The source has no maximum number of sessions.  Once the
    server listens and has announced itself, every queued connection is
    accepted and given a handler thread of its own, whatever the number of
    sessions already live, as long as the operating system can start a
    thread; the server then waits for the next connection, and no socket
    but the listening one is touched.  The announcement is a print of the
    host: with a host that standard output cannot show, the print raises,
    and the server prints the error line and returns None without a single
    session. *)
Theorem C5_every_connection_gets_a_session (host : str) (port : N)
    (w : world) (ls : fd) (fds : list fd) (s : sock)
    (conns : list (fd * addr)) :
  fresh_fds w = ls :: fds →
  open_sock ls w = Some s →
  port <= 65535 →
  bind_err s = None →
  listen_err s = None →
  backlog s = accepted_event <$> conns →
  (length conns ≤ thread_budget w)%nat →
  (shows (stdout_chars w) host = true →
   (start_server host port w).1 = Block
   ∧ threads (start_server host port w).2
     = threads w ++ (new_thread <$> conns)
   ∧ ∀ c, c ≠ ls →
       socks (start_server host port w).2 !! c = socks w !! c)
  ∧ (shows (stdout_chars w) host = false →
     (start_server host port w).1 = Ok PNone
     ∧ threads (start_server host port w).2 = threads w
     ∧ stdout (start_server host port w).2
       = stdout w ++ [lit "Error encountered in start_server"]).
Proof.
  intros Hf Ho Hp Hb Hl Hq Hn. split; intros Hsh.
  2:{ assert (Hno : ¬ ∃ ls s, setup_ok host port w ls s).
      { intros (ls' & s' & _ & _ & _ & _ & _ & Hyes). congruence. }
      destruct (start_server_try_setup_fails host port w Hno)
        as (e & w1 & Htry & Hout1 & Hth1 & _).
      rewrite (start_server_caught host port w e w1 Htry). cbn [fst snd].
      match goal with |- context [leave_frame ?w2] =>
        destruct (leave_frame_rest w2) as (_ & -> & _ & _ & _ & -> & _)
      end.
      cbn [threads stdout set_stdout]. by rewrite Hout1, Hth1. }
  apply open_sock_Some in Ho as Ho'. destruct Ho' as [Hs Hcl].
  pose proof (start_server_try_listening host port w ls fds s Hf Ho Hp Hb Hl
                Hsh) as Htry.
  set (w1 := listening_world host port ls s w) in *.
  rewrite (accept_loop_accepts ls conns w1 (set_listening true s) []) in Htry;
    [|by apply open_sock_set_sock|done|by rewrite app_nil_r|done].
  set (w2 := set_threads _ _ _) in Htry.
  rewrite accept_loop_eq in Htry.
  rewrite (accept_iter_empty ls w2 (set_backlog [] (set_listening true s)))
    in Htry; [|by apply open_sock_set_sock|done|done].
  rewrite (start_server_waits host port w w2 Htry).
  cbn [fst snd]. split_and!; try done.
  intros c Hc. subst w2 w1. unfold listening_world. simpl.
  by rewrite !lookup_insert_ne.
Qed.

Lemma C5_every_connection_gets_a_session_witness :
  let a1 := Addr (10, 0, 0, 1) 50001 in
  let a2 := Addr (10, 0, 0, 2) 50002 in
  let a3 := Addr (10, 0, 0, 3) 50003 in
  let w := world_of {[ 3%nat := queue_of [Accepted 7 a1; Accepted 8 a2;
                                          Accepted 9 a3] ]} [3%nat] 3 in
  (start_server (lit "localhost") 8080 w).1 = Block
  ∧ threads (start_server (lit "localhost") 8080 w).2
    = [(7%nat, TRunning); (8%nat, TRunning); (9%nat, TRunning)].
Proof.
  intros a1 a2 a3 w.
  destruct (C5_every_connection_gets_a_session (lit "localhost") 8080 w 3 []
              (queue_of [Accepted 7 a1; Accepted 8 a2; Accepted 9 a3])
              [(7%nat, a1); (8%nat, a2); (9%nat, a3)]) as [Hyes _].
  - reflexivity.
  - reflexivity.
  - lia.
  - reflexivity.
  - reflexivity.
  - reflexivity.
  - simpl. lia.
  - destruct (Hyes eq_refl) as (H1 & H2 & _). split; [exact H1|exact H2].
Defined.

(** ** C6: the socket is closed on every way out *)

(** C6.  Whenever the handler ends, by returning or with an exception, its
    socket has been closed: the socket that the descriptor named is still
    there and is marked closed, and the descriptor is no longer open.  The
    handler fails to end only while the peer neither shuts down nor fails,
    that is when every event still to come on the socket is data. *)
Theorem C6_closed_on_every_exit (c : fd) (w : world) :
  ((handle_clientconnection c w).1 ≠ Block →
   open_sock c (handle_clientconnection c w).2 = None
   ∧ ∀ s, socks w !! c = Some s →
          ∃ s', socks (handle_clientconnection c w).2 !! c = Some s'
                ∧ closed s' = true)
  ∧ ((handle_clientconnection c w).1 = Block →
     ∃ s, open_sock c w = Some s ∧ only_data (rx s)).
Proof.
  split.
  - intros Hend. split; [by apply handle_clientconnection_closes|].
    intros s Hs. by apply (handle_clientconnection_marks_closed c w s).
  - destruct (open_sock c w) as [s|] eqn:Hopen.
    + destruct (handle_clientconnection_run c w s Hopen)
        as (r & s' & out & Hrun & ->).
      apply sock_run_spec in Hrun as (_ & Hraise & _ & _ & Hblock).
      destruct r as [[]|e|]; cbn [fst].
      * by destruct (close_err s).
      * done.
      * intros _. exists s. split; [done|]. by apply Hblock.
    + by rewrite handle_clientconnection_not_open.
Qed.

Lemma C6_closed_on_every_exit_witness :
  let s := peer_sends [RxData (blit "hi"); RxErr ConnectionResetError] in
  let w := world_of {[ 7%nat := s ]} [] 0 in
  (handle_clientconnection 7 w).1 = Ok PNone
  ∧ open_sock 7 (handle_clientconnection 7 w).2 = None
  ∧ ∃ s', socks (handle_clientconnection 7 w).2 !! 7%nat = Some s'
          ∧ closed s' = true.
Proof.
  intros s w. split; [reflexivity|].
  destruct (proj1 (C6_closed_on_every_exit 7 w)) as [H1 H2]; [discriminate|].
  split; [exact H1|]. apply (H2 s). reflexivity.
Defined.

(** ** C7: what is recorded of a caught error *)

(** C7, as stated, fails.  The connection is reset under the handler: the
    loop catches the error, the handler returns None, and nothing at all
    has been printed. *)
Lemma C7_silent_catch_counterexample :
  let w := world_of {[ 7%nat := peer_sends [RxErr ConnectionResetError] ]}
             [] 0 in
  (session_try 7 w).1 = Raise ConnectionResetError
  ∧ (handle_clientconnection 7 w).1 = Ok PNone
  ∧ stdout (handle_clientconnection 7 w).2 = [].
Proof. split_and!; by vm_compute. Qed.

(** C7 (amended).  An error caught in the session loop leaves no record: the
    [except:] clause only leaves the loop, with the world as the failing
    statement left it, and every line a handler prints is a "Received from
    client: " line.  An error caught in [start_server] prints the one line
    "Error encountered in start_server", the same for every error; the
    function then returns None and its local names go away. *)
Theorem C7_caught_errors_leave_no_record (c : fd) (host : str) (port : N)
    (w : world) :
  (∀ e w1, session_try c w = (Raise e, w1) →
           session_iter c w = (Ok Break, w1))
  ∧ (∃ lines, stdout (handle_clientconnection c w).2 = stdout w ++ lines
              ∧ Forall received_line lines)
  ∧ (∀ e w1,
       start_server_try host port (set_locals (frame_of host port) w)
       = (Raise e, w1) →
       start_server host port w
       = (Ok PNone,
          leave_frame
            (set_stdout
               (stdout w1 ++ [lit "Error encountered in start_server"])
               w1))
       ∧ stdout (start_server host port w).2
         = stdout w1 ++ [lit "Error encountered in start_server"]).
Proof.
  split_and!.
  - intros e w1 H. unfold session_iter, try_except. by rewrite H.
  - destruct (handle_clientconnection_output c w) as (_ & lines & _ & _ & H).
    by exists lines.
  - intros e w1 H. rewrite (start_server_caught host port w e w1 H).
    split; [done|]. cbn [snd].
    by destruct (leave_frame_rest
                   (set_stdout
                      (stdout w1 ++ [lit "Error encountered in start_server"])
                      w1)) as (_ & -> & _).
Qed.

Lemma C7_caught_errors_leave_no_record_witness :
  let w := world_of {[ 3%nat := queue_of [AcceptErr TimeoutError];
                       7%nat := peer_sends [RxErr ConnectionResetError] ]}
             [3%nat] 0 in
  session_iter 7 w
  = (Ok Break, set_sock 7 (peer_sends []) w)
  ∧ (start_server (lit "localhost") 8080 w).1 = Ok PNone
  ∧ stdout (start_server (lit "localhost") 8080 w).2
    = [lit "Server listening on localhost:8080";
       lit "Error encountered in start_server"].
Proof.
  intros w. split_and!.
  - apply (proj1 (C7_caught_errors_leave_no_record 7 [] 0 w)
             ConnectionResetError).
    reflexivity.
  - by vm_compute.
  - by vm_compute.
Defined.

(** ** C8: a failing bind *)




(** ** C9: start_client *)

(** C9.  For every host, port and message, [start_client] returns None and
    leaves the world as it is: it performs no input or output.  The client
    code runs when the module is imported instead: the import creates the
    client socket, and in a module where [host] is not bound it stops at
    that name, prints "Error encountered in start_client" and touches no
    socket. *)
Theorem C9_start_client_is_empty (host port message : pyval) (w : world) :
  start_client host port message w = (Ok PNone, w)
  ∧ (∀ c fds, fresh_fds w = c :: fds →
       fresh_fds (module_toplevel w).2 = fds
       ∧ (globals w !! "host" = None →
          (module_toplevel w).1 = Ok tt
          ∧ stdout (module_toplevel w).2
            = stdout w ++ [lit "Error encountered in start_client"]
          ∧ socks (module_toplevel w).2 = socks w)).
Proof.
  split; [done|]. intros c fds Hf. split.
  - by eapply module_toplevel_creates_socket.
  - by eapply module_toplevel_unbound.
Qed.

Lemma C9_start_client_is_empty_witness :
  let w := world_of {[ 4%nat := peer_sends [RxData (blit "Server received: hi")] ]}
             [4%nat] 0 in
  start_client (PStr (lit "localhost")) (PInt 8080) (PStr (lit "hi")) w
  = (Ok PNone, w)
  ∧ fresh_fds (module_toplevel w).2 = []
  ∧ stdout (module_toplevel w).2 = [lit "Error encountered in start_client"].
Proof.
  intros w.
  pose proof (C9_start_client_is_empty (PStr (lit "localhost")) (PInt 8080)
                (PStr (lit "hi")) w) as [H1 H2].
  destruct (H2 4%nat [] eq_refl) as [H3 H4].
  destruct (H4 eq_refl) as (_ & H5 & _).
  split_and!; [exact H1|exact H3|exact H5].
Defined.

(** ** C10: messages longer than one read *)

(** C10, as stated, fails in its last part.  A message of 1025 bytes, 1023
    letters and one two-byte character, is well-formed UTF-8, but its
    first 1024 bytes end in the middle of the character: the decode raises
    and the session closes without a single echo. *)
Lemma C10_split_character_counterexample :
  let M : bytes := replicate 1023 x61 ++ [xc3; xa9] in
  let w := world_of {[ 7%nat := peer_sends [RxData M; RxEof] ]} [] 0 in
  length M = 1025%nat
  ∧ Utf8.decode M = Some (replicate 1023 97 ++ [233])
  ∧ (handle_clientconnection 7 w).1 = Ok PNone
  ∧ sent_on 7 (handle_clientconnection 7 w).2 = [].
Proof. split_and!; by vm_compute. Qed.

(** C10 (amended).  Every response the server writes has at most 1024 bytes
    after the 17 bytes of the prefix.  A message longer than 1024 bytes
    falls into at least two chunks of at most 1024 bytes, and when it has
    arrived whole it is answered by one echo per chunk, provided every
    chunk is well-formed UTF-8 by itself, standard output can show the
    text of every chunk, and the sends succeed. *)
Theorem C10_chunked_echo (c : fd) (w : world) (s : sock) (M : bytes)
    (rest : list rx_event) :
  let w' := (handle_clientconnection c w).2 in
  (∃ news, sent_on c w' = sent_on c w ++ news
           ∧ Forall (λ m, (length m ≤ 17 + 1024)%nat) news)
  ∧ ((1024 < length M)%nat →
     (2 ≤ length (chunks M))%nat
     ∧ concat (chunks M) = M
     ∧ Forall (λ ch, (length ch ≤ 1024)%nat ∧ ch ≠ []) (chunks M))
  ∧ (open_sock c w = Some s →
     rx s = RxData M :: RxEof :: rest →
     tx s = [] →
     Forall (shown (stdout_chars w)) (chunks M) →
     sent_on c w' = sent_on c w ++ ((λ ch, echo_prefix ++ ch) <$> chunks M)).
Proof.
  intros w'. subst w'. split_and!.
  - destruct (handle_clientconnection_output c w) as (news & _ & Hs & Hn & _).
    exists news. split; [done|].
    eapply Forall_impl; [exact Hn|]. apply echo_write_length.
  - intros Hlen. split; [by apply chunks_long|].
    by apply (chunks_bounded (length M)).
  - intros Hopen Hrx Htx Hdec.
    destruct (sock_run_chunks (stdout_chars w) (length M) M s rest)
      as (s' & out & Hrun & Hsent); [done..|].
    rewrite (handle_clientconnection_of_run c w s _ _ _ Hopen Hrun).
    rewrite (sent_on_open c w s) by done.
    destruct (close_err s); cbn [snd]; by rewrite sent_on_set.
Qed.

Lemma C10_chunked_echo_witness :
  let M : bytes := replicate 1500 x61 in
  let w := world_of {[ 7%nat := peer_sends [RxData M; RxEof] ]} [] 0 in
  sent_on 7 (handle_clientconnection 7 w).2
  = [echo_prefix ++ replicate 1024 x61; echo_prefix ++ replicate 476 x61].
Proof.
  intros M w.
  apply (proj2 (proj2 (C10_chunked_echo 7 w (peer_sends [RxData M; RxEof])
                         M []))).
  - reflexivity.
  - reflexivity.
  - reflexivity.
  - apply all_shown_check. vm_compute. reflexivity.
Defined.

(* ===================================================================== *)
(** * Further properties of the code *)
(* ===================================================================== *)

(** ** The session handler *)

(** X1.  The handler echoes only what the peer sent, in the order it was
    sent: the chunks it answers, put end to end, are the beginning of the
    bytes the peer sends before it shuts down or fails; each is answered by
    the prefix followed by the chunk, and only the last answer can be cut
    short, when its send fails. *)
Theorem X1_echoes_follow_the_stream (c : fd) (w : world) (s : sock) :
  open_sock c w = Some s →
  ∃ chunks news,
    sent_on c (handle_clientconnection c w).2 = sent s ++ news
    ∧ replies_to chunks news
    ∧ concat chunks `prefix_of` data_stream (rx s).
Proof.
  intros Hopen.
  destruct (handle_clientconnection_trace c w s Hopen)
    as (chunks & texts & news & Hs & _ & _ & Hrep & Hpre).
  by exists chunks, news.
Qed.

Lemma X1_echoes_follow_the_stream_witness :
  let s := set_tx_sent [TxOk; TxErr 19 BrokenPipeError] []
             (peer_sends [RxData (blit "ab"); RxData (blit "cd");
                          RxData (blit "ef"); RxEof]) in
  let w := world_of {[ 7%nat := s ]} [] 0 in
  ∃ chunks news,
    sent_on 7 (handle_clientconnection 7 w).2 = sent s ++ news
    ∧ replies_to chunks news
    ∧ concat chunks `prefix_of` data_stream (rx s).
Proof.
  intros s w. apply (X1_echoes_follow_the_stream 7 w s). reflexivity.
Defined.

(** X2.  The handler prints one line for every write it makes, and in the
    same order: the line shows the text decoded from the chunk that the
    write answers. *)
Theorem X2_one_log_line_per_write (c : fd) (w : world) (s : sock) :
  open_sock c w = Some s →
  ∃ chunks texts news,
    sent_on c (handle_clientconnection c w).2 = sent s ++ news
    ∧ stdout (handle_clientconnection c w).2 = stdout w ++ (log_line <$> texts)
    ∧ length news = length texts
    ∧ Forall2 (λ ch text, Utf8.decode ch = Some text) chunks texts
    ∧ Forall2 (λ ch m, ∃ k, m = take k (echo_prefix ++ ch)) chunks news.
Proof.
  intros Hopen.
  destruct (handle_clientconnection_trace c w s Hopen)
    as (chunks & texts & news & Hs & Hout & Hf & Hrep & _).
  exists chunks, texts, news. split_and!; try done.
  - rewrite (replies_to_length chunks news Hrep).
    by apply Forall2_length in Hf.
  - by apply replies_to_Forall2.
Qed.

Lemma X2_one_log_line_per_write_witness :
  let s := peer_sends [RxData (blit "ab"); RxData [xc3; xa9]; RxData [xff]] in
  let w := world_of {[ 7%nat := s ]} [] 0 in
  ∃ chunks texts news,
    sent_on 7 (handle_clientconnection 7 w).2 = sent s ++ news
    ∧ stdout (handle_clientconnection 7 w).2 = stdout w ++ (log_line <$> texts)
    ∧ length news = length texts
    ∧ Forall2 (λ ch text, Utf8.decode ch = Some text) chunks texts
    ∧ Forall2 (λ ch m, ∃ k, m = take k (echo_prefix ++ ch)) chunks news.
Proof.
  intros s w. apply (X2_one_log_line_per_write 7 w s). reflexivity.
Defined.

(** X3.  The reply carries the received bytes unchanged.  For every chunk
    that [decode] accepts, the [encode] of the reply cannot fail, and it
    yields the bytes of "Server received: " followed by exactly the bytes
    of the chunk. *)
Theorem X3_reply_bytes_are_the_chunk (chunk : bytes) (text : str)
    (w : world) :
  bytes_decode chunk w = (Ok text, w) →
  str_encode (lit "Server received: " ++ text) w
  = (Ok (echo_prefix ++ chunk), w).
Proof.
  unfold bytes_decode, str_encode.
  destruct (Utf8.decode chunk) as [t|] eqn:Hdec; [|done].
  intros [= ->]. by rewrite (encode_reply chunk text Hdec).
Qed.

Lemma X3_reply_bytes_are_the_chunk_witness :
  let w := world_of ∅ [] 0 in
  str_encode (lit "Server received: " ++ [104; 233; 8364]) w
  = (Ok (echo_prefix ++ [x68; xc3; xa9; xe2; x82; xac]), w).
Proof.
  intros w.
  apply (X3_reply_bytes_are_the_chunk [x68; xc3; xa9; xe2; x82; xac]
           [104; 233; 8364] w).
  reflexivity.
Defined.

(** X4.  Calling the handler again on a socket it has finished with does
    nothing: the first [recv] raises, the [except:] leaves the loop, the
    close has no effect, and the call returns None. *)
Theorem X4_handler_is_idempotent (c : fd) (w : world) :
  (handle_clientconnection c w).1 ≠ Block →
  handle_clientconnection c (handle_clientconnection c w).2
  = (Ok PNone, (handle_clientconnection c w).2).
Proof.
  intros Hend. apply handle_clientconnection_not_open.
  by apply handle_clientconnection_closes.
Qed.

Lemma X4_handler_is_idempotent_witness :
  let w := world_of {[ 7%nat := peer_sends [RxData (blit "once"); RxEof;
                                            RxData (blit "late")] ]} [] 0 in
  handle_clientconnection 7 (handle_clientconnection 7 w).2
  = (Ok PNone, (handle_clientconnection 7 w).2).
Proof.
  intros w. apply (X4_handler_is_idempotent 7 w). discriminate.
Defined.

(** X5.  A peer that sends any number of requests, each arriving whole in a
    read of its own, non-empty, at most 1024 bytes long and well-formed
    UTF-8 with a text that standard output can show, and that then shuts
    down or fails, on a socket of which no send fails, gets exactly one
    reply per request, in the order of the requests, and one line is
    printed for each; then the socket is closed. *)
Theorem X5_one_reply_per_request (c : fd) (w : world) (s : sock)
    (pieces : list bytes) (ev : rx_event) (rest : list rx_event) :
  open_sock c w = Some s →
  rx s = (RxData <$> pieces) ++ ev :: rest →
  (∀ bs, ev ≠ RxData bs) →
  Forall (λ t, t = TxOk) (tx s) →
  Forall (λ p, p ≠ [] ∧ (length p ≤ 1024)%nat ∧ shown (stdout_chars w) p)
    pieces →
  sent_on c (handle_clientconnection c w).2
  = sent s ++ ((λ p, echo_prefix ++ p) <$> pieces)
  ∧ (∃ texts,
       Forall2 (λ p text, Utf8.decode p = Some text) pieces texts
       ∧ stdout (handle_clientconnection c w).2
         = stdout w ++ (log_line <$> texts))
  ∧ ∃ s', socks (handle_clientconnection c w).2 !! c = Some s'
          ∧ closed s' = true.
Proof.
  intros Hopen Hrx Hev Htx Hall.
  destruct (sock_run_requests (stdout_chars w) pieces s ev rest Hrx Hev Htx
              Hall) as (s' & texts & Hrun & Hsent & Hf).
  rewrite (handle_clientconnection_of_run c w s _ _ _ Hopen Hrun).
  split_and!.
  - destruct (close_err s); cbn [snd]; by rewrite sent_on_set.
  - exists texts. split; [done|]. by destruct (close_err s).
  - exists (set_closed true s').
    destruct (close_err s); cbn [snd socks set_stdout set_sock];
      by rewrite lookup_insert_eq.
Qed.

Lemma X5_one_reply_per_request_witness :
  let s := peer_sends [RxData (blit "one"); RxData (blit "two");
                       RxData (blit "three"); RxEof] in
  let w := world_of {[ 7%nat := s ]} [] 0 in
  sent_on 7 (handle_clientconnection 7 w).2
  = [blit "Server received: one"; blit "Server received: two";
     blit "Server received: three"].
Proof.
  intros s w.
  destruct (X5_one_reply_per_request 7 w s
              [blit "one"; blit "two"; blit "three"] RxEof []) as [H _].
  - reflexivity.
  - reflexivity.
  - discriminate.
  - constructor.
  - apply Forall_forall. intros p Hp.
    assert (Hcheck : forallb (λ p : bytes,
              negb (bool_decide (p = [])) && bool_decide (length p ≤ 1024)%nat
              && (if Utf8.decode p is Some data
                  then shows utf8_chars data else false))
              [blit "one"; blit "two"; blit "three"] = true)
      by (vm_compute; reflexivity).
    rewrite forallb_forall in Hcheck. apply list_elem_of_In in Hp.
    specialize (Hcheck p Hp).
    apply andb_true_iff in Hcheck as [Hc Hdec].
    apply andb_true_iff in Hc as [Hne Hlen].
    apply negb_true_iff, bool_decide_eq_false in Hne.
    apply bool_decide_eq_true in Hlen.
    split_and!; [done..|]. unfold shown.
    destruct (Utf8.decode p) as [data|]; [by exists data|done].
  - exact H.
Defined.

(** ** The server *)

(** X6.  [start_server] has two outcomes only.  Either it waits for a
    connection, on an open listening socket with nothing queued; or it
    returns None, and then the last thing it printed is "Error encountered
    in start_server".  It never returns without that line, and no
    exception leaves it. *)
Theorem X6_server_ends_only_by_error (host : str) (port : N) (w : world) :
  ((start_server host port w).1 = Block
   ∧ ∃ ls s, head (fresh_fds w) = Some ls
             ∧ open_sock ls (start_server host port w).2 = Some s
             ∧ listening s = true ∧ backlog s = [])
  ∨ ((start_server host port w).1 = Ok PNone
     ∧ ∃ before, stdout (start_server host port w).2
                 = before ++ [lit "Error encountered in start_server"]).
Proof.
  assert (Hcaught : ∀ e w1,
    start_server_try host port (set_locals (frame_of host port) w)
    = (Raise e, w1) →
    (start_server host port w).1 = Ok PNone
    ∧ ∃ before, stdout (start_server host port w).2
                = before ++ [lit "Error encountered in start_server"]).
  { intros e w1 Htry. rewrite (start_server_caught host port w e w1 Htry).
    split; [done|]. cbn [snd].
    destruct (leave_frame_rest
                (set_stdout
                   (stdout w1 ++ [lit "Error encountered in start_server"])
                   w1)) as (_ & -> & _).
    by eexists. }
  destruct (setup_ok_dec host port w) as [(ls & s & Hok)|Hno].
  - pose proof (start_server_try_setup_ok host port w ls s Hok) as Htry.
    destruct (accept_loop_result ls (listening_world host port ls s w))
      as (Hnever & _ & _ & Hblock).
    destruct (accept_loop ls (listening_world host port ls s w))
      as [[a|e|] w1]; cbn [fst snd] in *.
    + by destruct (Hnever a).
    + right. by apply (Hcaught e w1).
    + left. rewrite (start_server_waits host port w w1 Htry).
      split; [done|]. destruct (Hblock eq_refl) as (s1 & ? & ? & ?).
      destruct Hok as (? & _). by exists ls, s1.
  - destruct (start_server_try_setup_fails host port w Hno)
      as (e & w1 & Htry & _).
    right. by apply (Hcaught e w1).
Qed.

(** X7.  [start_server] never reads from a socket and never writes to one:
    every socket of the world is still there afterwards, with the same
    data to come and the same data sent.  It closes a socket only when it
    returns, never while it waits, and never one that a handler thread
    serves. *)
Theorem X7_server_leaves_the_traffic_alone (host : str) (port : N)
    (w : world) (c : fd) (s : sock) :
  socks w !! c = Some s →
  ∃ s', socks (start_server host port w).2 !! c = Some s'
        ∧ rx s' = rx s ∧ tx s' = tx s ∧ sent s' = sent s
        ∧ (closed s' = closed s
           ∨ (closed s' = true
              ∧ (start_server host port w).1 ≠ Block
              ∧ c ∉ (threads (start_server host port w).2).*1)).
Proof.
  intros Hs. rewrite start_server_ends. cbv zeta.
  pose proof (keeps_traffic_start_server_body host port
                (set_locals (frame_of host port) w)) as Htr.
  destruct ((try_except (start_server_try host port)
               (λ _, start_server_except) ;; ret PNone)
              (set_locals (frame_of host port) w)) as [r w1].
  cbn [fst snd] in *.
  destruct (Htr c s Hs) as (s1 & Hs1 & Hrx & Htx & Hsent & Hcl & _).
  assert (Hleft : ∃ s',
    socks (leave_frame w1) !! c = Some s'
    ∧ rx s' = rx s ∧ tx s' = tx s ∧ sent s' = sent s
    ∧ (closed s' = closed s
       ∨ (closed s' = true ∧ c ∉ (threads (leave_frame w1)).*1))).
  { rewrite leave_frame_socks, Hs1. cbn [fmap option_fmap option_map].
    destruct (leave_frame_rest w1) as (_&_&_&_&_&->&_).
    destruct (released w1 c) eqn:Hrel.
    - exists (set_closed true s1). split_and!; try done. right.
      split; [done|]. by apply released_held in Hrel as [? _].
    - exists s1. split_and!; try done. by left. }
  destruct r as [a|e|]; cbn [fst snd].
  - destruct Hleft as (s' & ? & ? & ? & ? & [?|[? ?]]);
      exists s'; split_and!; try done; [by left|by right].
  - destruct Hleft as (s' & ? & ? & ? & ? & [?|[? ?]]);
      exists s'; split_and!; try done; [by left|by right].
  - exists s1. split_and!; try done. by left.
Qed.

Lemma X7_server_leaves_the_traffic_alone_witness :
  let l := queue_of [Accepted 7 (Addr (10, 0, 0, 1) 50001); AcceptErr OSError] in
  let c := peer_sends [RxData (blit "hello")] in
  let w := world_of {[ 3%nat := l; 7%nat := c ]} [3%nat] 4 in
  (start_server (lit "localhost") 8080 w).1 = Ok PNone
  ∧ socks (start_server (lit "localhost") 8080 w).2 !! 7%nat = Some c
  ∧ ∃ s', socks (start_server (lit "localhost") 8080 w).2 !! 7%nat = Some s'
          ∧ rx s' = rx c ∧ tx s' = tx c ∧ sent s' = sent c
          ∧ (closed s' = closed c
             ∨ (closed s' = true
                ∧ (start_server (lit "localhost") 8080 w).1 ≠ Block
                ∧ 7%nat ∉ (threads
                             (start_server (lit "localhost") 8080 w).2).*1)).
Proof.
  intros l c w. split; [by vm_compute|]. split; [by vm_compute|].
  apply (X7_server_leaves_the_traffic_alone (lit "localhost") 8080 w 7 c).
  reflexivity.
Defined.

(** X8.  A failing [accept] ends the server.  The connections queued before
    the failure have each been given a thread, and their sockets are left
    to the threads; those queued behind it are never accepted: the function
    prints the error line and returns None, and with its local names the
    listening socket goes away, closed with the connections still in its
    queue. *)
Theorem X8_accept_failure_ends_the_server (host : str) (port : N)
    (w : world) (ls : fd) (s : sock) (conns : list (fd * addr)) (e : exn)
    (behind : list accept_event) :
  setup_ok host port w ls s →
  backlog s = (accepted_event <$> conns) ++ AcceptErr e :: behind →
  (length conns ≤ thread_budget w)%nat →
  ls ∉ (threads w).*1 → ls ∉ conns.*1 →
  (start_server host port w).1 = Ok PNone
  ∧ threads (start_server host port w).2 = threads w ++ (new_thread <$> conns)
  ∧ (∃ s', socks (start_server host port w).2 !! ls = Some s'
           ∧ closed s' = true ∧ backlog s' = behind)
  ∧ (∀ p, p ∈ conns →
          socks (start_server host port w).2 !! p.1 = socks w !! p.1)
  ∧ stdout (start_server host port w).2
    = stdout w
      ++ [lit "Server listening on " ++ host ++ lit ":" ++ format_N port]
      ++ (accepted_line <$> conns)
      ++ [lit "Error encountered in start_server"].
Proof.
  intros Hok Hq Hn Hlt Hlc.
  pose proof (start_server_try_setup_ok host port w ls s Hok) as Htry.
  destruct Hok as (_ & Ho & _).
  pose proof (listening_world_open host port ls s w Ho) as Ho1.
  set (w1 := listening_world host port ls s w) in *.
  rewrite (accept_loop_accepts ls conns w1 (set_listening true s)
             (AcceptErr e :: behind) Ho1 eq_refl Hq Hn) in Htry.
  set (w2 := set_threads _ _ _) in Htry.
  assert (Ho2 : open_sock ls w2
                = Some (set_backlog (AcceptErr e :: behind)
                          (set_listening true s))).
  { apply open_sock_set_sock. by apply open_sock_Some in Ho as [_ ?]. }
  rewrite (accept_loop_eq ls w2) in Htry.
  rewrite (accept_iter_err ls w2 _ e behind Ho2 eq_refl eq_refl) in Htry.
  rewrite (start_server_caught host port w e _ Htry). cbn [fst snd].
  set (w3 := set_stdout _ _).
  destruct (leave_frame_rest w3) as (_ & Hout & _ & _ & _ & Hth & _).
  rewrite Hout, Hth.
  assert (Hfds : (threads w3).*1 = (threads w).*1 ++ conns.*1).
  { subst w3 w2 w1. unfold listening_world.
    cbn [threads set_stdout set_sock set_threads set_locals set_fresh_fds].
    by rewrite fmap_app, new_thread_fds. }
  assert (Hrel : released w3 ls = true).
  { unfold released, closes. rewrite Hfds.
    assert (locals w3 !! "server_socket" ≫= held = Some ls) as ->.
    { subst w3 w2 w1. unfold listening_world.
      cbn [locals set_stdout set_sock set_threads set_locals set_fresh_fds].
      by rewrite foldl_accepted_locals_server, lookup_insert_eq. }
    rewrite (bool_decide_eq_true_2 (Some ls = Some ls)) by done.
    rewrite (bool_decide_eq_true_2 (ls ∉ _)); [done|].
    intros [?|?]%elem_of_app; done. }
  apply open_sock_Some in Ho as [Hs Hcl].
  split_and!.
  - done.
  - subst w3 w2 w1. unfold listening_world. done.
  - rewrite leave_frame_socks, Hrel.
    subst w3. cbn [socks set_stdout set_sock]. rewrite lookup_insert_eq.
    eexists. split; [done|]. by split.
  - intros p Hp. rewrite leave_frame_socks, released_thread.
    + assert (Hne : ls ≠ p.1).
      { intros ->. apply Hlc. apply list_elem_of_fmap. by exists p. }
      subst w3 w2 w1. unfold listening_world.
      cbn [socks set_stdout set_sock set_threads set_locals set_fresh_fds].
      rewrite !lookup_insert_ne by done. by destruct (socks w !! p.1).
    + rewrite Hfds. apply elem_of_app. right.
      apply list_elem_of_fmap. by exists p.
  - subst w3 w2 w1. unfold listening_world.
    cbn [stdout set_stdout set_sock set_threads set_locals set_fresh_fds].
    by rewrite <-!app_assoc.
Qed.

Lemma X8_accept_failure_ends_the_server_witness :
  let a := Addr (10, 0, 0, 1) 50001 in
  let b := Addr (10, 0, 0, 2) 50002 in
  let l := queue_of [Accepted 7 a; AcceptErr TimeoutError; Accepted 8 b] in
  let w := world_of {[ 3%nat := l ]} [3%nat] 4 in
  (start_server (lit "localhost") 8080 w).1 = Ok PNone
  ∧ threads (start_server (lit "localhost") 8080 w).2 = [(7%nat, TRunning)]
  ∧ ∃ s', socks (start_server (lit "localhost") 8080 w).2 !! 3%nat = Some s'
          ∧ closed s' = true ∧ backlog s' = [Accepted 8 b].
Proof.
  intros a b l w.
  destruct (X8_accept_failure_ends_the_server (lit "localhost") 8080 w 3 l
              [(7%nat, a)] TimeoutError [Accepted 8 b])
    as (H1 & H2 & H3 & _).
  - unfold setup_ok. split_and!; try reflexivity. lia.
  - reflexivity.
  - simpl. lia.
  - by vm_compute; intros ?%elem_of_nil.
  - intros Hin. apply list_elem_of_singleton in Hin. discriminate.
  - by split_and!.
Defined.

(** X9.  When the operating system cannot start another thread, the server
    ends, and the connection it has just accepted is abandoned: the line
    announcing it has been printed, but no thread serves it, nothing is
    read from it or written to it, and when the function returns its
    socket goes away with the local names, closed. *)
Theorem X9_thread_failure_abandons_the_connection (host : str) (port : N)
    (w : world) (ls : fd) (s sp : sock) (conns : list (fd * addr))
    (p : fd * addr) (behind : list accept_event) :
  setup_ok host port w ls s →
  backlog s = (accepted_event <$> conns) ++ accepted_event p :: behind →
  thread_budget w = length conns →
  p.1 ≠ ls → socks w !! p.1 = Some sp →
  p.1 ∉ (threads w).*1 → p.1 ∉ conns.*1 →
  (start_server host port w).1 = Ok PNone
  ∧ threads (start_server host port w).2 = threads w ++ (new_thread <$> conns)
  ∧ socks (start_server host port w).2 !! p.1 = Some (set_closed true sp)
  ∧ stdout (start_server host port w).2
    = stdout w
      ++ [lit "Server listening on " ++ host ++ lit ":" ++ format_N port]
      ++ (accepted_line <$> conns)
      ++ [accepted_line p; lit "Error encountered in start_server"].
Proof.
  intros Hok Hq Hn Hp Hsp Hpt Hpc.
  pose proof (start_server_try_setup_ok host port w ls s Hok) as Htry.
  destruct Hok as (_ & Ho & _).
  pose proof (listening_world_open host port ls s w Ho) as Ho1.
  set (w1 := listening_world host port ls s w) in *.
  assert (Hn1 : (length conns ≤ thread_budget w1)%nat)
    by (subst w1; unfold listening_world; simpl; lia).
  rewrite (accept_loop_accepts ls conns w1 (set_listening true s)
             (accepted_event p :: behind) Ho1 eq_refl Hq Hn1) in Htry.
  set (w2 := set_threads _ _ _) in Htry.
  assert (Ho2 : open_sock ls w2
                = Some (set_backlog (accepted_event p :: behind)
                          (set_listening true s))).
  { apply open_sock_set_sock. by apply open_sock_Some in Ho as [_ ?]. }
  assert (Hb2 : thread_budget w2 = 0%nat).
  { subst w2 w1. unfold listening_world. simpl. lia. }
  rewrite (accept_loop_eq ls w2) in Htry.
  rewrite (accept_iter_no_thread ls w2 _ p behind Ho2 eq_refl eq_refl Hb2)
    in Htry.
  rewrite (start_server_caught host port w _ _ Htry). cbn [fst snd].
  set (w3 := set_stdout _ _).
  destruct (leave_frame_rest w3) as (_ & Hout & _ & _ & _ & Hth & _).
  rewrite Hout, Hth.
  assert (Hfds : (threads w3).*1 = (threads w).*1 ++ conns.*1).
  { subst w3 w2 w1. unfold taken, listening_world.
    cbn [threads set_stdout set_sock set_threads set_locals set_fresh_fds].
    by rewrite fmap_app, new_thread_fds. }
  assert (Hrel : released w3 p.1 = true).
  { unfold released, closes. rewrite Hfds.
    assert (locals w3 !! "client_socket" ≫= held = Some p.1) as ->.
    { subst w3 w2 w1. unfold taken, accepted_locals.
      cbn [locals set_stdout set_sock set_threads set_locals set_fresh_fds].
      rewrite lookup_insert_ne by done. rewrite lookup_insert_ne by done.
      by rewrite lookup_insert_eq. }
    rewrite (bool_decide_eq_true_2 (Some p.1 = Some p.1)) by done.
    rewrite (bool_decide_eq_true_2 (p.1 ∉ _)).
    - by rewrite orb_true_r.
    - intros [?|?]%elem_of_app; done. }
  split_and!.
  - done.
  - subst w3 w2 w1. unfold taken, listening_world. done.
  - rewrite leave_frame_socks, Hrel.
    subst w3 w2 w1. unfold taken, listening_world.
    cbn [socks set_stdout set_sock set_threads set_locals set_fresh_fds].
    rewrite !lookup_insert_ne by done. by rewrite Hsp.
  - subst w3 w2 w1. unfold taken, listening_world.
    cbn [stdout set_stdout set_sock set_threads set_locals set_fresh_fds].
    by rewrite <-!app_assoc.
Qed.

Lemma X9_thread_failure_abandons_the_connection_witness :
  let a := Addr (10, 0, 0, 1) 50001 in
  let b := Addr (10, 0, 0, 2) 50002 in
  let l := queue_of [Accepted 7 a; Accepted 8 b] in
  let c := peer_sends [RxData (blit "anyone?")] in
  let w := world_of {[ 3%nat := l; 7%nat := peer_sends []; 8%nat := c ]}
             [3%nat] 1 in
  (start_server (lit "localhost") 8080 w).1 = Ok PNone
  ∧ threads (start_server (lit "localhost") 8080 w).2 = [(7%nat, TRunning)]
  ∧ socks (start_server (lit "localhost") 8080 w).2 !! 8%nat
    = Some (set_closed true c).
Proof.
  intros a b l c w.
  destruct (X9_thread_failure_abandons_the_connection (lit "localhost") 8080
              w 3 l c [(7%nat, a)] (8%nat, b) [])
    as (H1 & H2 & H3 & _).
  - unfold setup_ok. split_and!; try reflexivity. lia.
  - reflexivity.
  - reflexivity.
  - discriminate.
  - reflexivity.
  - by vm_compute; intros ?%elem_of_nil.
  - intros Hin. apply list_elem_of_singleton in Hin. discriminate.
  - by split_and!.
Defined.

(** X10.  Unless every step of the set-up succeeds (the socket is created,
    the port is at most 65535, the bind and the listen succeed, and the
    line that announces the server can be printed), [start_server] never
    accepts: it prints the error line alone, starts no thread and returns
    None.  Of the sockets it changes none but the one it created, and that
    one goes away with its local names: it is closed, with its queue as it
    was. *)
Theorem X10_failed_setup_accepts_nothing (host : str) (port : N)
    (w : world) :
  (¬ ∃ ls s, setup_ok host port w ls s) →
  (start_server host port w).1 = Ok PNone
  ∧ stdout (start_server host port w).2
    = stdout w ++ [lit "Error encountered in start_server"]
  ∧ threads (start_server host port w).2 = threads w
  ∧ (∀ c, head (fresh_fds w) ≠ Some c →
          socks (start_server host port w).2 !! c = socks w !! c)
  ∧ (∀ ls s, head (fresh_fds w) = Some ls → socks w !! ls = Some s →
             ls ∉ (threads w).*1 →
             ∃ s', socks (start_server host port w).2 !! ls = Some s'
                   ∧ closed s' = true ∧ backlog s' = backlog s).
Proof.
  intros Hno.
  destruct (start_server_try_setup_fails host port w Hno)
    as (e & w1 & Htry & Hout1 & Hth1 & Hheld & Hserver & Hsocks).
  rewrite (start_server_caught host port w e w1 Htry). cbn [fst snd].
  set (w2 := set_stdout _ w1).
  destruct (leave_frame_rest w2) as (_ & Hout & _ & _ & _ & Hth & _).
  assert (Hs2 : ∀ c, socks w2 !! c = socks w1 !! c) by done.
  assert (Hl2 : locals w2 = locals w1) by done.
  assert (Ht2 : threads w2 = threads w) by done.
  assert (Ho2 : stdout w2
                = stdout w ++ [lit "Error encountered in start_server"])
    by (subst w2; cbn [stdout set_stdout]; by rewrite Hout1).
  rewrite Hout, Hth, Ho2, Ht2. split_and!; try done.
  - intros c Hc. rewrite leave_frame_socks, Hs2.
    destruct (released w2 c) eqn:Hrel.
    + apply released_held in Hrel as (_ & name & _ & Hname).
      rewrite Hl2 in Hname. by destruct (Hheld name c Hname) as [_ ?].
    + destruct (Hsocks c) as [->|(s & ? & _)]; [|done].
      by destruct (socks w !! c).
  - intros ls s Hls Hs Hnt. rewrite leave_frame_socks, Hs2.
    assert (released w2 ls = true) as ->.
    { unfold released, closes. rewrite Hl2, Ht2, (Hserver ls Hls).
      cbn [held mbind option_bind].
      by rewrite !bool_decide_eq_true_2 by done. }
    destruct (Hsocks ls) as [->|(s0 & _ & Hs0 & ->)].
    + rewrite Hs. eexists. split; [done|]. by split.
    + rewrite Hs in Hs0. injection Hs0 as <-.
      eexists. split; [done|]. by split.
Qed.

Lemma X10_failed_setup_accepts_nothing_witness :
  let l := queue_of [Accepted 7 (Addr (10, 0, 0, 1) 50001)] in
  let w := world_of {[ 3%nat := l ]} [3%nat] 4 in
  (start_server (lit "localhost") 70000 w).1 = Ok PNone
  ∧ stdout (start_server (lit "localhost") 70000 w).2
    = [lit "Error encountered in start_server"]
  ∧ threads (start_server (lit "localhost") 70000 w).2 = []
  ∧ ∃ s', socks (start_server (lit "localhost") 70000 w).2 !! 3%nat = Some s'
          ∧ closed s' = true ∧ backlog s' = backlog l.
Proof.
  intros l w.
  destruct (X10_failed_setup_accepts_nothing (lit "localhost") 70000 w)
    as (H1 & H2 & H3 & _ & H5).
  - intros (ls & s & _ & _ & Hp & _). lia.
  - split_and!; [exact H1|exact H2|exact H3|].
    apply (H5 3%nat l); [reflexivity..|].
    by vm_compute; intros ?%elem_of_nil.
Defined.

(** ** The client block *)

(** X11.  The client block at the top level closes its socket only after it
    has printed the answer.  Whenever a statement before the close raises,
    the print of the answer included, the [except:] prints its line alone
    and the socket that was created stays open; while the block waits for
    the answer the socket is open and nothing has been printed.  When the
    close itself raises, the socket is closed and the error line follows
    the answer.  No exception leaves the block. *)
Theorem X11_client_leaves_socket_open_on_error (w : world) (c : fd)
    (fds : list fd) (s : sock) :
  fresh_fds w = c :: fds → open_sock c w = Some s →
  let w' := (module_toplevel w).2 in
  let closed_now := ∃ s', socks w' !! c = Some s' ∧ closed s' = true in
  ((module_toplevel w).1 = Ok tt ∧ closed_now
   ∧ ∃ data, stdout w' = stdout w ++ [answer_line data])
  ∨ ((module_toplevel w).1 = Ok tt ∧ closed_now
     ∧ ∃ data, stdout w'
               = stdout w ++ [answer_line data;
                              lit "Error encountered in start_client"])
  ∨ ((module_toplevel w).1 = Ok tt ∧ is_Some (open_sock c w')
     ∧ stdout w' = stdout w ++ [lit "Error encountered in start_client"])
  ∨ ((module_toplevel w).1 = Block ∧ is_Some (open_sock c w')
     ∧ stdout w' = stdout w).
Proof.
  intros Hf Ho. cbv zeta.
  destruct (module_toplevel w) as [r0 w0] eqn:Hres. revert Hres.
  rewrite module_toplevel_eq.
  unfold try_except, client_try. unfold bind at 1, socket_socket at 1.
  cbn [fresh_fds set_globals]. rewrite Hf.
  match goal with
  | |- context [bind ?m ?k ?w1] =>
    pose proof (client_rest_ends c (stdout w) w1 s) as Hends;
    destruct (bind m k w1) as [r w2]
  end.
  specialize (Hends r w2 Ho eq_refl eq_refl).
  assert (Herr :
    print (lit "Error encountered in start_client") w2
    = (Ok tt,
       set_stdout (stdout w2 ++ [lit "Error encountered in start_client"])
         w2)).
  { apply print_shown. by vm_compute. }
  destruct r as [[]|e|]; cbn [client_outcome] in Hends;
    rewrite ?Herr; intros [= <- <-]; cbn [fst snd].
  - left. destruct Hends as [Hclosed Hout]. by split_and!.
  - destruct Hends as [[Hclosed [data Hout]]|[Hout Hopen]].
    + right; left. split_and!; [done|done|]. exists data.
      cbn [stdout set_stdout]. by rewrite Hout, <-app_assoc.
    + right; right; left. split_and!; [done|done|].
      cbn [stdout set_stdout]. by rewrite Hout.
  - right; right; right. destruct Hends as [Hout Hopen]. by split_and!.
Qed.

Lemma X11_client_leaves_socket_open_on_error_witness :
  let g : gmap string pyval :=
    {[ "host" := PStr (lit "localhost"); "port" := PInt 9000;
       "message" := PStr (lit "hi") ]} in
  let w := World {[ 4%nat := peer_sends [RxData [xff]] ]} [4%nat] []
             utf8_chars g ∅ [] 0 in
  (module_toplevel w).1 = Ok tt
  ∧ sent_on 4 (module_toplevel w).2 = [blit "hi"]
  ∧ is_Some (open_sock 4 (module_toplevel w).2)
  ∧ stdout (module_toplevel w).2 = [lit "Error encountered in start_client"].
Proof.
  intros g w.
  destruct (X11_client_leaves_socket_open_on_error w 4 []
              (peer_sends [RxData [xff]]))
    as [(_ & (s' & Hs & Hno) & _)|[(_ & (s' & Hs & Hno) & _)
        |[(H1 & H2 & H3)|(Hno & _)]]];
    try reflexivity.
  - vm_compute in Hs. injection Hs as <-. by vm_compute in Hno.
  - vm_compute in Hs. injection Hs as <-. by vm_compute in Hno.
  - split_and!; [exact H1|by vm_compute|exact H2|exact H3].
  - by vm_compute in Hno.
Defined.

(** X12.  With [host], [port] and [message] bound to a string, a port
    number and a string, on a socket that connects, sends and closes
    without failure: the client block writes the UTF-8 bytes of the
    message in one write and then reads once, at most 1024 bytes.  When
    these are a text that standard output can show, it prints the text
    after "Received from server: ", binds it to [data] and closes the
    socket; what has arrived beyond the 1024 bytes is never read. *)
Theorem X12_client_reads_once (w : world) (c : fd) (fds : list fd)
    (s : sock) (h msg text : str) (p : Z) (payload reply : bytes)
    (rest : list rx_event) :
  fresh_fds w = c :: fds → open_sock c w = Some s →
  globals w !! "host" = Some (PStr h) →
  globals w !! "port" = Some (PInt p) → (0 ≤ p ≤ 65535)%Z →
  globals w !! "message" = Some (PStr msg) →
  Utf8.encode msg = Some payload →
  connect_err s = None → (∀ k e t, tx s ≠ TxErr k e :: t) →
  close_err s = None →
  rx s = RxData reply :: rest →
  Utf8.decode (take 1024 reply) = Some text →
  shows (stdout_chars w) text = true →
  (module_toplevel w).1 = Ok tt
  ∧ sent_on c (module_toplevel w).2 = sent s ++ [payload]
  ∧ stdout (module_toplevel w).2
    = stdout w ++ [lit "Received from server: " ++ text]
  ∧ globals (module_toplevel w).2 !! "data" = Some (PStr text)
  ∧ open_sock c (module_toplevel w).2 = None
  ∧ ∃ s', socks (module_toplevel w).2 !! c = Some s'
          ∧ data_stream (rx s') = drop 1024 reply ++ data_stream rest.
Proof.
  intros Hf Ho Hh Hp Hr Hm He Hc Htx Hcl Hrx Hd Hsh.
  destruct (client_exchange w c fds s h msg p payload reply rest)
    as (H1 & H2 & H3 & H4); try done.
  rewrite Hd, Hsh in H4. destruct H4 as (H4 & H5 & H6). by split_and!.
Qed.

Lemma X12_client_reads_once_witness :
  let g : gmap string pyval :=
    {[ "host" := PStr (lit "localhost"); "port" := PInt 9000;
       "message" := PStr (lit "hi") ]} in
  let s := peer_sends [RxData (blit "Server received: hi");
                       RxData (blit "more")] in
  let w := World {[ 4%nat := s ]} [4%nat] [] utf8_chars g ∅ [] 0 in
  (module_toplevel w).1 = Ok tt
  ∧ sent_on 4 (module_toplevel w).2 = [blit "hi"]
  ∧ stdout (module_toplevel w).2
    = [lit "Received from server: Server received: hi"]
  ∧ open_sock 4 (module_toplevel w).2 = None.
Proof.
  intros g s w.
  destruct (X12_client_reads_once w 4 [] s (lit "localhost") (lit "hi")
              (lit "Server received: hi") 9000 (blit "hi")
              (blit "Server received: hi") [RxData (blit "more")])
    as (H1 & H2 & H3 & _ & H5 & _); try reflexivity.
  - lia.
  - intros k e t. discriminate.
  - split_and!; [exact H1|exact H2|exact H3|exact H5].
Defined.

(** X13.  The client block and the handler, end to end.  Let the message
    be non-empty and at most 1007 bytes long in UTF-8, and a text that the
    standard output of both sides can show.  Let the client's names be
    bound and its socket connect, send and close without failure; let the
    message reach the handler in one piece, followed by the end of the
    stream or an error, on a socket of which no send fails and on which
    nothing was sent before; and let what the handler wrote reach the
    client in one piece.  Then the handler prints the message after
    "Received from client: " and the client prints it after "Received
    from server: Server received: " and closes its socket. *)
Theorem X13_message_comes_back (w ws : world) (c cs : fd) (fds : list fd)
    (s ss : sock) (h msg : str) (p : Z) (payload : bytes) (ev : rx_event)
    (rest rs : list rx_event) :
  fresh_fds w = c :: fds → open_sock c w = Some s →
  globals w !! "host" = Some (PStr h) →
  globals w !! "port" = Some (PInt p) → (0 ≤ p ≤ 65535)%Z →
  globals w !! "message" = Some (PStr msg) →
  Utf8.encode msg = Some payload →
  connect_err s = None → (∀ k e t, tx s ≠ TxErr k e :: t) →
  close_err s = None →
  payload ≠ [] → (length payload ≤ 1007)%nat →
  shows (stdout_chars w) msg = true → shows (stdout_chars ws) msg = true →
  open_sock cs ws = Some ss →
  rx ss = RxData payload :: ev :: rs → (∀ bs, ev ≠ RxData bs) →
  Forall (λ t, t = TxOk) (tx ss) → sent ss = [] →
  rx s = RxData (concat (sent_on cs (handle_clientconnection cs ws).2))
         :: rest →
  stdout (handle_clientconnection cs ws).2
  = stdout ws ++ [lit "Received from client: " ++ msg]
  ∧ (module_toplevel w).1 = Ok tt
  ∧ stdout (module_toplevel w).2
    = stdout w ++ [lit "Received from server: "
                   ++ lit "Server received: " ++ msg]
  ∧ open_sock c (module_toplevel w).2 = None.
Proof.
  intros Hf Ho Hh Hp Hr Hm He Hc Htx Hcl Hne Hlen Hshc Hshs Hos Hrxs Hev Htxs
    Hsent Hrx.
  pose proof (Utf8Facts.decode_encode _ _ He) as Hdec.
  destruct (handler_single_request cs ws ss payload msg ev rs)
    as [Hreply Hline]; [done..|lia|done|done|].
  rewrite Hreply, Hsent in Hrx. cbn [app concat] in Hrx.
  rewrite app_nil_r in Hrx.
  destruct (client_exchange w c fds s h msg p payload
              (echo_prefix ++ payload) rest)
    as (H1 & _ & _ & H4); try done.
  rewrite take_ge in H4
    by (rewrite length_app, echo_prefix_length; lia).
  rewrite (decode_reply payload msg He) in H4.
  assert (Hsh : shows (stdout_chars w) (lit "Server received: " ++ msg)
                = true).
  { rewrite shows_app, Hshc, andb_true_r. by vm_compute. }
  rewrite Hsh in H4.
  destruct H4 as (_ & H4 & H6). by split_and!.
Qed.

Lemma X13_message_comes_back_witness :
  let g : gmap string pyval :=
    {[ "host" := PStr (lit "localhost"); "port" := PInt 9000;
       "message" := PStr (lit "hi") ]} in
  let ss := peer_sends [RxData (blit "hi"); RxEof] in
  let ws := world_of {[ 7%nat := ss ]} [] 0 in
  let s := peer_sends [RxData (blit "Server received: hi"); RxEof] in
  let w := World {[ 4%nat := s ]} [4%nat] [] utf8_chars g ∅ [] 0 in
  stdout (handle_clientconnection 7 ws).2 = [lit "Received from client: hi"]
  ∧ stdout (module_toplevel w).2
    = [lit "Received from server: Server received: hi"].
Proof.
  intros g ss ws s w.
  destruct (X13_message_comes_back w ws 4 7 [] s ss (lit "localhost")
              (lit "hi") 9000 (blit "hi") RxEof [RxEof] [])
    as (H1 & _ & H3 & _); try reflexivity.
  - lia.
  - intros k e t. discriminate.
  - discriminate.
  - vm_compute. lia.
  - discriminate.
  - constructor.
  - split; [exact H1|exact H3].
Defined.

(** X14.  In the same setting, a message of 1008 to 1024 bytes never comes
    back whole: the reply is longer than the 1024 bytes the client reads.
    The client prints the text of the first 1024 bytes of the reply, or,
    when these are not a text that its standard output can show, as when
    they end inside a character, the error line; the last bytes of the
    reply are left unread.  What follows the message on the handler's
    side may be the end of the stream or an error, such as the reset of
    the connection. *)
Theorem X14_long_message_comes_back_cut (w ws : world) (c cs : fd)
    (fds : list fd) (s ss : sock) (h msg : str) (p : Z) (payload : bytes)
    (ev : rx_event) (rest rs : list rx_event) :
  fresh_fds w = c :: fds → open_sock c w = Some s →
  globals w !! "host" = Some (PStr h) →
  globals w !! "port" = Some (PInt p) → (0 ≤ p ≤ 65535)%Z →
  globals w !! "message" = Some (PStr msg) →
  Utf8.encode msg = Some payload →
  connect_err s = None → (∀ k e t, tx s ≠ TxErr k e :: t) →
  close_err s = None →
  (1008 ≤ length payload ≤ 1024)%nat →
  shows (stdout_chars ws) msg = true →
  open_sock cs ws = Some ss →
  rx ss = RxData payload :: ev :: rs → (∀ bs, ev ≠ RxData bs) →
  Forall (λ t, t = TxOk) (tx ss) → sent ss = [] →
  rx s = RxData (concat (sent_on cs (handle_clientconnection cs ws).2))
         :: rest →
  (module_toplevel w).1 = Ok tt
  ∧ stdout (module_toplevel w).2
    ≠ stdout w ++ [lit "Received from server: "
                   ++ lit "Server received: " ++ msg]
  ∧ ((∃ text,
        Utf8.encode text = Some (take 1024 (echo_prefix ++ payload))
        ∧ stdout (module_toplevel w).2
          = stdout w ++ [lit "Received from server: " ++ text])
     ∨ stdout (module_toplevel w).2
       = stdout w ++ [lit "Error encountered in start_client"])
  ∧ ∃ s', socks (module_toplevel w).2 !! c = Some s'
          ∧ data_stream (rx s') = drop 1007 payload ++ data_stream rest.
Proof.
  intros Hf Ho Hh Hp Hr Hm He Hc Htx Hcl Hlen Hshs Hos Hrxs Hev Htxs Hsent
    Hrx.
  pose proof (Utf8Facts.decode_encode _ _ He) as Hdec.
  destruct (handler_single_request cs ws ss payload msg ev rs)
    as [Hreply _];
    [done..|by intros ->; simpl in Hlen; lia|lia|done|done|].
  rewrite Hreply, Hsent in Hrx. cbn [app concat] in Hrx.
  rewrite app_nil_r in Hrx.
  destruct (client_exchange w c fds s h msg p payload
              (echo_prefix ++ payload) rest)
    as (H1 & _ & (s' & Hs' & Hleft) & H4); try done.
  rewrite drop_app_ge in Hleft by (rewrite echo_prefix_length; lia).
  rewrite echo_prefix_length in Hleft.
  change (1024 - 17)%nat with 1007%nat in Hleft.
  assert (Hnoerr : lit "Error encountered in start_client"
                   ≠ lit "Received from server: "
                     ++ lit "Server received: " ++ msg).
  { intros Hline. apply (f_equal head) in Hline. by vm_compute in Hline. }
  assert (Hcases :
    (∃ text,
       Utf8.encode text = Some (take 1024 (echo_prefix ++ payload))
       ∧ stdout (module_toplevel w).2
         = stdout w ++ [lit "Received from server: " ++ text])
    ∨ stdout (module_toplevel w).2
      = stdout w ++ [lit "Error encountered in start_client"]).
  { destruct (Utf8.decode (take 1024 (echo_prefix ++ payload)))
      as [text|] eqn:Hd.
    - destruct H4 as (_ & H4).
      destruct (shows (stdout_chars w) text); destruct H4 as (H4 & _);
        [|by right].
      left. exists text. split; [|done]. by apply Utf8Facts.encode_decode.
    - destruct H4 as (H4 & _). by right. }
  split_and!; [done| |done|by exists s'].
  intros Heq. destruct Hcases as [(text & Henc & Hout)|Hout];
    rewrite Hout in Heq; apply app_inv_head in Heq.
  - assert (Htext : lit "Received from server: " ++ text
                    = lit "Received from server: "
                      ++ lit "Server received: " ++ msg) by congruence.
    apply app_inv_head in Htext. subst text.
    rewrite (encode_reply payload msg Hdec) in Henc.
    assert (Hcut : echo_prefix ++ payload
                   = take 1024 (echo_prefix ++ payload)) by congruence.
    apply (f_equal length) in Hcut.
    rewrite length_take, length_app, echo_prefix_length in Hcut. lia.
  - apply Hnoerr. congruence.
Qed.

Lemma X14_long_message_comes_back_cut_witness :
  let msg : str := replicate 1008 97 in
  let g : gmap string pyval :=
    {[ "host" := PStr (lit "localhost"); "port" := PInt 9000;
       "message" := PStr msg ]} in
  let ss := peer_sends [RxData (replicate 1008 x61);
                        RxErr ConnectionResetError] in
  let ws := world_of {[ 7%nat := ss ]} [] 0 in
  let s := peer_sends [RxData (echo_prefix ++ replicate 1008 x61)] in
  let w := World {[ 4%nat := s ]} [4%nat] [] utf8_chars g ∅ [] 0 in
  (module_toplevel w).1 = Ok tt
  ∧ ∃ s', socks (module_toplevel w).2 !! 4%nat = Some s'
          ∧ data_stream (rx s') = [x61] ++ [].
Proof.
  intros msg g ss ws s w.
  destruct (X14_long_message_comes_back_cut w ws 4 7 [] s ss
              (lit "localhost") msg 9000 (replicate 1008 x61)
              (RxErr ConnectionResetError) [] [])
    as (H1 & _ & _ & H4); try (vm_compute; reflexivity).
  - lia.
  - intros k e t. discriminate.
  - vm_compute. lia.
  - discriminate.
  - constructor.
  - split; [exact H1|exact H4].
Defined.

(** ** Threads *)

(** X15.  What happens on a connection does not depend on how the threads
    are interleaved.  Let thread [i] serve socket [c], and let no other
    thread, nor the accept loop, have that socket.  Then after any schedule
    socket [c] and the status of thread [i] are exactly what the steps of
    thread [i] in the schedule, taken by themselves, make them. *)
Theorem X15_session_is_schedule_independent (sched : list task)
    (sys : system) (i : nat) (c : fd) (st : tstatus) :
  threads (sys_world sys) !! i = Some (c, st) →
  owns i c sys →
  socks (sys_world (run sched sys)) !! c
  = socks (Nat.iter (length (steps_of i sched)) (handler_step i)
             (sys_world sys)) !! c
  ∧ threads (sys_world (run sched sys)) !! i
    = threads (Nat.iter (length (steps_of i sched)) (handler_step i)
                 (sys_world sys)) !! i.
Proof.
  intros Hi Hown. by apply (run_session_alone i c sched sys _ st).
Qed.

Lemma X15_session_is_schedule_independent_witness :
  let w := World {[ 3%nat := set_listening true
                               (queue_of [Accepted 9 (Addr (10, 0, 0, 3) 50003)]);
                    7%nat := peer_sends [RxData [xff]; RxData (blit "never read")];
                    8%nat := peer_sends [RxData (blit "hello"); RxEof];
                    9%nat := peer_sends [RxErr ConnectionResetError] ]}
             [] [] utf8_chars ∅
             (<["server_socket" := PSocket 3%nat]>
                (frame_of (lit "localhost") 8080))
             [(7%nat, TRunning); (8%nat, TRunning)] 4 in
  let sys := System w (Some 3%nat) in
  let sched := [Handler 1; Handler 0; Listener; Handler 0; Handler 2;
                Handler 1; Listener] in
  socks (sys_world (run sched sys)) !! 8%nat
  = socks (Nat.iter 2 (handler_step 1) w) !! 8%nat
  ∧ threads (sys_world (run sched sys)) !! 1%nat
    = threads (Nat.iter 2 (handler_step 1) w) !! 1%nat.
Proof.
  intros w sys sched.
  apply (X15_session_is_schedule_independent sched sys 1 8 TRunning).
  - reflexivity.
  - split.
    + intros [|[|j]] c' st' Hj Hne; [|done|done].
      injection Hj as <- _. discriminate.
    + intros ls [= <-]. split; [discriminate|].
      intros sl peer [= <-] Hin.
      apply list_elem_of_singleton in Hin. discriminate.
Defined.
